(** * Verification of the symmetry-reduced triangular lattice model of spinsys

    Shallow embedding of [hamiltonians/triangular_lattice_model.py].
    Product states are Python integers, modelled as [Z]; lattice sizes
    [Nx], [Ny] are Python integers used in [range], modelled as [nat].
    [translate_x] computes with the numpy [int64] arrays of
    [_translate_x_aux], which wrap modulo [2 ^ 64]; it is modelled with
    that wrap-around ([translate_x] below).  [translate_x_exact] evaluates
    the same expression over exact integers; the two agree whenever
    [Nx * Ny <= 62] ([translate_x_int64_exact]).  The sweep of
    [zero_momentum_states] uses [translate_x_exact]: that function first
    allocates [np.ones(2 ** N)], which cannot be built for [N >= 63], so
    every call it makes lies in the range where the two agree. *)

From Stdlib Require Import ZArith Lia List Bool Permutation Sorting.Sorted.
From Stdlib Require Import Lists.Finite QArith Reals Psatz.
Import ListNotations.

Local Open Scope Z_scope.

(** ** Bit-state codec *)

(** One row of [translate_x]: [n] is the offset [r * Nx] of the row, the
    numpy array [n = np.arange(0, Nx * Ny, Nx)] of [_translate_x_aux]. *)
Definition translate_x_row (dec : Z) (Nx : nat) (n : nat) : Z :=
  let a := 2 ^ Z.of_nat (n + Nx) in
  let b := 2 ^ Z.of_nat n in
  let c := 2 ^ Z.of_nat Nx in
  let d := 2 ^ Z.of_nat (Nx - 1) in
  let s := dec mod a / b in
  (s * 2) mod c + s / d.

(** [(e).dot(s)] over the first [r] rows, [e = 2 ** n]. *)
Fixpoint translate_x_dot (dec : Z) (Nx : nat) (r : nat) : Z :=
  match r with
  | O => 0
  | S r' => translate_x_dot dec Nx r'
            + 2 ^ Z.of_nat (r' * Nx) * translate_x_row dec Nx (r' * Nx)
  end.

(** [translate_x] evaluated over exact integers. *)
Definition translate_x_exact (dec : Z) (Nx Ny : nat) : Z :=
  translate_x_dot dec Nx Ny.

(** numpy [int64] arithmetic: results are taken modulo [2 ^ 64] into
    [[-2 ^ 63, 2 ^ 63)]. *)
Definition wrap64 (z : Z) : Z := (z + 2 ^ 63) mod 2 ^ 64 - 2 ^ 63.

(** numpy's integer [%] and [//] on [int64]: floor semantics, and [0] for a
    zero divisor (numpy warns and returns [0] instead of raising). *)
Definition np_mod (x y : Z) : Z := if y =? 0 then 0 else wrap64 (x mod y).
Definition np_floordiv (x y : Z) : Z := if y =? 0 then 0 else wrap64 (x / y).

(** One row of [translate_x] with the [int64] arrays of [_translate_x_aux]:
    [a = 2 ** (n + Nx)] and [b = e = 2 ** n] are [int64] entries, so they
    wrap ([2 ** 63] is [-2 ** 63] and [2 ** k] is [0] for [k >= 64]);
    [c = 2 ** Nx] and [d = 2 ** (Nx - 1)] are Python integers.  The state
    [dec] enters the [int64] computation as its value (it fits an [int64]). *)
Definition translate_x_row64 (dec : Z) (Nx : nat) (n : nat) : Z :=
  let a := wrap64 (2 ^ Z.of_nat (n + Nx)) in
  let b := wrap64 (2 ^ Z.of_nat n) in
  let c := 2 ^ Z.of_nat Nx in
  let d := 2 ^ Z.of_nat (Nx - 1) in
  let s := np_floordiv (np_mod dec a) b in
  wrap64 (np_mod (wrap64 (s * 2)) c + np_floordiv s d).

(** [(e).dot(s)] in [int64] over the first [r] rows, [e = 2 ** n]. *)
Fixpoint translate_x_dot64 (dec : Z) (Nx : nat) (r : nat) : Z :=
  match r with
  | O => 0
  | S r' => wrap64 (translate_x_dot64 dec Nx r'
                    + wrap64 (wrap64 (2 ^ Z.of_nat (r' * Nx))
                              * translate_x_row64 dec Nx (r' * Nx)))
  end.

Definition translate_x (dec : Z) (Nx Ny : nat) : Z :=
  translate_x_dot64 dec Nx Ny.

Definition translate_y (dec : Z) (Nx Ny : nat) : Z :=
  let xdim := 2 ^ Z.of_nat Nx in
  let pred_totdim := 2 ^ Z.of_nat (Nx * (Ny - 1)) in
  let tail := dec mod xdim in
  dec / xdim + tail * pred_totdim.

(** Number of set bits of a non-negative integer. *)
Fixpoint pos_popcount (p : positive) : nat :=
  match p with
  | xH => 1
  | xO p' => pos_popcount p'
  | xI p' => S (pos_popcount p')
  end.

Definition popcount (z : Z) : nat :=
  match z with
  | Zpos p => pos_popcount p
  | _ => O
  end.

(** Column rotation of [translate_x], iterated [k] times, on bit indices. *)
Definition x_index (Nx : nat) (k : Z) (i : Z) : Z :=
  let X := Z.of_nat Nx in X * (i / X) + (i mod X + k * (X - 1)) mod X.

(** The bit positions [0 .. N - 1] of an [N]-site product state. *)
Definition zseq (N : nat) : list Z := map Z.of_nat (seq 0 N).


(** ** Bloch basis builder *)

(** A Python dict whose values are lists, in insertion order. *)
Definition posdict := list (Z * list (nat * nat)).

(** [decs[k].append(v)], or [decs[k] = [v]] on a [KeyError]. *)
Fixpoint dict_append (k : Z) (v : nat * nat) (d : posdict) : posdict :=
  match d with
  | [] => [(k, [v])]
  | (k', vs) :: d' =>
      if Z.eqb k k' then (k', vs ++ [v]) :: d' else (k', vs) :: dict_append k v d'
  end.

Definition dict_keys (d : posdict) : list Z := map fst d.

Fixpoint dict_lookup (k : Z) (d : posdict) : option (list (nat * nat)) :=
  match d with
  | [] => None
  | (k', vs) :: d' => if Z.eqb k k' then Some vs else dict_lookup k d'
  end.

Definition has_key (k : Z) (d : posdict) : bool := existsb (Z.eqb k) (dict_keys d).

(** [BlochFunc] without its [norm], which is [None] until a momentum
    sector is chosen (see [_bloch_states]). *)
Record BlochFunc := mkBlochFunc { lead : Z; decs : posdict }.

(** The numpy [sieve] array: [sieve[dec]] is truthy until [dec] is claimed. *)
Definition sieve_t := Z -> bool.

Definition sieve_clear (sieve : sieve_t) (x : Z) : sieve_t :=
  fun y => if Z.eqb y x then false else sieve y.

(** Loop state of [find_T_invariant_set]: [decs], [new_dec] and [sieve]. *)
Record sweep := mkSweep { sw_decs : posdict; sw_new : Z; sw_sieve : sieve_t }.

(** Body of the inner loop [for m in range(Nx)] at row [n].  The call
    [translate_x(new_dec, Nx, Ny)] is evaluated exactly: the loop only runs
    after [np.ones(2 ** N)] has been allocated, so [N <= 62] and the
    [int64] model agrees with it ([translate_x_int64_exact]). *)
Definition sweep_col (Nx Ny n : nat) (st : sweep) (m : nat) : sweep :=
  let sieve := sieve_clear (sw_sieve st) (sw_new st) in
  let decs := dict_append (sw_new st) (n, m) (sw_decs st) in
  mkSweep decs (translate_x_exact (sw_new st) Nx Ny) sieve.

(** Body of the outer loop [for n in range(Ny)]. *)
Definition sweep_row (Nx Ny : nat) (st : sweep) (n : nat) : sweep :=
  let st' := fold_left (sweep_col Nx Ny n) (seq 0 Nx) st in
  mkSweep (sw_decs st') (translate_y (sw_new st') Nx Ny) (sw_sieve st').

Definition find_T_invariant_set (Nx Ny : nat) (dec : Z) (sieve : sieve_t)
  : BlochFunc * sieve_t :=
  let st := fold_left (sweep_row Nx Ny) (seq 0 Ny) (mkSweep [] dec sieve) in
  (mkBlochFunc dec (sw_decs st), sw_sieve st).

(** Body of [for dec in range(2 ** N)]. *)
Definition zms_step (Nx Ny : nat) (acc : list BlochFunc * sieve_t) (dec : Z)
  : list BlochFunc * sieve_t :=
  let '(bfuncs, sieve) := acc in
  if sieve dec then
    let '(bf, sieve') := find_T_invariant_set Nx Ny dec sieve in
    (bfuncs ++ [bf], sieve')
  else (bfuncs, sieve).

(** Python's [sorted(data, key=lambda x: x.lead)], a stable sort. *)
Fixpoint insert_by_lead (b : BlochFunc) (l : list BlochFunc) : list BlochFunc :=
  match l with
  | [] => [b]
  | b' :: l' => if lead b <? lead b' then b :: l else b' :: insert_by_lead b l'
  end.

Definition sort_by_lead (l : list BlochFunc) : list BlochFunc :=
  fold_left (fun acc b => insert_by_lead b acc) l [].

(** The [data] of the [BlochFuncSet] returned by [zero_momentum_states],
    after [table.sort()]. *)
Definition zero_momentum_states (Nx Ny : nat) : list BlochFunc :=
  let N := (Nx * Ny)%nat in
  let '(bfuncs, _) :=
    fold_left (zms_step Nx Ny) (zseq (2 ^ N)) ([], fun _ => true) in
  sort_by_lead bfuncs.

(** Number of orbits of a basis set whose [decs] has the key [dec]. *)
Definition owners (dec : Z) (bfuncs : list BlochFunc) : nat :=
  length (filter (fun bf => has_key dec (decs bf)) bfuncs).


(** ** Translation orbits *)

(** The state reached at position [(n, m)] of the sweep from [dec]:
    [m] x-translations of [n] y-translations of [dec]. *)
Definition orbit_elem (Nx Ny : nat) (dec : Z) (n m : nat) : Z :=
  Nat.iter m (fun d => translate_x_exact d Nx Ny) (Nat.iter n (fun d => translate_y d Nx Ny) dec).

(** The positions [(n, m)] of the sweep, in loop order. *)
Definition visited (Nx Ny : nat) : list (nat * nat) :=
  flat_map (fun n => map (fun m => (n, m)) (seq 0 Nx)) (seq 0 Ny).

Definition orbit_members (Nx Ny : nat) (dec : Z) : list Z :=
  map (fun p => orbit_elem Nx Ny dec (fst p) (snd p)) (visited Nx Ny).

(** A dict built by [dict_append] from a list of entries. *)
Definition dict_of (entries : list (Z * (nat * nat))) (d : posdict) : posdict :=
  fold_left (fun d kv => dict_append (fst kv) (snd kv) d) entries d.

Definition sieve_clear_all (sieve : sieve_t) (xs : list Z) : sieve_t :=
  fold_left sieve_clear xs sieve.

(** Product states of an [Nx * Ny] lattice: [0 <= dec < 2 ^ (Nx * Ny)]. *)
Definition in_range (Nx Ny : nat) (d : Z) : Prop := 0 <= d < 2 ^ Z.of_nat (Nx * Ny).

(** Invariant of the loop of [zero_momentum_states] once the states
    below [D] have been visited. *)
Definition zms_inv (Nx Ny : nat) (D : Z) (acc : list BlochFunc * sieve_t) : Prop :=
  let '(bfuncs, sieve) := acc in
  (forall y, sieve y = negb (0 <? owners y bfuncs)%nat) /\
  (forall y, (owners y bfuncs <= 1)%nat) /\
  (forall y, sieve y = false ->
     sieve (translate_x_exact y Nx Ny) = false /\ sieve (translate_y y Nx Ny) = false) /\
  (forall y, 0 <= y < D -> sieve y = false) /\
  (forall y, sieve y = false -> in_range Nx Ny y).

(** The leading state of an orbit is one of its keys and the smallest one. *)
Definition lead_is_min_key (bf : BlochFunc) : Prop :=
  has_key (lead bf) (decs bf) = true /\
  (forall x, has_key x (decs bf) = true -> lead bf <= x).

(** [_gen_ind_dec_conv_dicts]: the orbits kept for a momentum sector are
    those whose norm passes the test [s.norm > 1e-8]; the test is a
    floating-point computation, kept here as an arbitrary predicate [keep]. *)
Definition nonzero_states (keep : BlochFunc -> bool) (states : list BlochFunc) :
  list BlochFunc := filter keep states.

(** [ind_to_dec[i]] of [_gen_ind_dec_conv_dicts]: the [i]-th kept orbit. *)
Definition ind_to_dec (keep : BlochFunc -> bool) (Nx Ny : nat) (i : nat) : option BlochFunc :=
  nth_error (nonzero_states keep (zero_momentum_states Nx Ny)) i.

(** ** Diagonal Ising term *)

(** [_repeated_spins]: [dec | s1 == dec] tests the spin at the site whose
    one-bit mask is [s1] (Python's [|] binds tighter than [==]). *)
Definition repeated_spins (dec s1 s2 : Z) : bool * bool :=
  let upup := (Z.lor dec s1 =? dec) && (Z.lor dec s2 =? dec) in
  let downdown := negb (Z.lor dec s1 =? dec) && negb (Z.lor dec s2 =? dec) in
  (upup, downdown).

(** A Python [bool] used in integer addition. *)
Definition b2z (b : bool) : Z := if b then 1 else 0.

(** [_interacting_sites]: the bonds of range [l], as returned by
    [_generate_bonds(Nx, Ny)[l - 1]] (built from the lattice geometry of
    [constructors.PeriodicBCSiteVector], which is not part of the sources
    here), given by the lattice indices of their two sites; the result is
    the pair of arrays of one-bit masks [2 ** site1], [2 ** site2]. *)
Definition interacting_sites (bonds : list (nat * nat)) : list Z * list Z :=
  (map (fun b => 2 ^ Z.of_nat (fst b)) bonds, map (fun b => 2 ^ Z.of_nat (snd b)) bonds).

(** [H_z_elements(Nx, Ny, kx, ky, i, l)]: the momentum sector enters
    through the retention test [keep] of [ind_to_dec], the range [l] through
    its bonds; a missing index [i] raises [KeyError], here [None]. The
    float [0.25 * (same_dir - diff_dir)] of two small integers is exact,
    modelled in [Q]. *)
Definition H_z_elements (keep : BlochFunc -> bool) (Nx Ny : nat)
    (bonds : list (nat * nat)) (i : nat) : option Q :=
  match ind_to_dec keep Nx Ny i with
  | None => None
  | Some state =>
      let '(site1, site2) := interacting_sites bonds in
      let same_dir :=
        fold_left (fun acc s =>
          let '(upup, downdown) := repeated_spins (lead state) (fst s) (snd s) in
          acc + b2z upup + b2z downdown) (combine site1 site2) 0 in
      let diff_dir := Z.of_nat (length site1) - same_dir in
      Some ((1 # 4) * inject_Z (same_dir - diff_dir))%Q
  end.

(** ** Assembly of the Hamiltonian *)

(** Python numbers (the couplings) are modelled as exact rationals; the
    only exception the assembly code itself can raise is the division
    [J_z / J_pm]. *)
Inductive py_error := ZeroDivisionError.

Inductive result (A : Type) : Type :=
| Ok (a : A)
| Err (e : py_error).
Arguments Ok {A} a.
Arguments Err {A} e.

(** Python's [/]: a zero divisor raises. *)
Definition py_div (a b : Q) : result Q :=
  if Qeq_bool b 0 then Err ZeroDivisionError else Ok (a / b)%Q.

(** The matrices [hamiltonian_consv_k] requests. *)
Inductive component := Cz (l : nat) | Cpm (l : nat) | Cppmm | Cpmz.

Section Assembly.

(** The sparse matrices of a momentum sector. [hamiltonian_consv_k] obtains
    them from [H_z_matrix], [H_pm_matrix], [H_ppmm_matrix] and
    [H_pmz_matrix]; [build] stands for these calls, with the state [S] they
    read and update (the memo of [_find_leading_state], the matrix cache),
    and [cache_clear] for [_find_leading_state.cache_clear()]. *)
Variable M : Type.
Variable madd : M -> M -> M.
Variable mscale : Q -> M -> M.
Variable S : Type.
Variable build : component -> S -> M * S.
Variable cache_clear : S -> S.

(** A summand of the final sum: the integer [0] the code starts the
    second and third neighbour terms with, or a matrix. *)
Inductive term := IntZero | Mat (m : M).

(** Python's [+] on these summands ([0 + H] and [H + 0] give [H]). *)
Definition py_add (a b : term) : term :=
  match a, b with
  | IntZero, _ => b
  | _, IntZero => a
  | Mat x, Mat y => Mat (madd x y)
  end.

(** Straight-line code over the state [S] that may raise. *)
Definition asm (A : Type) : Type := S -> S * result A.

Definition asm_ret {A : Type} (a : A) : asm A := fun s => (s, Ok a).

Definition asm_bind {A B : Type} (m : asm A) (k : A -> asm B) : asm B :=
  fun s => match m s with
           | (s', Ok a) => k a s'
           | (s', Err e) => (s', Err e)
           end.

Definition asm_lift {A : Type} (r : result A) : asm A := fun s => (s, r).

Definition request (c : component) : asm M :=
  fun s => let '(m, s') := build c s in (s', Ok m).

Definition asm_clear : asm unit := fun s => (cache_clear s, Ok tt).

Local Notation "x <- m ;; k" := (asm_bind m (fun x => k))
  (at level 61, m at next level, right associativity).

(** [hamiltonian_consv_k(Nx, Ny, kx, ky, J_pm, J_z, J_ppmm, J_pmz, J2, J3)];
    the lattice and the sector are those of the matrices [build] returns. *)
Definition hamiltonian_consv_k (J_pm J_z J_ppmm J_pmz J2 J3 : Q) : asm term :=
  H_z1 <- request (Cz 1) ;;
  H_pm1 <- request (Cpm 1) ;;
  H_ppmm <- request Cppmm ;;
  H_pmz <- request Cpmz ;;
  let nearest_neighbor_terms :=
    madd (madd (madd (mscale J_pm H_pm1) (mscale J_z H_z1)) (mscale J_ppmm H_ppmm))
         (mscale J_pmz H_pmz) in
  second_neighbor_terms <-
    (if negb (Qeq_bool J2 0) then
       H_z2 <- request (Cz 2) ;;
       H_pm2 <- request (Cpm 2) ;;
       r <- asm_lift (py_div J_z J_pm) ;;
       asm_ret (Mat (mscale J2 (madd H_pm2 (mscale r H_z2))))
     else asm_ret IntZero) ;;
  third_neighbor_terms <-
    (if negb (Qeq_bool J3 0) then
       H_z3 <- request (Cz 3) ;;
       H_pm3 <- request (Cpm 3) ;;
       r <- asm_lift (py_div J_z J_pm) ;;
       asm_ret (Mat (mscale J3 (madd H_pm3 (mscale r H_z3))))
     else asm_ret IntZero) ;;
  _ <- asm_clear ;;
  asm_ret (py_add (py_add (Mat nearest_neighbor_terms) second_neighbor_terms)
                  third_neighbor_terms).

(** [hamiltonian_dp]: all components come precomputed from
    [hamiltonian_dp_components]. *)
Definition hamiltonian_dp (H_pm1 H_z1 H_ppmm H_pmz H_pm2 H_z2 H_z3 H_pm3 : M)
    (J_pm J_z J_ppmm J_pmz J2 J3 : Q) : result term :=
  let nearest_neighbor_terms :=
    madd (madd (madd (mscale J_pm H_pm1) (mscale J_z H_z1)) (mscale J_ppmm H_ppmm))
         (mscale J_pmz H_pmz) in
  match (if negb (Qeq_bool J2 0) then
           match py_div J_z J_pm with
           | Ok r => Ok (Mat (mscale J2 (madd H_pm2 (mscale r H_z2))))
           | Err e => Err e
           end
         else Ok IntZero) with
  | Err e => Err e
  | Ok second_neighbor_terms =>
      match (if negb (Qeq_bool J3 0) then
               match py_div J_z J_pm with
               | Ok r => Ok (Mat (mscale J3 (madd H_pm3 (mscale r H_z3))))
               | Err e => Err e
               end
             else Ok IntZero) with
      | Err e => Err e
      | Ok third_neighbor_terms =>
          Ok (py_add (py_add (Mat nearest_neighbor_terms) second_neighbor_terms)
                     third_neighbor_terms)
      end
  end.

End Assembly.

(** The requests of [hamiltonian_consv_k] as a log: [mat] gives the
    matrices, the state is the list of components requested so far. *)
Definition log_build {M : Type} (mat : component -> M) (c : component) (log : list component) :
  M * list component := (mat c, log ++ [c]).

(** ** The memo of [_find_leading_state] *)

(** [_exchange_spin_flips]. *)
Definition exchange_spin_flips (dec s1 s2 : Z) : bool * bool :=
  let updown := (Z.lor dec s1 =? dec) && negb (Z.lor dec s2 =? dec) in
  let downup := negb (Z.lor dec s1 =? dec) && (Z.lor dec s2 =? dec) in
  (updown, downup).

(** [bloch_states.hashtable[dec]]: the orbit owning [dec]. *)
Definition hashtable_lookup (states : list BlochFunc) (dec : Z) : option BlochFunc :=
  find (fun bf => has_key dec (decs bf)) states.

(** The keys [dec] memoised by [_find_leading_state] at one sector, in
    insertion order. A call raising [NotFoundError] (norm test failed,
    [keep] false) is not memoised by [functools.lru_cache]. *)
Definition find_leading_state_memo (keep : BlochFunc -> bool) (Nx Ny : nat)
    (memo : list Z) (dec : Z) : list Z :=
  if existsb (Z.eqb dec) memo then memo
  else match hashtable_lookup (zero_momentum_states Nx Ny) dec with
       | Some bf => if keep bf then memo ++ [dec] else memo
       | None => memo
       end.

(** The calls of [_find_leading_state] made by [H_pm_elements] for the
    orbit with leading state [lead0]. *)
Definition H_pm_elements_memo (keep : BlochFunc -> bool) (Nx Ny : nat)
    (bonds : list (nat * nat)) (lead0 : Z) (memo : list Z) : list Z :=
  let '(site1, site2) := interacting_sites bonds in
  fold_left (fun memo s =>
    let '(updown, downup) := exchange_spin_flips lead0 (fst s) (snd s) in
    if updown then find_leading_state_memo keep Nx Ny memo (lead0 - fst s + snd s)
    else if downup then find_leading_state_memo keep Nx Ny memo (lead0 + fst s - snd s)
    else memo) (combine site1 site2) memo.

(** The calls of [_find_leading_state] made by [H_ppmm_elements] for the
    orbit with leading state [lead0]. *)
Definition H_ppmm_elements_memo (keep : BlochFunc -> bool) (Nx Ny : nat)
    (bonds : list (nat * nat)) (lead0 : Z) (memo : list Z) : list Z :=
  let '(site1, site2) := interacting_sites bonds in
  fold_left (fun memo s =>
    let '(upup, downdown) := repeated_spins lead0 (fst s) (snd s) in
    if upup then find_leading_state_memo keep Nx Ny memo (lead0 - fst s - snd s)
    else if downdown then find_leading_state_memo keep Nx Ny memo (lead0 + fst s + snd s)
    else memo) (combine site1 site2) memo.

(** The calls made by [H_pmz_elements]: for each bond, once with the flip
    of the second site, then once more with the two sites swapped. *)
Definition H_pmz_elements_memo (keep : BlochFunc -> bool) (Nx Ny : nat)
    (bonds : list (nat * nat)) (lead0 : Z) (memo : list Z) : list Z :=
  let '(site1, site2) := interacting_sites bonds in
  let flip memo s2 :=
    if Z.lor lead0 s2 =? lead0
    then find_leading_state_memo keep Nx Ny memo (lead0 - s2)
    else find_leading_state_memo keep Nx Ny memo (lead0 + s2) in
  fold_left (fun memo s => flip (flip memo (snd s)) (fst s)) (combine site1 site2) memo.

(** [_offdiag_components]: one call of [elements] per index of the reduced
    basis. *)
Definition offdiag_memo (keep : BlochFunc -> bool) (Nx Ny : nat)
    (elements : Z -> list Z -> list Z) (memo : list Z) : list Z :=
  fold_left (fun memo st => elements (lead st) memo)
    (nonzero_states keep (zero_momentum_states Nx Ny)) memo.

(** The matrix requests of [hamiltonian_consv_k] with their effect on the
    memo of [_find_leading_state] at the sector of [keep]; [bonds l] are
    the bonds of range [l]. The matrices themselves play no part here. *)
Definition memo_build (keep : BlochFunc -> bool) (Nx Ny : nat) (bonds : nat -> list (nat * nat))
    (c : component) (memo : list Z) : unit * list Z :=
  match c with
  | Cz _ => (tt, memo)
  | Cpm l => (tt, offdiag_memo keep Nx Ny (H_pm_elements_memo keep Nx Ny (bonds l)) memo)
  | Cppmm => (tt, offdiag_memo keep Nx Ny (H_ppmm_elements_memo keep Nx Ny (bonds 1%nat)) memo)
  | Cpmz => (tt, offdiag_memo keep Nx Ny (H_pmz_elements_memo keep Nx Ny (bonds 1%nat)) memo)
  end.

(** ** Momentum sectors *)

(** numpy's complex numbers, with exact real and imaginary parts. The
    floating-point results of the code are within rounding of these. *)
Definition cplx : Type := (R * R)%type.

Definition czero : cplx := (0%R, 0%R).
Definition cone : cplx := (1%R, 0%R).
Definition cadd (a b : cplx) : cplx := (fst a + fst b, snd a + snd b)%R.
Definition cmul (a b : cplx) : cplx :=
  (fst a * fst b - snd a * snd b, fst a * snd b + snd a * fst b)%R.
Definition cconj (a : cplx) : cplx := (fst a, - snd a)%R.
Definition cabs2 (a : cplx) : R := (fst a * fst a + snd a * snd a)%R.
(** [np.abs] of a complex number. *)
Definition cabs (a : cplx) : R := sqrt (cabs2 a).
(** A complex number divided by a real one. *)
Definition cdiv_real (a : cplx) (r : R) : cplx := (fst a / r, snd a / r)%R.
(** [np.sum] of complex numbers. *)
Definition csum (l : list cplx) : cplx := fold_right cadd czero l.
Definition rsum (l : list R) : R := fold_right Rplus 0%R l.
(** [np.exp(1j * x)] for a real [x]. *)
Definition cexp_i (x : R) : cplx := (cos x, sin x).

(** [_phase_arr(Nx, Ny, kx, ky)[n, m]]: the outer product of
    [yphase = np.exp(2j * np.pi * ky * n / Ny)] and
    [xphase = np.exp(2j * np.pi * kx * m / Nx)]. *)
Definition xphase (Nx : nat) (kx : Z) (m : nat) : cplx :=
  cexp_i (2 * PI * IZR kx * INR m / INR Nx).
Definition yphase (Ny : nat) (ky : Z) (n : nat) : cplx :=
  cexp_i (2 * PI * IZR ky * INR n / INR Ny).
Definition phase_arr (Nx Ny : nat) (kx ky : Z) (n m : nat) : cplx :=
  cmul (yphase Ny ky n) (xphase Nx kx m).

(** [np.sum(phase_arr[rows, cols])] over the positions [locs] of one state. *)
Definition locs_sum (Nx Ny : nat) (kx ky : Z) (locs : list (nat * nat)) : cplx :=
  csum (map (fun p => phase_arr Nx Ny kx ky (fst p) (snd p)) locs).

(** [_norm_coeff]: [np.linalg.norm] of the sums of the phases, one per key of
    [bfunc.decs]. *)
Definition norm_coeff (bf : BlochFunc) (Nx Ny : nat) (kx ky : Z) : R :=
  sqrt (rsum (map (fun kv => cabs2 (locs_sum Nx Ny kx ky (snd kv))) (decs bf))).

Definition tol : R := (1 / 100000000)%R.

(** The test [norm > 1e-8] of [_bloch_states] and [_gen_ind_dec_conv_dicts]. *)
Definition norm_gt_tol (Nx Ny : nat) (kx ky : Z) (bf : BlochFunc) : bool :=
  if Rlt_dec tol (norm_coeff bf Nx Ny kx ky) then true else false.

(** The reduced basis of a sector: [nonzero_states] of
    [_gen_ind_dec_conv_dicts] with the norm test. *)
Definition reduced_basis (Nx Ny : nat) (kx ky : Z) : list BlochFunc :=
  nonzero_states (norm_gt_tol Nx Ny kx ky) (zero_momentum_states Nx Ny).

(** A full Brillouin zone: [Nx] consecutive values of [kx] and [Ny]
    consecutive values of [ky] (the zone (-pi, +pi] is one of them). *)
Definition brillouin_zone (Nx Ny : nat) (kx0 ky0 : Z) : list (Z * Z) :=
  flat_map (fun i => map (fun j => (kx0 + Z.of_nat i, ky0 + Z.of_nat j)) (seq 0 Ny))
    (seq 0 Nx).

Inductive lookup_error := KeyError | NotFoundError.

(** [_find_leading_state(Nx, Ny, kx, ky, dec)]: the orbit owning [dec] (from
    [bloch_states.hashtable]), [NotFoundError] when its norm is below
    [1e-8], otherwise the orbit with the phase
    [np.sum(phase_arr[rows, cols]).conjugate() / np.abs(...)] over the
    positions of [dec] in it. *)
Definition find_leading_state (Nx Ny : nat) (kx ky : Z) (dec : Z) :
  lookup_error + (BlochFunc * cplx) :=
  match hashtable_lookup (zero_momentum_states Nx Ny) dec with
  | None => inl KeyError
  | Some cntd_state =>
      if Rlt_dec (norm_coeff cntd_state Nx Ny kx ky) tol then inl NotFoundError
      else match dict_lookup dec (decs cntd_state) with
           | None => inl KeyError
           | Some locs =>
               let phase := cconj (locs_sum Nx Ny kx ky locs) in
               inr (cntd_state, cdiv_real phase (cabs phase))
           end
  end.

(** Composition of sweep positions [(n, m)]: the translations commute and
    are periodic, so positions add modulo [(Ny, Nx)]. *)
Definition pos_add (Nx Ny : nat) (p q : nat * nat) : nat * nat :=
  ((fst p + fst q) mod Ny, (snd p + snd q) mod Nx)%nat.

(** The positions of the sweep from [d] at which the sweep is back at [d]. *)
Definition stabilizer (Nx Ny : nat) (d : Z) : list (nat * nat) :=
  filter (fun p => orbit_elem Nx Ny d (fst p) (snd p) =? d) (visited Nx Ny).

(** ** Index maps and matrix elements of a momentum sector *)

(** Python's item assignment [d[k] = v] on a dict, in insertion order: an
    existing key keeps its place and gets the new value. *)
Fixpoint py_setitem {K V : Type} (eqb : K -> K -> bool) (k : K) (v : V) (d : list (K * V))
  : list (K * V) :=
  match d with
  | [] => [(k, v)]
  | (k', v') :: d' => if eqb k k' then (k', v) :: d' else (k', v') :: py_setitem eqb k v d'
  end.

(** Python's [d[k]]; [None] is a [KeyError]. *)
Fixpoint py_getitem {K V : Type} (eqb : K -> K -> bool) (k : K) (d : list (K * V)) : option V :=
  match d with
  | [] => None
  | (k', v) :: d' => if eqb k k' then Some v else py_getitem eqb k d'
  end.

(** [dict(zip(ks, vs))]. *)
Definition py_dict_zip {K V : Type} (eqb : K -> K -> bool) (ks : list K) (vs : list V)
  : list (K * V) :=
  fold_left (fun d kv => py_setitem eqb (fst kv) (snd kv) d) (combine ks vs) [].

(** [dec_to_ind] of [_gen_ind_dec_conv_dicts(Nx, Ny, kx, ky)]: the lead of
    each kept orbit mapped to its index. The [ind_to_dec] of the same call
    is [ind_to_dec (norm_gt_tol Nx Ny kx ky) Nx Ny]. *)
Definition dec_to_ind (Nx Ny : nat) (kx ky : Z) : list (Z * nat) :=
  let dec := map lead (reduced_basis Nx Ny kx ky) in
  let nstates := length dec in
  let inds := seq 0 nstates in
  py_dict_zip Z.eqb dec inds.

(** A complex number times a float, and its negation. *)
Definition cscale (r : R) (a : cplx) : cplx := (r * fst a, r * snd a)%R.
Definition copp (a : cplx) : cplx := (- fst a, - snd a)%R.

(** [_coeff]: [cntd_state.norm / orig_state.norm], where [norm] is the
    value [_bloch_states] stores for the sector, [_norm_coeff]. *)
Definition coeff (Nx Ny : nat) (kx ky : Z) (orig_state cntd_state : BlochFunc) : R :=
  (norm_coeff cntd_state Nx Ny kx ky / norm_coeff orig_state Nx Ny kx ky)%R.

(** The [j_element] dict of the [H_*_elements] functions. *)
Definition jdict := list (nat * cplx).

(** [try: j_element[j] += c] / [except KeyError: j_element[j] = c]. *)
Definition j_add (j : nat) (c : cplx) (j_element : jdict) : jdict :=
  match py_getitem Nat.eqb j j_element with
  | Some x => py_setitem Nat.eqb j (cadd x c) j_element
  | None => py_setitem Nat.eqb j c j_element
  end.

(** Sequencing of code that may raise [KeyError] or [NotFoundError]. *)
Definition lbind {A B : Type} (m : lookup_error + A) (k : A -> lookup_error + B)
  : lookup_error + B :=
  match m with
  | inl e => inl e
  | inr a => k a
  end.

(** The [try] block of [H_pm_elements], [H_ppmm_elements] and
    [H_pmz_elements] for the flipped state [new_dec]: the connected orbit
    and its phase from [_find_leading_state], its index
    [j = dec_to_ind[cntd_state.lead]], and [j_element[j]] increased by
    [weight (phase * _coeff(...))]; a [NotFoundError] is caught and leaves
    [j_element] as it is, a [KeyError] propagates. *)
Definition connect (Nx Ny : nat) (kx ky : Z) (orig_state : BlochFunc) (new_dec : Z)
    (weight : cplx -> cplx) (j_element : jdict) : lookup_error + jdict :=
  match find_leading_state Nx Ny kx ky new_dec with
  | inl NotFoundError => inr j_element
  | inl KeyError => inl KeyError
  | inr (cntd_state, phase) =>
      match py_getitem Z.eqb (lead cntd_state) (dec_to_ind Nx Ny kx ky) with
      | None => inl KeyError
      | Some j =>
          let c := cscale (coeff Nx Ny kx ky orig_state cntd_state) phase in
          inr (j_add j (weight c) j_element)
      end
  end.

(** [H_pm_elements(Nx, Ny, kx, ky, i, l)], the range [l] given by its
    bonds as in [H_z_elements]. *)
Definition H_pm_elements (Nx Ny : nat) (kx ky : Z) (bonds : list (nat * nat)) (i : nat)
  : lookup_error + jdict :=
  match ind_to_dec (norm_gt_tol Nx Ny kx ky) Nx Ny i with
  | None => inl KeyError
  | Some orig_state =>
      let '(site1, site2) := interacting_sites bonds in
      fold_left (fun acc s => lbind acc (fun j_element =>
        let '(updown, downup) := exchange_spin_flips (lead orig_state) (fst s) (snd s) in
        if updown || downup then
          let new_dec := if updown then lead orig_state - fst s + snd s
                         else lead orig_state + fst s - snd s in
          connect Nx Ny kx ky orig_state new_dec (fun c => c) j_element
        else inr j_element)) (combine site1 site2) (inr [])
  end.

(** [H_ppmm_elements(Nx, Ny, kx, ky, i, l)]; [gamma s1 s2] is
    [_gamma(Nx, Ny, s1, s2)], the phase of the angle between the two sites
    in the lattice geometry of [constructors] (not part of the sources
    here). *)
Definition H_ppmm_elements (gamma : Z -> Z -> cplx) (Nx Ny : nat) (kx ky : Z)
    (bonds : list (nat * nat)) (i : nat) : lookup_error + jdict :=
  match ind_to_dec (norm_gt_tol Nx Ny kx ky) Nx Ny i with
  | None => inl KeyError
  | Some orig_state =>
      let '(site1, site2) := interacting_sites bonds in
      fold_left (fun acc s => lbind acc (fun j_element =>
        let '(upup, downdown) := repeated_spins (lead orig_state) (fst s) (snd s) in
        if upup || downdown then
          let '(new_dec, g) :=
            if upup then (lead orig_state - fst s - snd s, cconj (gamma (fst s) (snd s)))
            else (lead orig_state + fst s + snd s, gamma (fst s) (snd s)) in
          connect Nx Ny kx ky orig_state new_dec (fun c => cmul c g) j_element
        else inr j_element)) (combine site1 site2) (inr [])
  end.

(** One pass of the inner loop [for _ in range(2)] of [H_pmz_elements]
    with the sites [s1], [s2]. *)
Definition pmz_step (gamma : Z -> Z -> cplx) (Nx Ny : nat) (kx ky : Z)
    (orig_state : BlochFunc) (s1 s2 : Z) (j_element : jdict) : lookup_error + jdict :=
  let z_contrib := if Z.lor (lead orig_state) s1 =? lead orig_state then (1 / 2)%R
                   else (- (1 / 2))%R in
  let '(new_dec, g) :=
    if Z.lor (lead orig_state) s2 =? lead orig_state
    then (lead orig_state - s2, cconj (gamma s1 s2))
    else (lead orig_state + s2, copp (gamma s1 s2)) in
  connect Nx Ny kx ky orig_state new_dec (fun c => cmul (cscale z_contrib g) c) j_element.

(** [H_pmz_elements(Nx, Ny, kx, ky, i, l)]: for each bond, a pass with
    [(s1, s2)], then one with the sites swapped. *)
Definition H_pmz_elements (gamma : Z -> Z -> cplx) (Nx Ny : nat) (kx ky : Z)
    (bonds : list (nat * nat)) (i : nat) : lookup_error + jdict :=
  match ind_to_dec (norm_gt_tol Nx Ny kx ky) Nx Ny i with
  | None => inl KeyError
  | Some orig_state =>
      let '(site1, site2) := interacting_sites bonds in
      fold_left (fun acc s => lbind acc (fun j_element =>
        lbind (pmz_step gamma Nx Ny kx ky orig_state (fst s) (snd s) j_element)
              (pmz_step gamma Nx Ny kx ky orig_state (snd s) (fst s))))
        (combine site1 site2) (inr [])
  end.

(** [_offdiag_components(Nx, Ny, kx, ky, l, func)]: the entries
    [(row, col, data)] handed to [sparse.csc_matrix] with [shape=(n, n)],
    [n = len(_bloch_states(...))], the number of orbits passing the norm
    test. *)
Definition offdiag_components (Nx Ny : nat) (kx ky : Z) (func : nat -> lookup_error + jdict)
  : lookup_error + list (nat * nat * cplx) :=
  let n := length (reduced_basis Nx Ny kx ky) in
  fold_left (fun acc i => lbind acc (fun entries =>
      lbind (func i) (fun j_elements =>
        inr (entries ++ map (fun je => (i, fst je, snd je)) j_elements))))
    (seq 0 n) (inr []).

(** [_diag_components(Nx, Ny, kx, ky, l, func)]: the array [data] of the
    diagonal, [data[i] = func(Nx, Ny, kx, ky, i, l)]; [None] is an
    exception raised by [func]. *)
Definition diag_components (Nx Ny : nat) (kx ky : Z) (func : nat -> option Q)
  : option (list Q) :=
  let n := length (reduced_basis Nx Ny kx ky) in
  fold_left (fun acc i =>
      match acc with
      | None => None
      | Some data => match func i with
                     | None => None
                     | Some x => Some (data ++ [x])
                     end
      end) (seq 0 n) (Some []).

(* DEFS-END *)

(** ** Bit lemmas *)

Lemma testbit_split (x y k i : Z) :
  0 <= k -> 0 <= x < 2 ^ k -> 0 <= i ->
  Z.testbit (x + 2 ^ k * y) i =
  if i <? k then Z.testbit x i else Z.testbit y (i - k).
Proof.
  intros Hk Hx Hi.
  assert (Hp : 0 < 2 ^ k) by (apply Z.pow_pos_nonneg; lia).
  destruct (Z.ltb_spec i k) as [Hlt|Hge].
  - rewrite <- (Z.mod_pow2_bits_low _ k i) by lia.
    f_equal. rewrite (Z.mul_comm _ y), Z.mod_add by lia.
    apply Z.mod_small; lia.
  - replace i with ((i - k) + k) at 1 by lia.
    rewrite <- Z.div_pow2_bits by lia. f_equal.
    rewrite (Z.mul_comm _ y), Z.div_add by lia.
    rewrite Z.div_small by lia. lia.
Qed.

Lemma testbit_row_extract (dec : Z) (n w j : Z) :
  0 <= n -> 0 <= w -> 0 <= j ->
  Z.testbit (dec mod 2 ^ (n + w) / 2 ^ n) j =
  (j <? w) && Z.testbit dec (j + n).
Proof.
  intros Hn Hw Hj.
  rewrite Z.div_pow2_bits by lia.
  destruct (Z.ltb_spec j w).
  - rewrite Z.mod_pow2_bits_low by lia. reflexivity.
  - rewrite Z.mod_pow2_bits_high by lia. reflexivity.
Qed.

Lemma testbit_small_high (z : Z) (n i : Z) :
  0 <= z < 2 ^ n -> 0 <= n <= i -> Z.testbit z i = false.
Proof.
  intros Hz Hi.
  rewrite <- (Z.mod_small z (2 ^ n)) by lia.
  apply Z.mod_pow2_bits_high. lia.
Qed.

Lemma mod_decomp (X q r : Z) :
  0 < X -> 0 <= r < X -> (X * q + r) mod X = r /\ (X * q + r) / X = q.
Proof.
  intros HX Hr. split.
  - rewrite Z.add_comm, Z.mul_comm, Z.mod_add by lia. apply Z.mod_small; lia.
  - rewrite Z.add_comm, Z.mul_comm, Z.div_add by lia.
    rewrite Z.div_small by lia. lia.
Qed.

(** Rotation of a column index inside a row by one site. *)
Lemma rot_mod (X a : Z) :
  0 <= a < X -> (a + X - 1) mod X = if a =? 0 then X - 1 else a - 1.
Proof.
  intros Ha. destruct (Z.eqb_spec a 0) as [->|Hne].
  - apply Z.mod_small. lia.
  - replace (a + X - 1) with (X * 1 + (a - 1)) by lia.
    apply mod_decomp; lia.
Qed.

Lemma pow2_pred (X : Z) : 1 <= X -> 2 ^ X = 2 ^ (X - 1) * 2.
Proof.
  intros HX. replace X with ((X - 1) + 1) at 1 by lia.
  rewrite Z.pow_add_r by lia. reflexivity.
Qed.

Lemma translate_x_row_bound (dec : Z) (Nx n : nat) :
  (1 <= Nx)%nat -> 0 <= translate_x_row dec Nx n < 2 ^ Z.of_nat Nx.
Proof.
  intros HNx. unfold translate_x_row.
  set (X := Z.of_nat Nx).
  assert (HX : 1 <= X) by lia.
  assert (Hpx : 2 ^ X = 2 ^ (X - 1) * 2) by (apply pow2_pred; lia).
  replace (Z.of_nat (Nx - 1)) with (X - 1) by lia.
  set (s := dec mod 2 ^ Z.of_nat (n + Nx) / 2 ^ Z.of_nat n).
  assert (Hp1 : 0 < 2 ^ (X - 1)) by (apply Z.pow_pos_nonneg; lia).
  assert (Hs : 0 <= s < 2 ^ X).
  { unfold s. rewrite Nat2Z.inj_add. fold X.
    assert (0 < 2 ^ Z.of_nat n) by (apply Z.pow_pos_nonneg; lia).
    assert (0 <= dec mod 2 ^ (Z.of_nat n + X) < 2 ^ (Z.of_nat n + X))
      by (apply Z.mod_pos_bound; apply Z.pow_pos_nonneg; lia).
    split; [apply Z.div_pos; lia|].
    apply Z.div_lt_upper_bound; [lia|].
    rewrite <- Z.pow_add_r by lia. lia. }
  rewrite Hpx, Z.mul_mod_distr_r by lia.
  assert (0 <= s mod 2 ^ (X - 1) < 2 ^ (X - 1)) by (apply Z.mod_pos_bound; lia).
  assert (0 <= s / 2 ^ (X - 1) < 2).
  { split; [apply Z.div_pos; lia|]. apply Z.div_lt_upper_bound; lia. }
  lia.
Qed.

Lemma translate_x_row_bits (dec : Z) (Nx n : nat) (m : Z) :
  (1 <= Nx)%nat -> 0 <= m ->
  Z.testbit (translate_x_row dec Nx n) m =
  (m <? Z.of_nat Nx) &&
  Z.testbit dec (Z.of_nat n + (m + Z.of_nat Nx - 1) mod Z.of_nat Nx).
Proof.
  intros HNx Hm. unfold translate_x_row.
  set (X := Z.of_nat Nx). set (O := Z.of_nat n).
  assert (HX : 1 <= X) by lia.
  assert (Hpx : 2 ^ X = 2 ^ (X - 1) * 2) by (apply pow2_pred; lia).
  replace (Z.of_nat (Nx - 1)) with (X - 1) by lia.
  rewrite Nat2Z.inj_add. fold O X.
  set (s := dec mod 2 ^ (O + X) / 2 ^ O).
  assert (Hp1 : 0 < 2 ^ (X - 1)) by (apply Z.pow_pos_nonneg; lia).
  assert (HO : 0 <= O) by lia.
  assert (Hsb : forall j, 0 <= j -> Z.testbit s j = (j <? X) && Z.testbit dec (j + O))
    by (intros; apply testbit_row_extract; lia).
  assert (Hs : 0 <= s < 2 ^ X).
  { unfold s.
    assert (0 < 2 ^ O) by (apply Z.pow_pos_nonneg; lia).
    assert (0 <= dec mod 2 ^ (O + X) < 2 ^ (O + X))
      by (apply Z.mod_pos_bound; apply Z.pow_pos_nonneg; lia).
    split; [apply Z.div_pos; lia|].
    apply Z.div_lt_upper_bound; [lia|].
    rewrite <- Z.pow_add_r by lia. lia. }
  rewrite Hpx, Z.mul_mod_distr_r by lia.
  assert (0 <= s / 2 ^ (X - 1) < 2 ^ 1).
  { split; [apply Z.div_pos; lia|]. apply Z.div_lt_upper_bound; lia. }
  rewrite Z.add_comm, (Z.mul_comm _ 2).
  change 2 with (2 ^ 1) at 2.
  rewrite testbit_split by lia.
  destruct (Z.ltb_spec m 1) as [Hm1|Hm1].
  - assert (m = 0) by lia. subst m.
    rewrite Z.div_pow2_bits by lia. rewrite Hsb by lia.
    rewrite rot_mod by lia. simpl.
    destruct (Z.ltb_spec (X - 1) X); [|lia].
    destruct (Z.ltb_spec 0 X); [|lia].
    simpl. f_equal. lia.
  - destruct (Z.ltb_spec (m - 1) (X - 1)) as [Hlt|Hge].
    + rewrite Z.mod_pow2_bits_low by lia. rewrite Hsb by lia.
      rewrite rot_mod by lia.
      destruct (Z.ltb_spec (m - 1) X); [|lia].
      destruct (Z.ltb_spec m X); [|lia].
      destruct (Z.eqb_spec m 0); [lia|]. simpl. f_equal. lia.
    + rewrite Z.mod_pow2_bits_high by lia.
      destruct (Z.ltb_spec m X); [lia|]. reflexivity.
Qed.


Lemma translate_x_dot_spec (dec : Z) (Nx r : nat) :
  (1 <= Nx)%nat ->
  0 <= translate_x_dot dec Nx r < 2 ^ Z.of_nat (r * Nx) /\
  forall i, 0 <= i ->
    Z.testbit (translate_x_dot dec Nx r) i =
    (i <? Z.of_nat (r * Nx)) && Z.testbit dec (x_index Nx 1 i).
Proof.
  intros HNx. set (X := Z.of_nat Nx). assert (HX : 1 <= X) by lia.
  induction r as [|r [IHb IHt]].
  - simpl. split; [lia|]. intros i Hi. rewrite Z.bits_0.
    destruct (Z.ltb_spec i 0); [lia|]. reflexivity.
  - simpl translate_x_dot.
    pose proof (translate_x_row_bound dec Nx (r * Nx) HNx) as Hrow.
    fold X in Hrow.
    assert (Hpow : 2 ^ Z.of_nat (S r * Nx) = 2 ^ Z.of_nat (r * Nx) * 2 ^ X).
    { rewrite <- Z.pow_add_r by lia. f_equal. lia. }
    split.
    + rewrite Hpow. nia.
    + intros i Hi. rewrite testbit_split by lia.
      destruct (Z.ltb_spec i (Z.of_nat (r * Nx))) as [Hlt|Hge].
      * rewrite IHt by lia.
        destruct (Z.ltb_spec i (Z.of_nat (S r * Nx))); [|lia].
        destruct (Z.ltb_spec i (Z.of_nat (r * Nx))); [|lia]. reflexivity.
      * rewrite translate_x_row_bits by lia. fold X.
        set (R := Z.of_nat (r * Nx)) in *.
        assert (HR : R = X * Z.of_nat r) by (unfold R, X; lia).
        destruct (Z.ltb_spec (i - R) X) as [Hin|Hout].
        -- destruct (mod_decomp X (Z.of_nat r) (i - R)) as [Hm Hd]; [lia|lia|].
           replace (X * Z.of_nat r + (i - R)) with i in Hm, Hd by lia.
           destruct (Z.ltb_spec i (Z.of_nat (S r * Nx))); [|lia].
           simpl. unfold x_index. fold X. rewrite Hm, Hd.
           rewrite Z.mul_1_l.
           replace (i - R + (X - 1)) with (i - R + X - 1) by lia.
           f_equal. lia.
        -- destruct (Z.ltb_spec i (Z.of_nat (S r * Nx))); [lia|]. reflexivity.
Qed.

Lemma x_index_0 (Nx : nat) (i : Z) :
  (1 <= Nx)%nat -> 0 <= i -> x_index Nx 0 i = i.
Proof.
  intros HNx Hi. unfold x_index.
  rewrite Z.mul_0_l, Z.add_0_r, Z.mod_mod by lia.
  symmetry. apply Z.div_mod. lia.
Qed.

Lemma x_index_step (Nx : nat) (k i : Z) :
  (1 <= Nx)%nat -> 0 <= i ->
  x_index Nx k (x_index Nx 1 i) = x_index Nx (k + 1) i.
Proof.
  intros HNx Hi. unfold x_index. set (X := Z.of_nat Nx).
  assert (HX : 0 < X) by lia.
  pose proof (Z.mod_pos_bound (i mod X + 1 * (X - 1)) X HX).
  destruct (mod_decomp X (i / X) ((i mod X + 1 * (X - 1)) mod X)) as [Hm Hd];
    [lia|lia|].
  rewrite Hm, Hd. f_equal.
  rewrite Zplus_mod_idemp_l. f_equal. lia.
Qed.

Lemma x_index_range (Nx Ny : nat) (k i : Z) :
  (1 <= Nx)%nat -> 0 <= i < Z.of_nat (Nx * Ny) ->
  0 <= x_index Nx k i < Z.of_nat (Nx * Ny).
Proof.
  intros HNx Hi. unfold x_index. set (X := Z.of_nat Nx).
  assert (HX : 0 < X) by lia.
  pose proof (Z.mod_pos_bound (i mod X + k * (X - 1)) X HX).
  pose proof (Z.mod_pos_bound i X HX).
  pose proof (Z.div_mod i X ltac:(lia)).
  assert (0 <= i / X) by (apply Z.div_pos; lia).
  assert (i / X < Z.of_nat Ny) by (apply Z.div_lt_upper_bound; lia).
  rewrite Nat2Z.inj_mul. fold X. nia.
Qed.

Lemma translate_x_range (dec : Z) (Nx Ny : nat) :
  (1 <= Nx)%nat -> 0 <= translate_x_exact dec Nx Ny < 2 ^ Z.of_nat (Nx * Ny).
Proof.
  intros HNx. unfold translate_x_exact.
  destruct (translate_x_dot_spec dec Nx Ny HNx) as [Hb _].
  rewrite Nat.mul_comm. exact Hb.
Qed.

(** [int64] wrap-around is the identity on values that fit an [int64]. *)
Lemma wrap64_small (z : Z) : - 2 ^ 63 <= z < 2 ^ 63 -> wrap64 z = z.
Proof.
  intros Hz. unfold wrap64.
  rewrite Z.mod_small; [lia|].
  change (2 ^ 64) with (2 ^ 63 * 2). lia.
Qed.

Lemma pow2_le_62 (k : nat) : (k <= 62)%nat -> 0 < 2 ^ Z.of_nat k <= 2 ^ 62.
Proof.
  intros Hk. split; [apply Z.pow_pos_nonneg; lia|].
  apply Z.pow_le_mono_r; lia.
Qed.

Lemma wrap64_pow2 (k : nat) : (k <= 62)%nat -> wrap64 (2 ^ Z.of_nat k) = 2 ^ Z.of_nat k.
Proof.
  intros Hk. pose proof (pow2_le_62 k Hk).
  apply wrap64_small. change (2 ^ 63) with (2 ^ 62 * 2). lia.
Qed.

(** A row of the [int64] computation equals the exact one as long as
    [2 ^ (n + Nx)] fits an [int64]. *)
Lemma translate_x_row64_exact (dec : Z) (Nx n : nat) :
  (1 <= Nx)%nat -> (n + Nx <= 62)%nat ->
  translate_x_row64 dec Nx n = translate_x_row dec Nx n.
Proof.
  intros HNx Hn.
  pose proof (translate_x_row_bound dec Nx n HNx) as Hrow.
  unfold translate_x_row64, translate_x_row in *.
  rewrite !wrap64_pow2 by lia.
  pose proof (pow2_le_62 (n + Nx) Hn) as Ha.
  pose proof (pow2_le_62 n ltac:(lia)) as Hb.
  pose proof (pow2_le_62 Nx ltac:(lia)) as Hc.
  pose proof (pow2_le_62 (Nx - 1) ltac:(lia)) as Hd.
  assert (H63 : 2 ^ 63 = 2 ^ 62 * 2) by reflexivity.
  set (a := 2 ^ Z.of_nat (n + Nx)) in *.
  set (b := 2 ^ Z.of_nat n) in *.
  set (c := 2 ^ Z.of_nat Nx) in *.
  set (d := 2 ^ Z.of_nat (Nx - 1)) in *.
  assert (Hab : a = b * c).
  { unfold a, b, c. rewrite Nat2Z.inj_add, Z.pow_add_r by lia. reflexivity. }
  pose proof (Z.mod_pos_bound dec a ltac:(lia)) as Hm.
  unfold np_mod, np_floordiv.
  destruct (Z.eqb_spec a 0) as [|_]; [lia|].
  destruct (Z.eqb_spec b 0) as [|_]; [lia|].
  destruct (Z.eqb_spec c 0) as [|_]; [lia|].
  destruct (Z.eqb_spec d 0) as [|_]; [lia|].
  rewrite (wrap64_small (dec mod a)) by lia.
  assert (Hs : 0 <= dec mod a / b < c).
  { split; [apply Z.div_pos; lia|]. apply Z.div_lt_upper_bound; lia. }
  rewrite (wrap64_small (dec mod a / b)) by lia.
  set (s := dec mod a / b) in *.
  rewrite (wrap64_small (s * 2)) by lia.
  pose proof (Z.mod_pos_bound (s * 2) c ltac:(lia)).
  rewrite (wrap64_small ((s * 2) mod c)) by lia.
  assert (0 <= s / d <= s) by (split; [apply Z.div_pos | apply Z.div_le_upper_bound; nia]; lia).
  rewrite (wrap64_small (s / d)) by lia.
  apply wrap64_small. lia.
Qed.

(** The [int64] dot product over the first [r] rows equals the exact one
    as long as [2 ^ (r * Nx)] fits an [int64]. *)
Lemma translate_x_dot64_exact (dec : Z) (Nx r : nat) :
  (1 <= Nx)%nat -> (r * Nx <= 62)%nat ->
  translate_x_dot64 dec Nx r = translate_x_dot dec Nx r.
Proof.
  intros HNx. induction r as [|r IH]; intros Hr; [reflexivity|].
  simpl translate_x_dot64. simpl translate_x_dot.
  assert (H63 : 2 ^ 63 = 2 ^ 62 * 2) by reflexivity.
  rewrite IH by nia.
  rewrite translate_x_row64_exact by (simpl in Hr; lia).
  rewrite wrap64_pow2 by nia.
  destruct (translate_x_dot_spec dec Nx (S r) HNx) as [HS _].
  destruct (translate_x_dot_spec dec Nx r HNx) as [Hr0 _].
  pose proof (pow2_le_62 (S r * Nx) Hr).
  simpl translate_x_dot in HS.
  pose proof (translate_x_row_bound dec Nx (r * Nx) HNx).
  assert (0 < 2 ^ Z.of_nat (r * Nx)) by (apply Z.pow_pos_nonneg; lia).
  assert (0 <= 2 ^ Z.of_nat (r * Nx) * translate_x_row dec Nx (r * Nx))
    by (apply Z.mul_nonneg_nonneg; lia).
  rewrite (wrap64_small (2 ^ Z.of_nat (r * Nx) * _)) by lia.
  apply wrap64_small. lia.
Qed.

(** [translate_x] of the source, with its [int64] arrays, equals the exact
    evaluation for every state when the lattice has at most 62 sites. *)
Lemma translate_x_int64_exact (dec : Z) (Nx Ny : nat) :
  (1 <= Nx)%nat -> (Nx * Ny <= 62)%nat ->
  translate_x dec Nx Ny = translate_x_exact dec Nx Ny.
Proof.
  intros HNx HN. unfold translate_x, translate_x_exact.
  apply translate_x_dot64_exact; lia.
Qed.


Lemma translate_x_bits (dec : Z) (Nx Ny : nat) (i : Z) :
  (1 <= Nx)%nat -> 0 <= i ->
  Z.testbit (translate_x_exact dec Nx Ny) i =
  (i <? Z.of_nat (Nx * Ny)) && Z.testbit dec (x_index Nx 1 i).
Proof.
  intros HNx Hi. unfold translate_x_exact.
  destruct (translate_x_dot_spec dec Nx Ny HNx) as [_ Ht].
  rewrite Ht by lia. rewrite Nat.mul_comm. reflexivity.
Qed.

Lemma translate_x_iter_bits (dec : Z) (Nx Ny : nat) (k : nat) (i : Z) :
  (1 <= Nx)%nat -> 0 <= dec < 2 ^ Z.of_nat (Nx * Ny) -> 0 <= i ->
  Z.testbit (Nat.iter k (fun d => translate_x_exact d Nx Ny) dec) i =
  (i <? Z.of_nat (Nx * Ny)) && Z.testbit dec (x_index Nx (Z.of_nat k) i).
Proof.
  intros HNx Hdec. revert i.
  induction k as [|k IH]; intros i Hi.
  - simpl. rewrite x_index_0 by lia.
    destruct (Z.ltb_spec i (Z.of_nat (Nx * Ny))); [reflexivity|].
    apply (testbit_small_high _ (Z.of_nat (Nx * Ny))); lia.
  - simpl Nat.iter. rewrite translate_x_bits by lia.
    destruct (Z.ltb_spec i (Z.of_nat (Nx * Ny))) as [Hlt|]; [|reflexivity].
    assert (Hr := x_index_range Nx Ny 1 i HNx ltac:(lia)).
    rewrite IH by lia.
    destruct (Z.ltb_spec (x_index Nx 1 i) (Z.of_nat (Nx * Ny))); [|lia].
    rewrite x_index_step by lia. simpl. f_equal. f_equal. lia.
Qed.

Lemma translate_y_spec (dec : Z) (Nx Ny : nat) :
  (1 <= Ny)%nat -> 0 <= dec < 2 ^ Z.of_nat (Nx * Ny) ->
  0 <= translate_y dec Nx Ny < 2 ^ Z.of_nat (Nx * Ny) /\
  forall i, 0 <= i ->
    Z.testbit (translate_y dec Nx Ny) i =
    (i <? Z.of_nat (Nx * Ny)) &&
    Z.testbit dec ((i + Z.of_nat Nx) mod Z.of_nat (Nx * Ny)).
Proof.
  intros HNy Hdec. unfold translate_y.
  set (X := Z.of_nat Nx). set (P := Z.of_nat (Nx * (Ny - 1))).
  set (N := Z.of_nat (Nx * Ny)) in *.
  assert (HN : N = P + X).
  { unfold N, P, X.
    assert (Nx * Ny = Nx * (Ny - 1) + Nx)%nat
      by (destruct Ny; [lia|simpl; rewrite Nat.sub_0_r; lia]).
    lia. }
  assert (HP : 0 <= P) by lia. assert (HX : 0 <= X) by lia.
  assert (Hpx : 0 < 2 ^ X) by (apply Z.pow_pos_nonneg; lia).
  assert (Hpp : 0 < 2 ^ P) by (apply Z.pow_pos_nonneg; lia).
  assert (Hsplit : 2 ^ N = 2 ^ X * 2 ^ P)
    by (rewrite HN, Z.pow_add_r by lia; ring).
  assert (Hq : 0 <= dec / 2 ^ X < 2 ^ P).
  { split; [apply Z.div_pos; lia|]. apply Z.div_lt_upper_bound; lia. }
  assert (Ht : 0 <= dec mod 2 ^ X < 2 ^ X) by (apply Z.mod_pos_bound; lia).
  rewrite (Z.mul_comm (dec mod 2 ^ X)).
  split; [rewrite Hsplit; nia|].
  intros i Hi. rewrite testbit_split by lia.
  destruct (Z.ltb_spec i P) as [HiP|HiP].
  - rewrite Z.div_pow2_bits by lia.
    destruct (Z.ltb_spec i N); [|lia].
    rewrite Z.mod_small by lia. reflexivity.
  - destruct (Z.ltb_spec (i - P) X) as [Hin|Hout].
    + rewrite Z.mod_pow2_bits_low by lia.
      destruct (Z.ltb_spec i N); [|lia]. simpl. f_equal.
      destruct (mod_decomp N 1 (i - P)) as [Hm _]; [lia|lia|].
      rewrite <- Hm. f_equal. lia.
    + rewrite Z.mod_pow2_bits_high by lia.
      destruct (Z.ltb_spec i N); [lia|]. reflexivity.
Qed.

Lemma translate_y_iter_bits (dec : Z) (Nx Ny : nat) (k : nat) (i : Z) :
  (1 <= Ny)%nat -> 0 <= dec < 2 ^ Z.of_nat (Nx * Ny) -> 0 <= i ->
  Z.testbit (Nat.iter k (fun d => translate_y d Nx Ny) dec) i =
  (i <? Z.of_nat (Nx * Ny)) &&
  Z.testbit dec ((i + Z.of_nat k * Z.of_nat Nx) mod Z.of_nat (Nx * Ny)).
Proof.
  intros HNy Hdec.
  set (N := Z.of_nat (Nx * Ny)) in *.
  assert (Hrange : forall k, 0 <= Nat.iter k (fun d => translate_y d Nx Ny) dec < 2 ^ N).
  { induction k0 as [|k0 IH]; [exact Hdec|].
    simpl Nat.iter. apply (translate_y_spec _ Nx Ny HNy IH). }
  revert i. induction k as [|k IH]; intros i Hi.
  - simpl. rewrite Z.add_0_r.
    destruct (Z.ltb_spec i N); [rewrite Z.mod_small by lia; reflexivity|].
    apply (testbit_small_high _ N); lia.
  - simpl Nat.iter.
    destruct (translate_y_spec _ Nx Ny HNy (Hrange k)) as [_ Hb].
    fold N in Hb. rewrite Hb by lia.
    destruct (Z.ltb_spec i N) as [Hlt|]; [|reflexivity].
    assert (HNpos : 0 < N) by lia.
    pose proof (Z.mod_pos_bound (i + Z.of_nat Nx) N HNpos).
    rewrite IH by lia.
    destruct (Z.ltb_spec ((i + Z.of_nat Nx) mod N) N); [|lia].
    rewrite Zplus_mod_idemp_l, !andb_true_l. f_equal. f_equal. rewrite Nat2Z.inj_succ. ring.
Qed.

Lemma x_index_full (Nx : nat) (i : Z) :
  (1 <= Nx)%nat -> 0 <= i -> x_index Nx (Z.of_nat Nx) i = i.
Proof.
  intros HNx Hi. unfold x_index. set (X := Z.of_nat Nx).
  rewrite (Z.mul_comm X (X - 1)), Z.mod_add by lia.
  rewrite Z.mod_mod by lia. symmetry. apply Z.div_mod. lia.
Qed.

Lemma popcount_half (z : Z) :
  0 <= z -> popcount z = ((if Z.odd z then 1 else 0) + popcount (z / 2))%nat.
Proof.
  intros Hz. rewrite <- Z.div2_div.
  destruct z as [|p|p]; [reflexivity| |lia].
  destruct p; reflexivity.
Qed.

Lemma in_zseq (N : nat) (i : Z) : In i (zseq N) <-> 0 <= i < Z.of_nat N.
Proof.
  unfold zseq. rewrite in_map_iff. split.
  - intros [n [<- Hn]]. apply in_seq in Hn. lia.
  - intros Hi. exists (Z.to_nat i). split; [lia|]. apply in_seq. lia.
Qed.

Lemma zseq_NoDup (N : nat) : NoDup (zseq N).
Proof.
  unfold zseq. apply Injective_map_NoDup; [intros a b; lia|]. apply seq_NoDup.
Qed.

Lemma zseq_snoc (k : nat) : zseq (S k) = zseq k ++ [Z.of_nat k].
Proof. unfold zseq. rewrite seq_S, map_app. reflexivity. Qed.

Lemma zseq_S (N : nat) : zseq (S N) = 0 :: map Z.succ (zseq N).
Proof.
  unfold zseq. simpl. f_equal. rewrite <- seq_shift, !map_map.
  apply map_ext. intros a. lia.
Qed.

(** The set bits of a state below [2 ^ N] are counted on positions [0 .. N - 1]. *)
Lemma popcount_bits (N : nat) (z : Z) :
  0 <= z < 2 ^ Z.of_nat N ->
  popcount z = length (filter (Z.testbit z) (zseq N)).
Proof.
  revert z. induction N as [|N IH]; intros z Hz.
  - simpl in Hz. assert (z = 0) by lia. subst. reflexivity.
  - rewrite zseq_S. cbn [filter]. rewrite Z.bit0_odd, filter_map_swap.
    rewrite (filter_ext_in _ (Z.testbit (z / 2))).
    2:{ intros a Ha. apply in_zseq in Ha. rewrite Z.div2_bits by lia. reflexivity. }
    rewrite popcount_half by lia.
    assert (Hh : 0 <= z / 2 < 2 ^ Z.of_nat N).
    { split; [apply Z.div_pos; lia|]. apply Z.div_lt_upper_bound; [lia|].
      rewrite Nat2Z.inj_succ, Z.pow_succ_r in Hz by lia. lia. }
    destruct (Z.odd z); cbn [length]; rewrite length_map, <- IH by exact Hh;
      reflexivity.
Qed.

Lemma filter_length_perm {A : Type} (g : A -> bool) (l l' : list A) :
  Permutation l l' -> length (filter g l) = length (filter g l').
Proof.
  induction 1 as [|x l l' _ IH|x y l|l l' l'' _ IH1 _ IH2]; simpl.
  - reflexivity.
  - destruct (g x); simpl; lia.
  - destruct (g x), (g y); reflexivity.
  - lia.
Qed.

(** Counting over a list is invariant under an injective self-map of it. *)
Lemma count_reindex {A : Type} (f : A -> A) (g : A -> bool) (l : list A) :
  NoDup l ->
  (forall a, In a l -> In (f a) l) ->
  (forall a b, In a l -> In b l -> f a = f b -> a = b) ->
  length (filter (fun a => g (f a)) l) = length (filter g l).
Proof.
  intros Hnd Hin Hinj.
  assert (Hp : Permutation (map f l) l).
  { apply NoDup_Permutation_bis.
    - apply Injective_map_NoDup_in; assumption.
    - rewrite length_map. lia.
    - intros b Hb. apply in_map_iff in Hb. destruct Hb as [a [<- Ha]]. auto. }
  rewrite <- (filter_length_perm g _ _ Hp).
  rewrite filter_map_swap, length_map. reflexivity.
Qed.

Lemma translate_x_popcount (dec : Z) (Nx Ny : nat) :
  (1 <= Nx)%nat -> 0 <= dec < 2 ^ Z.of_nat (Nx * Ny) ->
  popcount (translate_x_exact dec Nx Ny) = popcount dec.
Proof.
  intros HNx Hdec.
  rewrite (popcount_bits (Nx * Ny) (translate_x_exact dec Nx Ny))
    by (apply translate_x_range; exact HNx).
  rewrite (popcount_bits (Nx * Ny) dec) by exact Hdec.
  rewrite (filter_ext_in _ (fun i => Z.testbit dec (x_index Nx 1 i))).
  2:{ intros a Ha. apply in_zseq in Ha. rewrite translate_x_bits by lia.
      destruct (Z.ltb_spec a (Z.of_nat (Nx * Ny))); [reflexivity|lia]. }
  apply count_reindex.
  - apply zseq_NoDup.
  - intros a Ha. apply in_zseq in Ha. apply in_zseq.
    apply x_index_range; lia.
  - intros a b Ha Hb Hab. apply in_zseq in Ha, Hb.
    rewrite <- (x_index_full Nx a), <- (x_index_full Nx b) by lia.
    replace (Z.of_nat Nx) with ((Z.of_nat Nx - 1) + 1) by lia.
    rewrite <- !x_index_step by lia. rewrite Hab. reflexivity.
Qed.

Lemma translate_y_popcount (dec : Z) (Nx Ny : nat) :
  (1 <= Ny)%nat -> 0 <= dec < 2 ^ Z.of_nat (Nx * Ny) ->
  popcount (translate_y dec Nx Ny) = popcount dec.
Proof.
  intros HNy Hdec.
  destruct (translate_y_spec dec Nx Ny HNy Hdec) as [Hr Hbits].
  rewrite (popcount_bits (Nx * Ny) (translate_y dec Nx Ny)) by exact Hr.
  rewrite (popcount_bits (Nx * Ny) dec) by exact Hdec.
  set (N := Z.of_nat (Nx * Ny)) in *. set (X := Z.of_nat Nx) in *.
  assert (HN : N = Z.of_nat Ny * X) by (unfold N, X; lia).
  rewrite (filter_ext_in _ (fun i => Z.testbit dec ((i + X) mod N))).
  2:{ intros a Ha. apply in_zseq in Ha. rewrite Hbits by lia. fold N.
      destruct (Z.ltb_spec a N); [reflexivity|lia]. }
  apply count_reindex.
  - apply zseq_NoDup.
  - intros a Ha. apply in_zseq in Ha. apply in_zseq. fold N.
    apply Z.mod_pos_bound. lia.
  - intros a b Ha Hb Hab. apply in_zseq in Ha, Hb. fold N in Ha, Hb.
    assert (Hback : forall c, 0 <= c < N ->
              ((c + X) mod N + (Z.of_nat Ny - 1) * X) mod N = c).
    { intros c Hc. rewrite Zplus_mod_idemp_l.
      replace (c + X + (Z.of_nat Ny - 1) * X) with (c + 1 * N) by lia.
      rewrite Z.mod_add by lia. apply Z.mod_small. lia. }
    rewrite <- (Hback a), <- (Hback b) by lia. rewrite Hab. reflexivity.
Qed.

Example zms_2_2 :
  map lead (zero_momentum_states 2 2) = [0; 1; 3; 5; 6; 7; 15].
Proof. vm_compute. reflexivity. Qed.

Example zms_2_2_decs :
  map (fun bf => dict_keys (decs bf)) (zero_momentum_states 2 2) =
  [[0]; [1; 2; 4; 8]; [3; 12]; [5; 10]; [6; 9]; [7; 11; 13; 14]; [15]].
Proof. vm_compute. reflexivity. Qed.

Lemma translate_x_period (dec : Z) (Nx Ny : nat) :
  0 <= dec < 2 ^ Z.of_nat (Nx * Ny) ->
  Nat.iter Nx (fun d => translate_x_exact d Nx Ny) dec = dec.
Proof.
  intros Hdec. destruct Nx as [|Nx']; [reflexivity|].
  apply Z.bits_inj'. intros i Hi.
  rewrite translate_x_iter_bits by lia. rewrite x_index_full by lia.
  destruct (Z.ltb_spec i (Z.of_nat (S Nx' * Ny))); [reflexivity|].
  symmetry. apply (testbit_small_high _ (Z.of_nat (S Nx' * Ny))); lia.
Qed.

Lemma translate_y_period (dec : Z) (Nx Ny : nat) :
  0 <= dec < 2 ^ Z.of_nat (Nx * Ny) ->
  Nat.iter Ny (fun d => translate_y d Nx Ny) dec = dec.
Proof.
  intros Hdec. destruct Ny as [|Ny']; [reflexivity|].
  apply Z.bits_inj'. intros i Hi.
  rewrite translate_y_iter_bits by lia.
  set (N := Z.of_nat (Nx * S Ny')) in *.
  destruct (Z.ltb_spec i N); [|symmetry; apply (testbit_small_high _ N); lia].
  replace (i + Z.of_nat (S Ny') * Z.of_nat Nx) with (i + 1 * N) by (unfold N; lia).
  rewrite Z.mod_add, Z.mod_small by lia. reflexivity.
Qed.

Lemma translate_y_range (dec : Z) (Nx Ny : nat) :
  (1 <= Ny)%nat -> 0 <= dec < 2 ^ Z.of_nat (Nx * Ny) ->
  0 <= translate_y dec Nx Ny < 2 ^ Z.of_nat (Nx * Ny).
Proof. intros HNy Hdec. apply (translate_y_spec dec Nx Ny HNy Hdec). Qed.

Lemma x_index_y_shift (Nx Ny : nat) (i : Z) :
  (1 <= Nx)%nat -> 0 <= i < Z.of_nat (Nx * Ny) ->
  (x_index Nx 1 i + Z.of_nat Nx) mod Z.of_nat (Nx * Ny) =
  x_index Nx 1 ((i + Z.of_nat Nx) mod Z.of_nat (Nx * Ny)).
Proof.
  intros HNx Hi. unfold x_index. set (X := Z.of_nat Nx).
  set (N := Z.of_nat (Nx * Ny)) in *.
  assert (HN : N = X * Z.of_nat Ny) by (unfold N, X; lia).
  assert (HX : 0 < X) by lia.
  set (q := i / X). set (r := i mod X).
  assert (Hi' : i = X * q + r) by (apply Z.div_mod; lia).
  assert (Hr : 0 <= r < X) by (apply Z.mod_pos_bound; lia).
  assert (Hq : 0 <= q < Z.of_nat Ny) by (split; [apply Z.div_pos|apply Z.div_lt_upper_bound]; lia).
  set (r' := (r + 1 * (X - 1)) mod X).
  assert (Hr' : 0 <= r' < X) by (apply Z.mod_pos_bound; lia).
  destruct (Z.ltb_spec (q + 1) (Z.of_nat Ny)) as [Hin|Hwrap].
  - rewrite (Z.mod_small (X * q + r' + X)) by nia.
    rewrite (Z.mod_small (i + X)) by nia.
    replace (i + X) with (X * (q + 1) + r) by lia.
    destruct (mod_decomp X (q + 1) r) as [Hm Hd]; [lia|lia|].
    rewrite Hm, Hd. fold r'. ring.
  - assert (q = Z.of_nat Ny - 1) by lia.
    replace (X * q + r' + X) with (r' + 1 * N) by nia.
    replace (i + X) with (r + 1 * N) by nia.
    rewrite !Z.mod_add by lia.
    rewrite (Z.mod_small r') by nia. rewrite (Z.mod_small r) by nia.
    rewrite (Z.div_small r X), (Z.mod_small r X) by lia. fold r'. ring.
Qed.

Lemma translate_xy_comm (dec : Z) (Nx Ny : nat) :
  (1 <= Nx)%nat -> (1 <= Ny)%nat -> 0 <= dec < 2 ^ Z.of_nat (Nx * Ny) ->
  translate_x_exact (translate_y dec Nx Ny) Nx Ny = translate_y (translate_x_exact dec Nx Ny) Nx Ny.
Proof.
  intros HNx HNy Hdec.
  destruct (translate_y_spec dec Nx Ny HNy Hdec) as [Hyr Hyb].
  pose proof (translate_x_range dec Nx Ny HNx) as Hxr.
  destruct (translate_y_spec _ Nx Ny HNy Hxr) as [_ Hxyb].
  apply Z.bits_inj'. intros i Hi.
  rewrite translate_x_bits, Hxyb by lia.
  set (N := Z.of_nat (Nx * Ny)) in *.
  destruct (Z.ltb_spec i N) as [Hlt|]; [|reflexivity].
  assert (HNpos : 0 < N) by lia.
  pose proof (x_index_range Nx Ny 1 i HNx ltac:(lia)) as Hxi. fold N in Hxi.
  pose proof (Z.mod_pos_bound (i + Z.of_nat Nx) N HNpos).
  rewrite Hyb, translate_x_bits by lia. fold N.
  destruct (Z.ltb_spec (x_index Nx 1 i) N); [|lia].
  destruct (Z.ltb_spec ((i + Z.of_nat Nx) mod N) N); [|lia].
  unfold N. rewrite x_index_y_shift by lia. reflexivity.
Qed.

(** ** The sweep of [find_T_invariant_set] *)

Lemma has_key_append (k k' : Z) (v : nat * nat) (d : posdict) :
  has_key k (dict_append k' v d) = Z.eqb k k' || has_key k d.
Proof.
  unfold has_key, dict_keys. induction d as [|[k0 vs] d IH]; simpl.
  - rewrite orb_false_r. reflexivity.
  - destruct (Z.eqb_spec k' k0) as [->|Hne]; simpl.
    + destruct (Z.eqb k k0); reflexivity.
    + rewrite IH. destruct (Z.eqb k k0), (Z.eqb k k'); reflexivity.
Qed.

Lemma has_key_dict_of (k : Z) (entries : list (Z * (nat * nat))) (d : posdict) :
  has_key k (dict_of entries d) = has_key k d || existsb (Z.eqb k) (map fst entries).
Proof.
  unfold dict_of. revert d. induction entries as [|[k' v] e IH]; intros d; simpl.
  - rewrite orb_false_r. reflexivity.
  - rewrite IH, has_key_append.
    destruct (Z.eqb k k'), (has_key k d); reflexivity.
Qed.

Lemma sieve_clear_all_spec (sieve : sieve_t) (xs : list Z) (y : Z) :
  sieve_clear_all sieve xs y = sieve y && negb (existsb (Z.eqb y) xs).
Proof.
  unfold sieve_clear_all. revert sieve. induction xs as [|x xs IH]; intros sieve; simpl.
  - rewrite andb_true_r. reflexivity.
  - rewrite IH. unfold sieve_clear.
    destruct (Z.eqb y x), (sieve y); reflexivity.
Qed.

Lemma fold_left_flat_map {A B C : Type} (f : A -> B -> A) (g : C -> list B)
  (l : list C) (a : A) :
  fold_left f (flat_map g l) a = fold_left (fun acc c => fold_left f (g c) acc) l a.
Proof.
  revert a. induction l as [|c l IH]; intros a; simpl; [reflexivity|].
  rewrite fold_left_app. apply IH.
Qed.

Lemma fold_left_map' {A B C : Type} (f : A -> B -> A) (g : C -> B) (l : list C) (a : A) :
  fold_left f (map g l) a = fold_left (fun acc c => f acc (g c)) l a.
Proof.
  revert a. induction l as [|c l IH]; intros a; simpl; [reflexivity|]. apply IH.
Qed.

Lemma insert_by_lead_perm (b : BlochFunc) (l : list BlochFunc) :
  Permutation (insert_by_lead b l) (b :: l).
Proof.
  induction l as [|b' l IH]; simpl; [reflexivity|].
  destruct (lead b <? lead b'); [reflexivity|].
  rewrite IH. apply perm_swap.
Qed.

Lemma sort_by_lead_perm (l : list BlochFunc) : Permutation (sort_by_lead l) l.
Proof.
  unfold sort_by_lead.
  assert (H : forall acc, Permutation (fold_left (fun acc b => insert_by_lead b acc) l acc) (l ++ acc)).
  { induction l as [|b l IH]; intros acc; simpl; [reflexivity|].
    rewrite IH, insert_by_lead_perm. symmetry. apply Permutation_middle. }
  rewrite H, app_nil_r. reflexivity.
Qed.

Lemma owners_perm (y : Z) (l l' : list BlochFunc) :
  Permutation l l' -> owners y l = owners y l'.
Proof. intros HP. unfold owners. apply filter_length_perm, HP. Qed.

Lemma insert_by_lead_sorted (b : BlochFunc) (l : list BlochFunc) :
  StronglySorted (fun x y => lead x <= lead y) l ->
  StronglySorted (fun x y => lead x <= lead y) (insert_by_lead b l).
Proof.
  induction l as [|b' l IH]; intros Hs; simpl.
  - repeat constructor.
  - apply StronglySorted_inv in Hs. destruct Hs as [Hs Hf].
    destruct (Z.ltb_spec (lead b) (lead b')) as [Hlt|Hge].
    + constructor; [constructor; assumption|].
      constructor; [lia|]. rewrite Forall_forall in *. intros x Hx. specialize (Hf x Hx). lia.
    + constructor; [apply IH, Hs|].
      rewrite Forall_forall in *. intros x Hx.
      apply (Permutation_in _ (insert_by_lead_perm b l)) in Hx.
      destruct Hx as [<-|Hx]; [lia|apply Hf, Hx].
Qed.

Lemma sort_by_lead_sorted (l : list BlochFunc) :
  StronglySorted (fun x y => lead x <= lead y) (sort_by_lead l).
Proof.
  unfold sort_by_lead.
  assert (H : forall acc, StronglySorted (fun x y => lead x <= lead y) acc ->
    StronglySorted (fun x y => lead x <= lead y)
      (fold_left (fun acc b => insert_by_lead b acc) l acc)).
  { induction l as [|b l IH]; intros acc Hacc; simpl; [exact Hacc|].
    apply IH, insert_by_lead_sorted, Hacc. }
  apply H. constructor.
Qed.

Lemma owners_cons (y : Z) (b : BlochFunc) (l : list BlochFunc) :
  owners y (b :: l) = ((if has_key y (decs b) then 1 else 0) + owners y l)%nat.
Proof. unfold owners. simpl. destruct (has_key y (decs b)); reflexivity. Qed.

Lemma owners_pos (y : Z) (b : BlochFunc) (l : list BlochFunc) :
  In b l -> has_key y (decs b) = true -> (1 <= owners y l)%nat.
Proof.
  induction l as [|b' l IH]; intros Hin Hk; [destruct Hin|].
  rewrite owners_cons. destruct Hin as [->|Hin].
  - rewrite Hk. lia.
  - specialize (IH Hin Hk). lia.
Qed.

Lemma sorted_strict (l : list BlochFunc) :
  StronglySorted (fun x y => lead x <= lead y) l ->
  Forall lead_is_min_key l -> (forall y, (owners y l <= 1)%nat) ->
  StronglySorted (fun x y => lead x < lead y) l.
Proof.
  induction l as [|b l IH]; intros Hs Hl Ho; [constructor|].
  apply StronglySorted_inv in Hs. destruct Hs as [Hs Hf].
  inversion Hl as [|? ? Hb Hl']; subst.
  constructor.
  - apply IH; [exact Hs|exact Hl'|]. intros y. specialize (Ho y). rewrite owners_cons in Ho. lia.
  - rewrite Forall_forall in *. intros x Hx. specialize (Hf x Hx).
    destruct (Z.eq_dec (lead b) (lead x)) as [Heq|]; [exfalso|lia].
    specialize (Ho (lead b)). rewrite owners_cons, (proj1 Hb) in Ho.
    assert (Hk : has_key (lead b) (decs x) = true) by (rewrite Heq; apply (Hl' x Hx)).
    pose proof (owners_pos _ x l Hx Hk). lia.
Qed.

Lemma filter_strongly_sorted {A : Type} (R : A -> A -> Prop) (g : A -> bool) (l : list A) :
  StronglySorted R l -> StronglySorted R (filter g l).
Proof.
  induction l as [|a l IH]; intros Hs; simpl; [constructor|].
  apply StronglySorted_inv in Hs. destruct Hs as [Hs Hf].
  destruct (g a); [|apply IH, Hs].
  constructor; [apply IH, Hs|]. rewrite Forall_forall in *.
  intros x Hx. apply filter_In in Hx. apply Hf, Hx.
Qed.

Lemma strongly_sorted_nth_error {A : Type} (R : A -> A -> Prop) (l : list A) (i j : nat) (a b : A) :
  StronglySorted R l -> (i < j)%nat -> nth_error l i = Some a -> nth_error l j = Some b -> R a b.
Proof.
  revert i j. induction l as [|c l IH]; intros i j Hs Hij Hi Hj; [destruct i; discriminate|].
  apply StronglySorted_inv in Hs. destruct Hs as [Hs Hf].
  destruct j as [|j]; [lia|]. destruct i as [|i].
  - simpl in Hi, Hj. injection Hi as <-. rewrite Forall_forall in Hf.
    apply Hf. apply nth_error_In in Hj. exact Hj.
  - simpl in Hi, Hj. apply (IH i j); auto. lia.
Qed.

Section Orbits.

Variables Nx Ny : nat.
Hypothesis HNx : (1 <= Nx)%nat.
Hypothesis HNy : (1 <= Ny)%nat.

Let tx := fun d => translate_x_exact d Nx Ny.
Let ty := fun d => translate_y d Nx Ny.
Let N := Z.of_nat (Nx * Ny).


Lemma iter_ty_range (d : Z) (b : nat) : in_range Nx Ny d -> in_range Nx Ny (Nat.iter b ty d).
Proof.
  intros Hd. induction b as [|b IH]; [exact Hd|].
  simpl. apply translate_y_range; assumption.
Qed.

Lemma iter_tx_range (d : Z) (b : nat) : in_range Nx Ny d -> in_range Nx Ny (Nat.iter b tx d).
Proof.
  intros Hd. induction b as [|b IH]; [exact Hd|].
  simpl. apply translate_x_range; assumption.
Qed.

Lemma orbit_elem_range (d : Z) (n m : nat) : in_range Nx Ny d -> in_range Nx Ny (orbit_elem Nx Ny d n m).
Proof. intros Hd. apply iter_tx_range, iter_ty_range, Hd. Qed.

Lemma sweep_cols (d : Z) (n : nat) (k a : nat) (st : sweep) :
  sw_new st = orbit_elem Nx Ny d n a ->
  fold_left (sweep_col Nx Ny n) (seq a k) st =
  mkSweep (dict_of (map (fun m => (orbit_elem Nx Ny d n m, (n, m))) (seq a k)) (sw_decs st))
          (orbit_elem Nx Ny d n (a + k))
          (sieve_clear_all (sw_sieve st) (map (fun m => orbit_elem Nx Ny d n m) (seq a k))).
Proof.
  revert a st. induction k as [|k IH]; intros a st Hst.
  - destruct st as [dc nw sv]. simpl in *. rewrite Nat.add_0_r, Hst. reflexivity.
  - simpl. rewrite IH by (simpl; rewrite Hst; reflexivity).
    rewrite Nat.add_succ_r. simpl. rewrite Hst. reflexivity.
Qed.

Lemma sweep_rows (d : Z) (k b : nat) (st : sweep) :
  in_range Nx Ny d -> sw_new st = Nat.iter b ty d ->
  fold_left (sweep_row Nx Ny) (seq b k) st =
  mkSweep (dict_of (map (fun p => (orbit_elem Nx Ny d (fst p) (snd p), p))
                       (flat_map (fun n => map (fun m => (n, m)) (seq 0 Nx)) (seq b k)))
                   (sw_decs st))
          (Nat.iter (b + k) ty d)
          (sieve_clear_all (sw_sieve st)
             (map (fun p => orbit_elem Nx Ny d (fst p) (snd p))
                (flat_map (fun n => map (fun m => (n, m)) (seq 0 Nx)) (seq b k)))).
Proof.
  intros Hd. revert b st. induction k as [|k IH]; intros b st Hst.
  - destruct st as [dc nw sv]. simpl in *. rewrite Nat.add_0_r, Hst. reflexivity.
  - simpl seq. simpl fold_left. unfold sweep_row at 2.
    rewrite (sweep_cols d b Nx 0 st) by exact Hst.
    rewrite IH.
    2:{ simpl. unfold orbit_elem. rewrite translate_x_period.
        - reflexivity.
        - apply iter_ty_range, Hd. }
    simpl flat_map. rewrite !map_app, !map_map. simpl.
    unfold dict_of, sieve_clear_all. rewrite !fold_left_app.
    rewrite Nat.add_succ_r. reflexivity.
Qed.

Lemma find_T_invariant_set_spec (d : Z) (sieve : sieve_t) :
  in_range Nx Ny d ->
  find_T_invariant_set Nx Ny d sieve =
  (mkBlochFunc d (dict_of (map (fun p => (orbit_elem Nx Ny d (fst p) (snd p), p))
                                (visited Nx Ny)) []),
   sieve_clear_all sieve (orbit_members Nx Ny d)).
Proof.
  intros Hd. unfold find_T_invariant_set.
  rewrite (sweep_rows d Ny 0) by (auto; reflexivity). reflexivity.
Qed.


Lemma iter_tx_ty_comm (d : Z) (m : nat) :
  in_range Nx Ny d -> Nat.iter m tx (ty d) = ty (Nat.iter m tx d).
Proof.
  intros Hd. induction m as [|m IH]; [reflexivity|].
  simpl. rewrite IH. unfold tx, ty.
  apply translate_xy_comm; auto. apply iter_tx_range, Hd.
Qed.

Lemma ty_orbit_elem (d : Z) (n m : nat) :
  in_range Nx Ny d -> ty (orbit_elem Nx Ny d n m) = orbit_elem Nx Ny d (S n) m.
Proof.
  intros Hd. unfold orbit_elem. fold tx ty. simpl.
  symmetry. apply iter_tx_ty_comm, iter_ty_range, Hd.
Qed.

Lemma in_visited (n m : nat) : In (n, m) (visited Nx Ny) <-> (n < Ny /\ m < Nx)%nat.
Proof.
  unfold visited. rewrite in_flat_map. split.
  - intros [n' [Hn' Hin]]. apply in_map_iff in Hin. destruct Hin as [m' [Heq Hm']].
    inversion Heq; subst. apply in_seq in Hn', Hm'. lia.
  - intros [Hn Hm]. exists n. split; [apply in_seq; lia|].
    apply in_map_iff. exists m. split; [reflexivity|apply in_seq; lia].
Qed.

Lemma in_orbit_members (d x : Z) :
  In x (orbit_members Nx Ny d) <->
  exists n m, (n < Ny)%nat /\ (m < Nx)%nat /\ x = orbit_elem Nx Ny d n m.
Proof.
  unfold orbit_members. rewrite in_map_iff. split.
  - intros [[n m] [<- Hp]]. apply in_visited in Hp. exists n, m. simpl. tauto.
  - intros [n [m [Hn [Hm ->]]]]. exists (n, m). split; [reflexivity|].
    apply in_visited. tauto.
Qed.

Lemma orbit_lead_member (d : Z) : In d (orbit_members Nx Ny d).
Proof. apply in_orbit_members. exists 0%nat, 0%nat. repeat split; lia. Qed.

Lemma orbit_members_range (d x : Z) :
  in_range Nx Ny d -> In x (orbit_members Nx Ny d) -> in_range Nx Ny x.
Proof.
  intros Hd Hx. apply in_orbit_members in Hx. destruct Hx as [n [m [_ [_ ->]]]].
  apply orbit_elem_range, Hd.
Qed.

Lemma orbit_closed_tx (d x : Z) :
  in_range Nx Ny d -> In x (orbit_members Nx Ny d) -> In (tx x) (orbit_members Nx Ny d).
Proof.
  intros Hd Hx. apply in_orbit_members in Hx. destruct Hx as [n [m [Hn [Hm ->]]]].
  apply in_orbit_members.
  destruct (Nat.eq_dec (S m) Nx) as [Heq|Hne].
  - exists n, 0%nat. repeat split; try lia.
    change (tx (orbit_elem Nx Ny d n m)) with (orbit_elem Nx Ny d n (S m)).
    rewrite Heq. unfold orbit_elem. simpl.
    apply translate_x_period, iter_ty_range, Hd.
  - exists n, (S m). repeat split; lia.
Qed.

Lemma orbit_closed_ty (d x : Z) :
  in_range Nx Ny d -> In x (orbit_members Nx Ny d) -> In (ty x) (orbit_members Nx Ny d).
Proof.
  intros Hd Hx. apply in_orbit_members in Hx. destruct Hx as [n [m [Hn [Hm ->]]]].
  apply in_orbit_members. rewrite ty_orbit_elem by exact Hd.
  destruct (Nat.eq_dec (S n) Ny) as [Heq|Hne].
  - exists 0%nat, m. repeat split; try lia.
    rewrite Heq. unfold orbit_elem. simpl. f_equal.
    apply translate_y_period, Hd.
  - exists (S n), m. repeat split; lia.
Qed.

(** Every member leads back to the leading state. *)
Lemma orbit_back (d x : Z) :
  in_range Nx Ny d -> In x (orbit_members Nx Ny d) ->
  exists a b, d = Nat.iter b ty (Nat.iter a tx x).
Proof.
  intros Hd Hx. apply in_orbit_members in Hx. destruct Hx as [n [m [Hn [Hm ->]]]].
  exists (Nx - m)%nat, (Ny - n)%nat. unfold orbit_elem, tx, ty.
  rewrite <- Nat.iter_add. replace (Nx - m + m)%nat with Nx by lia.
  rewrite translate_x_period by (apply iter_ty_range, Hd).
  rewrite <- Nat.iter_add. replace (Ny - n + n)%nat with Ny by lia.
  symmetry. apply translate_y_period, Hd.
Qed.

Lemma closed_iter (P : Z -> Prop) (f : Z -> Z) (x : Z) (a : nat) :
  (forall y, P y -> P (f y)) -> P x -> P (Nat.iter a f x).
Proof. intros Hf Hx. induction a as [|a IH]; [exact Hx|]. simpl. auto. Qed.


Lemma owners_snoc (y : Z) (l : list BlochFunc) (bf : BlochFunc) :
  owners y (l ++ [bf]) = (owners y l + if has_key y (decs bf) then 1 else 0)%nat.
Proof.
  unfold owners. rewrite filter_app, length_app. simpl.
  destruct (has_key y (decs bf)); reflexivity.
Qed.

Lemma existsb_eqb_in (y : Z) (l : list Z) : existsb (Z.eqb y) l = true <-> In y l.
Proof.
  rewrite existsb_exists. split.
  - intros [x [Hx Heq]]. apply Z.eqb_eq in Heq. subst. exact Hx.
  - intros Hy. exists y. split; [exact Hy|]. apply Z.eqb_refl.
Qed.

Lemma orbit_has_key (d y : Z) :
  has_key y (dict_of (map (fun p => (orbit_elem Nx Ny d (fst p) (snd p), p)) (visited Nx Ny)) [])
  = existsb (Z.eqb y) (orbit_members Nx Ny d).
Proof.
  rewrite has_key_dict_of, map_map. reflexivity.
Qed.

Lemma zms_step_inv (D : Z) (acc : list BlochFunc * sieve_t) :
  in_range Nx Ny D -> zms_inv Nx Ny D acc -> zms_inv Nx Ny (D + 1) (zms_step Nx Ny acc D).
Proof.
  destruct acc as [bfuncs sieve]. intros HD [J1 [J2 [J3 [J4 J5]]]].
  unfold zms_step. destruct (sieve D) eqn:HsD.
  2:{ split; [exact J1|]. split; [exact J2|]. split; [exact J3|].
      split; [|exact J5].
      intros y Hy. destruct (Z.eq_dec y D) as [->|]; [exact HsD|apply J4; lia]. }
  rewrite find_T_invariant_set_spec by exact HD.
  (* the new orbit only contains unclaimed states *)
  assert (Hfresh : forall y, In y (orbit_members Nx Ny D) -> sieve y = true).
  { clear J1 J2 J4 J5. intros y Hy. destruct (sieve y) eqn:Hsy; [reflexivity|exfalso].
    destruct (orbit_back D y HD Hy) as [a [b Hback]].
    assert (Hc : sieve (Nat.iter b ty (Nat.iter a tx y)) = false).
    { apply (closed_iter (fun z => sieve z = false)); [intros z Hz; apply (J3 z Hz)|].
      apply (closed_iter (fun z => sieve z = false)); [intros z Hz; apply (J3 z Hz)|].
      exact Hsy. }
    rewrite <- Hback in Hc. congruence. }
  simpl. split; [|split; [|split; [|split]]].
  - intros y. rewrite sieve_clear_all_spec, owners_snoc; cbn [decs]; rewrite orbit_has_key, J1.
    destruct (existsb (Z.eqb y) (orbit_members Nx Ny D)) eqn:Hin; simpl.
    + apply existsb_eqb_in, Hfresh in Hin. rewrite J1 in Hin.
      destruct (Nat.ltb_spec 0 (owners y bfuncs)); simpl in *; [discriminate|].
      rewrite Nat.add_1_r. reflexivity.
    + rewrite Nat.add_0_r, andb_true_r. reflexivity.
  - intros y. rewrite owners_snoc; cbn [decs]; rewrite orbit_has_key.
    destruct (existsb (Z.eqb y) (orbit_members Nx Ny D)) eqn:Hin.
    + apply existsb_eqb_in, Hfresh in Hin. rewrite J1 in Hin.
      destruct (Nat.ltb_spec 0 (owners y bfuncs)); simpl in *; [discriminate|lia].
    + specialize (J2 y). lia.
  - intros y Hy. split; rewrite sieve_clear_all_spec in *;
    apply andb_false_iff in Hy; destruct Hy as [Hy|Hy].
    + rewrite (proj1 (J3 y Hy)). reflexivity.
    + apply negb_false_iff, existsb_eqb_in in Hy.
      pose proof (orbit_closed_tx D y HD Hy) as Hc. unfold tx in Hc.
      apply existsb_eqb_in in Hc. rewrite Hc. apply andb_false_r.
    + rewrite (proj2 (J3 y Hy)). reflexivity.
    + apply negb_false_iff, existsb_eqb_in in Hy.
      pose proof (orbit_closed_ty D y HD Hy) as Hc. unfold ty in Hc.
      apply existsb_eqb_in in Hc. rewrite Hc. apply andb_false_r.
  - intros y Hy. rewrite sieve_clear_all_spec.
    destruct (Z.eq_dec y D) as [->|Hne].
    + rewrite (proj2 (existsb_eqb_in _ _) (orbit_lead_member D)). apply andb_false_r.
    + rewrite J4 by lia. reflexivity.
  - intros y Hy. rewrite sieve_clear_all_spec in Hy.
    apply andb_false_iff in Hy. destruct Hy as [Hy|Hy]; [apply J5, Hy|].
    apply negb_false_iff, existsb_eqb_in in Hy. apply (orbit_members_range D); assumption.
Qed.

Lemma zms_fold_inv (k : nat) :
  (Z.of_nat k <= 2 ^ N) ->
  zms_inv Nx Ny (Z.of_nat k) (fold_left (zms_step Nx Ny) (zseq k) ([], fun _ => true)).
Proof.
  induction k as [|k IH]; intros Hk.
  - simpl. split; [|split; [|split; [|split]]].
    + intros y. reflexivity.
    + intros y. unfold owners. simpl. lia.
    + intros y Hy. discriminate.
    + intros y Hy. lia.
    + intros y Hy. discriminate.
  - rewrite zseq_snoc, fold_left_app. cbn [fold_left].
    replace (Z.of_nat (S k)) with (Z.of_nat k + 1) by lia.
    apply zms_step_inv; [|apply IH; lia].
    unfold in_range. fold N. lia.
Qed.

Lemma zms_loop_owners (y : Z) :
  in_range Nx Ny y ->
  owners y (fst (fold_left (zms_step Nx Ny) (zseq (2 ^ (Nx * Ny))) ([], fun _ => true))) = 1%nat.
Proof.
  intros Hy.
  assert (HP : (Z.of_nat (2 ^ (Nx * Ny)) = 2 ^ N)).
  { unfold N. rewrite Nat2Z.inj_pow. reflexivity. }
  pose proof (zms_fold_inv (2 ^ (Nx * Ny))) as Hinv. rewrite HP in Hinv.
  specialize (Hinv (Z.le_refl _)).
  destruct (fold_left _ _ _) as [bfuncs sieve]. destruct Hinv as [J1 [J2 [_ [J4 _]]]].
  simpl. specialize (J1 y). rewrite J4 in J1 by (unfold in_range in Hy; fold N in Hy; lia).
  specialize (J2 y). destruct (Nat.ltb_spec 0 (owners y bfuncs)); simpl in J1; [lia|discriminate].
Qed.

Lemma orbit_elem_popcount (d : Z) (n m : nat) :
  in_range Nx Ny d -> popcount (orbit_elem Nx Ny d n m) = popcount d.
Proof.
  intros Hd. unfold orbit_elem.
  transitivity (popcount (Nat.iter n ty d)).
  - assert (Hr := iter_ty_range d n Hd). fold ty.
    induction m as [|m IH]; [reflexivity|].
    rewrite Nat.iter_succ. rewrite translate_x_popcount; [exact IH|exact HNx|].
    apply (iter_tx_range _ m Hr).
  - induction n as [|n IH]; [reflexivity|].
    rewrite Nat.iter_succ. unfold ty at 1. rewrite translate_y_popcount; [exact IH|exact HNy|].
    apply (iter_ty_range _ n Hd).
Qed.

Lemma find_T_invariant_set_keys (d x : Z) (sieve : sieve_t) :
  in_range Nx Ny d ->
  has_key x (decs (fst (find_T_invariant_set Nx Ny d sieve))) = true <->
  In x (orbit_members Nx Ny d).
Proof.
  intros Hd. rewrite find_T_invariant_set_spec by exact Hd. cbn [fst decs].
  rewrite orbit_has_key. apply existsb_eqb_in.
Qed.

Lemma zms_fresh (D : Z) (bfuncs : list BlochFunc) (sieve : sieve_t) (y : Z) :
  in_range Nx Ny D -> zms_inv Nx Ny D (bfuncs, sieve) -> sieve D = true ->
  In y (orbit_members Nx Ny D) -> sieve y = true.
Proof.
  intros HD [_ [_ [J3 _]]] HsD Hy.
  destruct (sieve y) eqn:Hsy; [reflexivity|exfalso].
  destruct (orbit_back D y HD Hy) as [a [b Hback]].
  assert (Hc : sieve (Nat.iter b ty (Nat.iter a tx y)) = false).
  { apply (closed_iter (fun z => sieve z = false)); [intros z Hz; apply (J3 z Hz)|].
    apply (closed_iter (fun z => sieve z = false)); [intros z Hz; apply (J3 z Hz)|].
    exact Hsy. }
  rewrite <- Hback in Hc. congruence.
Qed.

Lemma zms_step_leads (D : Z) (acc : list BlochFunc * sieve_t) :
  in_range Nx Ny D -> zms_inv Nx Ny D acc -> Forall lead_is_min_key (fst acc) ->
  Forall lead_is_min_key (fst (zms_step Nx Ny acc D)).
Proof.
  destruct acc as [bfuncs sieve]. intros HD Hinv Hl.
  unfold zms_step. destruct (sieve D) eqn:HsD; [|exact Hl].
  rewrite find_T_invariant_set_spec by exact HD. cbn [fst].
  apply Forall_app. split; [exact Hl|]. constructor; [|constructor].
  unfold lead_is_min_key. cbn [lead decs]. split.
  - rewrite orbit_has_key. apply existsb_eqb_in, orbit_lead_member.
  - intros x Hx. rewrite orbit_has_key in Hx. apply existsb_eqb_in in Hx.
    pose proof (zms_fresh D bfuncs sieve x HD Hinv HsD Hx) as Hsx.
    pose proof (orbit_members_range D x HD Hx) as Hr.
    destruct Hinv as [_ [_ [_ [J4 _]]]].
    destruct (Z_lt_le_dec x D) as [Hlt|]; [|assumption].
    unfold in_range in Hr. rewrite J4 in Hsx by lia. discriminate.
Qed.

Lemma zms_fold_leads (k : nat) :
  (Z.of_nat k <= 2 ^ N) ->
  Forall lead_is_min_key (fst (fold_left (zms_step Nx Ny) (zseq k) ([], fun _ => true))).
Proof.
  induction k as [|k IH]; intros Hk; [constructor|].
  rewrite zseq_snoc, fold_left_app. cbn [fold_left].
  apply zms_step_leads; [| apply zms_fold_inv; lia | apply IH; lia].
  unfold in_range. fold N. lia.
Qed.

Lemma zms_final_inv :
  zms_inv Nx Ny (2 ^ N) (fold_left (zms_step Nx Ny) (zseq (2 ^ (Nx * Ny))) ([], fun _ => true)).
Proof.
  assert (HP : (Z.of_nat (2 ^ (Nx * Ny)) = 2 ^ N)).
  { unfold N. rewrite Nat2Z.inj_pow. reflexivity. }
  rewrite <- HP at 1. apply zms_fold_inv. lia.
Qed.

Lemma zms_owners_le1 (y : Z) : (owners y (zero_momentum_states Nx Ny) <= 1)%nat.
Proof.
  pose proof zms_final_inv as Hinv. unfold zero_momentum_states.
  destruct (fold_left _ _ _) as [bfuncs sieve]. destruct Hinv as [_ [J2 _]].
  rewrite (owners_perm _ _ _ (sort_by_lead_perm bfuncs)). apply J2.
Qed.

Lemma zms_leads : Forall lead_is_min_key (zero_momentum_states Nx Ny).
Proof.
  assert (HP : (Z.of_nat (2 ^ (Nx * Ny)) = 2 ^ N)).
  { unfold N. rewrite Nat2Z.inj_pow. reflexivity. }
  pose proof (zms_fold_leads (2 ^ (Nx * Ny))) as H. rewrite HP in H.
  specialize (H (Z.le_refl _)). unfold zero_momentum_states.
  destruct (fold_left _ _ _) as [bfuncs sieve]. cbn [fst] in H.
  rewrite Forall_forall in *. intros bf Hbf. apply H.
  apply (Permutation_in _ (sort_by_lead_perm bfuncs) Hbf).
Qed.
End Orbits.

(** C2: for positive lattice dimensions, every product state [dec] with
    [0 <= dec < 2^(Nx*Ny)] is a key of the [decs] mapping of exactly one of
    the orbits returned by [zero_momentum_states]. *)
Theorem zero_momentum_states_partition (Nx Ny : nat) (dec : Z) :
  (1 <= Nx)%nat -> (1 <= Ny)%nat -> in_range Nx Ny dec ->
  owners dec (zero_momentum_states Nx Ny) = 1%nat.
Proof.
  intros HNx HNy Hdec. unfold zero_momentum_states.
  pose proof (zms_loop_owners Nx Ny HNx HNy dec Hdec) as H.
  destruct (fold_left _ _ _) as [bfuncs sieve].
  rewrite (owners_perm _ _ _ (sort_by_lead_perm bfuncs)). exact H.
Qed.

Lemma zero_momentum_states_partition_witness :
  owners 13 (zero_momentum_states 2 2) = 1%nat.
Proof.
  apply zero_momentum_states_partition; [lia|lia|].
  unfold in_range. simpl. lia.
Defined.







(** C4: for positive lattice dimensions, the [lead] of every orbit returned
    by [zero_momentum_states] is a key of its [decs] mapping and the smallest
    one; and for any retention test of the orbits (the norm test of a
    momentum sector), the index assignment [ind_to_dec] of
    [_gen_ind_dec_conv_dicts] lists the kept orbits in strictly ascending
    lead order, so index 0 carries the smallest kept lead. *)
Theorem lead_order (Nx Ny : nat) (keep : BlochFunc -> bool) :
  (1 <= Nx)%nat -> (1 <= Ny)%nat ->
  (forall bf, In bf (zero_momentum_states Nx Ny) ->
     has_key (lead bf) (decs bf) = true /\
     (forall x, has_key x (decs bf) = true -> lead bf <= x)) /\
  (forall i j bi bj, (i < j)%nat ->
     ind_to_dec keep Nx Ny i = Some bi -> ind_to_dec keep Nx Ny j = Some bj ->
     lead bi < lead bj) /\
  (forall b0 bf, ind_to_dec keep Nx Ny 0 = Some b0 ->
     In bf (nonzero_states keep (zero_momentum_states Nx Ny)) -> lead b0 <= lead bf).
Proof.
  intros HNx HNy.
  assert (Hl := zms_leads Nx Ny HNx HNy).
  assert (Hs : StronglySorted (fun x y => lead x < lead y) (zero_momentum_states Nx Ny)).
  { apply sorted_strict; [|exact Hl|].
    - unfold zero_momentum_states. destruct (fold_left _ _ _). apply sort_by_lead_sorted.
    -
apply zms_owners_le1; assumption. }
  apply (filter_strongly_sorted _ keep) in Hs.
  split; [|split].
  - rewrite Forall_forall in Hl. exact Hl.
  - intros i j bi bj Hij Hi Hj. exact (strongly_sorted_nth_error _ _ i j bi bj Hs Hij Hi Hj).
  - intros b0 bf H0 Hbf. unfold ind_to_dec, nonzero_states in *.
    apply In_nth_error in Hbf. destruct Hbf as [j Hj].
    destruct j as [|j].
    + rewrite H0 in Hj. injection Hj as ->. lia.
    + assert (lead b0 < lead bf) by exact (strongly_sorted_nth_error _ _ 0 (S j) b0 bf Hs ltac:(lia) H0 Hj).
      lia.
Qed.

Lemma lead_order_witness :
  (forall bf, In bf (zero_momentum_states 2 2) ->
     has_key (lead bf) (decs bf) = true /\
     (forall x, has_key x (decs bf) = true -> lead bf <= x)) /\
  (forall i j bi bj, (i < j)%nat ->
     ind_to_dec (fun bf => negb (lead bf =? 5)) 2 2 i = Some bi ->
     ind_to_dec (fun bf => negb (lead bf =? 5)) 2 2 j = Some bj ->
     lead bi < lead bj) /\
  (forall b0 bf, ind_to_dec (fun bf => negb (lead bf =? 5)) 2 2 0 = Some b0 ->
     In bf (nonzero_states (fun bf => negb (lead bf =? 5)) (zero_momentum_states 2 2)) ->
     lead b0 <= lead bf).
Proof.
  apply lead_order; lia.
Defined.

Lemma lor_mask_eqb (dec : Z) (k : nat) :
  (Z.lor dec (2 ^ Z.of_nat k) =? dec) = Z.testbit dec (Z.of_nat k).
Proof.
  destruct (Z.testbit dec (Z.of_nat k)) eqn:Hb.
  - apply Z.eqb_eq, Z.bits_inj'. intros j Hj.
    rewrite Z.lor_spec, Z.pow2_bits_eqb by lia.
    destruct (Z.eqb_spec (Z.of_nat k) j) as [<-|]; [rewrite Hb; reflexivity|apply orb_false_r].
  - apply Z.eqb_neq. intros Heq.
    assert (H := f_equal (fun z => Z.testbit z (Z.of_nat k)) Heq). simpl in H.
    rewrite Z.lor_spec, Z.pow2_bits_true, Hb in H by lia. discriminate.
Qed.

Lemma repeated_spins_step (dec acc : Z) (a b : nat) :
  (let '(upup, downdown) := repeated_spins dec (2 ^ Z.of_nat a) (2 ^ Z.of_nat b) in
   acc + b2z upup + b2z downdown)
  = acc + b2z (Bool.eqb (Z.testbit dec (Z.of_nat a)) (Z.testbit dec (Z.of_nat b))).
Proof.
  unfold repeated_spins. rewrite !lor_mask_eqb.
  destruct (Z.testbit dec (Z.of_nat a)), (Z.testbit dec (Z.of_nat b)); simpl; lia.
Qed.

Lemma same_dir_count (dec : Z) (bonds : list (nat * nat)) (acc : Z) :
  fold_left (fun acc s =>
      let '(upup, downdown) := repeated_spins dec (fst s) (snd s) in
      acc + b2z upup + b2z downdown)
    (combine (fst (interacting_sites bonds)) (snd (interacting_sites bonds))) acc
  = acc + Z.of_nat (length (filter (fun b =>
      Bool.eqb (Z.testbit dec (Z.of_nat (fst b))) (Z.testbit dec (Z.of_nat (snd b)))) bonds)).
Proof.
  revert acc. induction bonds as [|[a b] bonds IH]; intros acc; [simpl; lia|].
  cbn [interacting_sites map fst snd combine fold_left].
  rewrite repeated_spins_step. cbn [fst snd interacting_sites] in IH. rewrite IH.
  cbn [filter fst snd].
  destruct (Bool.eqb (Z.testbit dec (Z.of_nat a)) (Z.testbit dec (Z.of_nat b))); cbn [length b2z]; lia.
Qed.

Lemma filter_negb_length {A : Type} (g : A -> bool) (l : list A) :
  length (filter (fun x => negb (g x)) l) = (length l - length (filter g l))%nat /\
  (length (filter g l) <= length l)%nat.
Proof.
  induction l as [|a l IH]; cbn [filter length]; [lia|].
  destruct (g a); cbn [negb length]; lia.
Qed.

(** C5: for every index [i] of the reduced basis ([ind_to_dec] defined at
    [i]) and every bond list of a range [l], [H_z_elements] returns the
    single rational [0.25 * (parallel - antiparallel)], where [parallel]
    and [antiparallel] count the bonds whose two spins in the leading state
    of the orbit at index [i] point in the same or in opposite directions. *)
Theorem H_z_elements_count (keep : BlochFunc -> bool) (Nx Ny : nat)
    (bonds : list (nat * nat)) (i : nat) (state : BlochFunc) :
  ind_to_dec keep Nx Ny i = Some state ->
  exists h, H_z_elements keep Nx Ny bonds i = Some h /\
  (h == (1 # 4) *
     (inject_Z (Z.of_nat (length (filter (fun b =>
        Bool.eqb (Z.testbit (lead state) (Z.of_nat (fst b)))
                 (Z.testbit (lead state) (Z.of_nat (snd b)))) bonds)))
      - inject_Z (Z.of_nat (length (filter (fun b =>
        negb (Bool.eqb (Z.testbit (lead state) (Z.of_nat (fst b)))
                       (Z.testbit (lead state) (Z.of_nat (snd b))))) bonds)))))%Q.
Proof.
  intros Hi. unfold H_z_elements. rewrite Hi.
  eexists. split; [reflexivity|].
  pose proof (same_dir_count (lead state) bonds 0) as Hc.
  unfold interacting_sites in *. cbn [fst snd] in Hc. rewrite Hc.
  destruct (filter_negb_length (fun b =>
        Bool.eqb (Z.testbit (lead state) (Z.of_nat (fst b)))
                 (Z.testbit (lead state) (Z.of_nat (snd b)))) bonds) as [Hn Hle].
  rewrite Hn, length_map, Nat2Z.inj_sub by exact Hle.
  set (p := Z.of_nat (length (filter _ bonds))).
  unfold Qeq, Qmult, Qminus, Qplus, Qopp, inject_Z. cbn [Qnum Qden]. lia.
Qed.

Lemma H_z_elements_count_witness :
  let st := mkBlochFunc 3 [(3, [(0%nat, 0%nat); (0%nat, 1%nat)]); (12, [(1%nat, 0%nat); (1%nat, 1%nat)])] in
  let bonds := [(0, 1); (2, 3); (0, 2)]%nat in
  ind_to_dec (fun _ => true) 2 2 2 = Some st /\
  exists h, H_z_elements (fun _ => true) 2 2 bonds 2 = Some h /\
  (h == (1 # 4) *
     (inject_Z (Z.of_nat (length (filter (fun b =>
        Bool.eqb (Z.testbit (lead st) (Z.of_nat (fst b)))
                 (Z.testbit (lead st) (Z.of_nat (snd b)))) bonds)))
      - inject_Z (Z.of_nat (length (filter (fun b =>
        negb (Bool.eqb (Z.testbit (lead st) (Z.of_nat (fst b)))
                       (Z.testbit (lead st) (Z.of_nat (snd b))))) bonds)))))%Q.
Proof.
  intros st bonds. split; [vm_compute; reflexivity|].
  apply H_z_elements_count. vm_compute. reflexivity.
Defined.

Lemma Qeq_bool_false_iff (x y : Q) : Qeq_bool x y = false <-> ~ (x == y)%Q.
Proof.
  rewrite <- Qeq_bool_iff. destruct (Qeq_bool x y); split; congruence.
Qed.

Ltac qeq_cases J :=
  let E := fresh "E" in
  destruct (Qeq_bool J 0) eqn:E;
  [apply Qeq_bool_iff in E | apply Qeq_bool_false_iff in E].

(** C7: in [hamiltonian_consv_k] the matrices of range 2 (resp. 3) are
    requested, and the second (resp. third) neighbour term included, if and
    only if [J2] (resp. [J3]) is nonzero; the ratio [J_z / J_pm] is only
    evaluated there, so the assembly raises exactly when [J_pm = 0] and
    [J2] or [J3] is nonzero, and with [J2 = J3 = 0] it returns a matrix
    for every [J_pm], [0] included. The same holds for [hamiltonian_dp]. *)
Theorem assembly_division_guard (M : Type) (madd : M -> M -> M) (mscale : Q -> M -> M)
    (mat : component -> M)
    (H_pm1 H_z1 H_ppmm H_pmz H_pm2 H_z2 H_z3 H_pm3 : M)
    (J_pm J_z J_ppmm J_pmz J2 J3 : Q) :
  let run := hamiltonian_consv_k M madd mscale (list component) (log_build mat) (fun log => log)
               J_pm J_z J_ppmm J_pmz J2 J3 [] in
  let dp := hamiltonian_dp M madd mscale H_pm1 H_z1 H_ppmm H_pmz H_pm2 H_z2 H_z3 H_pm3
              J_pm J_z J_ppmm J_pmz J2 J3 in
  ((exists e, snd run = Err e) <-> (J_pm == 0 /\ (~ J2 == 0 \/ ~ J3 == 0))%Q) /\
  ((J2 == 0)%Q -> (J3 == 0)%Q -> exists h, snd run = Ok h) /\
  (forall h, snd run = Ok h ->
     (In (Cz 2) (fst run) <-> ~ (J2 == 0)%Q) /\ (In (Cpm 2) (fst run) <-> ~ (J2 == 0)%Q) /\
     (In (Cz 3) (fst run) <-> ~ (J3 == 0)%Q) /\ (In (Cpm 3) (fst run) <-> ~ (J3 == 0)%Q)) /\
  ((exists e, dp = Err e) <-> (J_pm == 0 /\ (~ J2 == 0 \/ ~ J3 == 0))%Q) /\
  ((J2 == 0)%Q -> (J3 == 0)%Q -> exists h, dp = Ok h).
Proof.
  intros run dp. subst run dp.
  unfold hamiltonian_consv_k, hamiltonian_dp, asm_bind, request, asm_ret, asm_lift,
    asm_clear, log_build, py_div.
  qeq_cases J2; qeq_cases J3; qeq_cases J_pm; cbn [negb app fst snd In];
    repeat split; intros;
    repeat match goal with
           | H : exists _, _ |- _ => destruct H
           | H : _ /\ _ |- _ => destruct H
           | H : _ \/ _ |- _ => destruct H
           end;
    try discriminate; try tauto; try (eexists; reflexivity);
    try (right; discriminate); try (intuition discriminate).
Qed.

Lemma assembly_division_guard_witness :
  exists h, snd (hamiltonian_consv_k Q Qplus Qmult (list component) (log_build (fun _ => 1)) (fun log => log)
                   0 1 0 0 0 0 [])%Q = Ok h.
Proof.
  destruct (assembly_division_guard Q Qplus Qmult (fun _ => 1%Q)
              1 1 1 1 1 1 1 1 0 1 0 0 0 0)%Q as [_ [H _]].
  apply H; reflexivity.
Defined.

(** C9: the claim that the memo of [_find_leading_state] is cleared after
    each assembly fails on the raising path.  On the 2x2 lattice at momentum
    [(0, 0)] (where every orbit has a nonzero norm) with the
    nearest-neighbour bond [(0, 1)], [hamiltonian_consv_k] with [J_pm = 0],
    [J_z = 1] and [J2 = 1] raises [ZeroDivisionError] at [J_z / J_pm], before
    [_find_leading_state.cache_clear()], and leaves 11 entries in the memo;
    the same call with [J_pm = 1] returns and leaves the memo empty. *)
Lemma hamiltonian_consv_k_memo_kept :
  let run J_pm := hamiltonian_consv_k unit (fun _ _ => tt) (fun _ _ => tt) (list Z)
                    (memo_build (fun _ => true) 2 2 (fun _ => [(0, 1)%nat])) (fun _ => [])
                    J_pm 1 0 0 1 0 [] in
  snd (run 0%Q) = Err ZeroDivisionError /\ length (fst (run 0%Q)) = 11%nat /\
  (exists h, snd (run 1%Q) = Ok h) /\ fst (run 1%Q) = [].
Proof.
  vm_compute. split; [reflexivity|]. split; [reflexivity|].
  split; [eexists; reflexivity | reflexivity].
Qed.

(** ** Complex arithmetic and roots of unity *)

Section ComplexFacts.
Local Open Scope R_scope.

Lemma cplx_eq (a b : cplx) : fst a = fst b -> snd a = snd b -> a = b.
Proof. destruct a, b; simpl; intros -> ->; reflexivity. Qed.

Ltac cplx_ring :=
  repeat match goal with a : cplx |- _ => destruct a end;
  unfold cadd, cmul, cconj, czero, cone; simpl; apply cplx_eq; simpl; ring.

Lemma cadd_comm (a b : cplx) : cadd a b = cadd b a.
Proof. cplx_ring. Qed.
Lemma cadd_assoc (a b c : cplx) : cadd a (cadd b c) = cadd (cadd a b) c.
Proof. cplx_ring. Qed.
Lemma cadd_0_l (a : cplx) : cadd czero a = a.
Proof. cplx_ring. Qed.
Lemma cmul_comm (a b : cplx) : cmul a b = cmul b a.
Proof. cplx_ring. Qed.
Lemma cmul_assoc (a b c : cplx) : cmul a (cmul b c) = cmul (cmul a b) c.
Proof. cplx_ring. Qed.
Lemma cmul_1_l (a : cplx) : cmul cone a = a.
Proof. cplx_ring. Qed.
Lemma cmul_0_r (a : cplx) : cmul a czero = czero.
Proof. cplx_ring. Qed.
Lemma cmul_cadd_r (a b c : cplx) : cmul a (cadd b c) = cadd (cmul a b) (cmul a c).
Proof. cplx_ring. Qed.
Lemma cabs2_cmul (a b : cplx) : cabs2 (cmul a b) = cabs2 a * cabs2 b.
Proof. destruct a, b. unfold cabs2, cmul. simpl. ring. Qed.
Lemma cabs2_nonneg (a : cplx) : 0 <= cabs2 a.
Proof. destruct a. unfold cabs2. simpl. nra. Qed.
Lemma cabs2_zero (a : cplx) : cabs2 a = 0 -> a = czero.
Proof.
  destruct a as [x y]. unfold cabs2, czero. simpl. intros H.
  assert (x = 0) by nra. assert (y = 0) by nra. subst. reflexivity.
Qed.
Lemma cabs2_czero : cabs2 czero = 0.
Proof. unfold cabs2, czero. simpl. ring. Qed.
Lemma cabs2_cconj (a : cplx) : cabs2 (cconj a) = cabs2 a.
Proof. destruct a. unfold cabs2, cconj. simpl. ring. Qed.

Lemma cmul_integral (a b : cplx) : cmul a b = czero -> a = czero \/ b = czero.
Proof.
  intros H. assert (H2 := f_equal cabs2 H). rewrite cabs2_cmul, cabs2_czero in H2.
  apply Rmult_integral in H2. destruct H2; [left|right]; apply cabs2_zero; assumption.
Qed.

Lemma cexp_i_add (x y : R) : cmul (cexp_i x) (cexp_i y) = cexp_i (x + y).
Proof.
  unfold cmul, cexp_i. simpl. rewrite cos_plus, sin_plus. apply cplx_eq; simpl; ring.
Qed.

Lemma cabs2_cexp_i (x : R) : cabs2 (cexp_i x) = 1.
Proof.
  unfold cabs2, cexp_i. simpl. pose proof (sin2_cos2 x) as H. unfold Rsqr in H. lra.
Qed.

Lemma cexp_i_0 : cexp_i 0 = cone.
Proof. unfold cexp_i, cone. rewrite cos_0, sin_0. reflexivity. Qed.

Lemma cexp_i_2pi_nat (x : R) (k : nat) : cexp_i (x + 2 * INR k * PI) = cexp_i x.
Proof. unfold cexp_i. rewrite cos_period, sin_period. reflexivity. Qed.

Lemma cexp_i_2pi_int (x : R) (z : Z) : cexp_i (x + 2 * PI * IZR z) = cexp_i x.
Proof.
  destruct (Z_le_gt_dec 0 z) as [Hz|Hz].
  - rewrite <- (Z2Nat.id z Hz), <- INR_IZR_INZ.
    replace (x + 2 * PI * INR (Z.to_nat z)) with (x + 2 * INR (Z.to_nat z) * PI) by ring.
    apply cexp_i_2pi_nat.
  - replace z with (- Z.of_nat (Z.to_nat (- z)))%Z by lia.
    rewrite opp_IZR, <- INR_IZR_INZ.
    rewrite <- (cexp_i_2pi_nat (x + 2 * PI * - INR (Z.to_nat (- z))) (Z.to_nat (- z))).
    f_equal. ring.
Qed.

Lemma cexp_i_eq_1 (x : R) : cexp_i x = cone -> exists z, x = 2 * PI * IZR z.
Proof.
  unfold cexp_i, cone. intros H. injection H as Hc Hs.
  replace x with (2 * (x / 2)) in Hc by field.
  rewrite cos_2a_sin in Hc.
  assert (Hs2 : sin (x / 2) = 0) by nra.
  apply sin_eq_0_0 in Hs2. destruct Hs2 as [z Hz]. exists z.
  replace x with (2 * (x / 2)) by field. rewrite Hz. ring.
Qed.

Lemma csum_app (l l' : list cplx) : csum (l ++ l') = cadd (csum l) (csum l').
Proof.
  induction l as [|a l IH]; simpl.
  - rewrite cadd_0_l. reflexivity.
  - unfold csum in *. simpl. rewrite IH. apply cadd_assoc.
Qed.

Lemma csum_cons (a : cplx) (l : list cplx) : csum (a :: l) = cadd a (csum l).
Proof. reflexivity. Qed.

Lemma csum_perm (l l' : list cplx) : Permutation l l' -> csum l = csum l'.
Proof.
  induction 1 as [|x l l' _ IH|x y l|l l' l'' _ IH1 _ IH2].
  - reflexivity.
  - rewrite !csum_cons, IH. reflexivity.
  - rewrite !csum_cons, !cadd_assoc, (cadd_comm y x). reflexivity.
  - congruence.
Qed.

Lemma csum_scale {A : Type} (c : cplx) (f : A -> cplx) (l : list A) :
  csum (map (fun a => cmul c (f a)) l) = cmul c (csum (map f l)).
Proof.
  induction l as [|a l IH]; cbn [map].
  - rewrite cmul_0_r. reflexivity.
  - rewrite !csum_cons, IH, cmul_cadd_r. reflexivity.
Qed.

Lemma csum_ext {A : Type} (f g : A -> cplx) (l : list A) :
  (forall a, In a l -> f a = g a) -> csum (map f l) = csum (map g l).
Proof. intros H. f_equal. apply map_ext_in, H. Qed.

Lemma csum_plus {A : Type} (f g : A -> cplx) (l : list A) :
  csum (map (fun a => cadd (f a) (g a)) l) = cadd (csum (map f l)) (csum (map g l)).
Proof.
  induction l as [|a l IH]; cbn [map].
  - unfold csum, czero, cadd. simpl. apply cplx_eq; simpl; ring.
  - rewrite !csum_cons, IH. generalize (f a) (g a) (csum (map f l)) (csum (map g l)).
    intros; cplx_ring.
Qed.

Lemma csum_swap {A B : Type} (f : A -> B -> cplx) (la : list A) (lb : list B) :
  csum (map (fun a => csum (map (fun b => f a b) lb)) la)
  = csum (map (fun b => csum (map (fun a => f a b) la)) lb).
Proof.
  induction la as [|a la IH]; cbn [map].
  - induction lb as [|b lb IHb]; cbn [map]; [reflexivity|].
    rewrite csum_cons, <- IHb. unfold csum. simpl. rewrite cadd_0_l. reflexivity.
  - rewrite csum_cons, IH, <- csum_plus. reflexivity.
Qed.

Lemma csum_flat_map {A B : Type} (f : B -> cplx) (g : A -> list B) (l : list A) :
  csum (map f (flat_map g l)) = csum (map (fun a => csum (map f (g a))) l).
Proof.
  induction l as [|a l IH]; cbn [flat_map map]; [reflexivity|].
  rewrite map_app, csum_app, IH. reflexivity.
Qed.

Lemma csum_zero {A : Type} (l : list A) : csum (map (fun _ => czero) l) = czero.
Proof.
  induction l as [|a l IH]; cbn [map]; [reflexivity|]. rewrite csum_cons, IH. apply cadd_0_l.
Qed.

Lemma csum_ones {A : Type} (l : list A) :
  csum (map (fun _ => cone) l) = (INR (length l), 0).
Proof.
  induction l as [|a l IH]; cbn [map length]; [reflexivity|].
  rewrite csum_cons, IH. unfold cadd, cone. simpl. apply cplx_eq; simpl; [|ring].
  destruct (length l); simpl; ring.
Qed.

Lemma rsum_perm (l l' : list R) : Permutation l l' -> rsum l = rsum l'.
Proof.
  induction 1 as [|x l l' _ IH|x y l|l l' l'' _ IH1 _ IH2]; simpl.
  - reflexivity.
  - rewrite IH. reflexivity.
  - ring.
  - congruence.
Qed.

Lemma rsum_const {A : Type} (c : R) (l : list A) :
  rsum (map (fun _ => c) l) = INR (length l) * c.
Proof.
  induction l as [|a l IH]; simpl; [ring|]. rewrite IH.
  destruct (length l); simpl; ring.
Qed.

Lemma rsum_ext {A : Type} (f g : A -> R) (l : list A) :
  (forall a, In a l -> f a = g a) -> rsum (map f l) = rsum (map g l).
Proof. intros H. f_equal. apply map_ext_in, H. Qed.

End ComplexFacts.


(** ** The translation group acting on the orbits *)

Section Action.

Variables Nx Ny : nat.
Hypothesis HNx : (1 <= Nx)%nat.
Hypothesis HNy : (1 <= Ny)%nat.

Local Abbreviation tx := (fun d => translate_x_exact d Nx Ny).
Local Abbreviation ty := (fun d => translate_y d Nx Ny).

Let in_vis (n m : nat) : In (n, m) (visited Nx Ny) <-> (n < Ny /\ m < Nx)%nat :=
  in_visited Nx Ny HNx HNy n m.

Lemma iter_ty_tx (d : Z) (n m : nat) :
  in_range Nx Ny d -> Nat.iter n ty (Nat.iter m tx d) = Nat.iter m tx (Nat.iter n ty d).
Proof.
  intros Hd. induction n as [|n IH]; [reflexivity|].
  rewrite !(Nat.iter_succ n Z), IH.
  pose proof (iter_tx_ty_comm Nx Ny HNx HNy (Nat.iter n ty d) m
                (iter_ty_range Nx Ny HNy d n Hd)) as H.
  cbv beta in H. rewrite H. reflexivity.
Qed.

Lemma orbit_elem_add (d : Z) (a b c e : nat) :
  in_range Nx Ny d ->
  orbit_elem Nx Ny (orbit_elem Nx Ny d c e) a b = orbit_elem Nx Ny d (a + c) (b + e).
Proof.
  intros Hd. unfold orbit_elem.
  rewrite iter_ty_tx by (apply iter_ty_range; assumption).
  rewrite !(Nat.iter_add _ _ Z). reflexivity.
Qed.

Lemma iter_tx_mult (d : Z) (k : nat) :
  in_range Nx Ny d -> Nat.iter (k * Nx) tx d = d.
Proof.
  intros Hd. induction k as [|k IH]; [reflexivity|].
  cbn [Nat.mul]. rewrite (Nat.iter_add _ _ Z), IH. apply translate_x_period, Hd.
Qed.

Lemma iter_ty_mult (d : Z) (k : nat) :
  in_range Nx Ny d -> Nat.iter (k * Ny) ty d = d.
Proof.
  intros Hd. induction k as [|k IH]; [reflexivity|].
  cbn [Nat.mul]. rewrite (Nat.iter_add _ _ Z), IH. apply translate_y_period, Hd.
Qed.

Lemma orbit_elem_mod (d : Z) (n m : nat) :
  in_range Nx Ny d -> orbit_elem Nx Ny d n m = orbit_elem Nx Ny d (n mod Ny) (m mod Nx).
Proof.
  intros Hd.
  transitivity (orbit_elem Nx Ny d (n mod Ny + n / Ny * Ny) (m mod Nx + m / Nx * Nx)).
  { f_equal; rewrite Nat.add_comm, Nat.mul_comm; apply Nat.div_mod_eq. }
  unfold orbit_elem.
  rewrite !(Nat.iter_add _ _ Z), iter_ty_mult by assumption.
  rewrite iter_tx_mult by (apply iter_ty_range; assumption). reflexivity.
Qed.

Lemma orbit_elem_0 (d : Z) : orbit_elem Nx Ny d 0 0 = d.
Proof. reflexivity. Qed.

Lemma orbit_elem_pos_add (d : Z) (p q : nat * nat) :
  in_range Nx Ny d ->
  orbit_elem Nx Ny d (fst (pos_add Nx Ny p q)) (snd (pos_add Nx Ny p q))
  = orbit_elem Nx Ny (orbit_elem Nx Ny d (fst q) (snd q)) (fst p) (snd p).
Proof.
  intros Hd. rewrite orbit_elem_add by assumption. unfold pos_add. cbn [fst snd].
  symmetry. apply orbit_elem_mod, Hd.
Qed.

(** Translating back: [(Ny - n, Nx - m)] undoes [(n, m)]. *)
Lemma orbit_elem_inv (y : Z) (p : nat * nat) :
  in_range Nx Ny y -> In p (visited Nx Ny) ->
  orbit_elem Nx Ny (orbit_elem Nx Ny y (fst p) (snd p)) (Ny - fst p) (Nx - snd p) = y.
Proof.
  intros Hy Hp. destruct p as [n m]. apply in_vis in Hp. cbn [fst snd].
  rewrite orbit_elem_add, orbit_elem_mod by assumption.
  replace (Ny - n + n)%nat with (0 + 1 * Ny)%nat by lia.
  replace (Nx - m + m)%nat with (0 + 1 * Nx)%nat by lia.
  rewrite !Nat.Div0.mod_add, !Nat.Div0.mod_0_l. reflexivity.
Qed.

Lemma orbit_elem_inj (y z : Z) (p : nat * nat) :
  in_range Nx Ny y -> in_range Nx Ny z -> In p (visited Nx Ny) ->
  orbit_elem Nx Ny y (fst p) (snd p) = orbit_elem Nx Ny z (fst p) (snd p) -> y = z.
Proof.
  intros Hy Hz Hp Heq.
  rewrite <- (orbit_elem_inv y p Hy Hp), <- (orbit_elem_inv z p Hz Hp), Heq. reflexivity.
Qed.

Lemma pos_add_visited (p q : nat * nat) : In (pos_add Nx Ny p q) (visited Nx Ny).
Proof.
  apply in_vis. unfold pos_add. cbn [fst snd].
  split; apply Nat.mod_upper_bound; lia.
Qed.

Lemma pos_add_0 (q : nat * nat) : In q (visited Nx Ny) -> pos_add Nx Ny (0%nat, 0%nat) q = q.
Proof.
  destruct q as [n m]. intros Hq. apply in_vis in Hq. unfold pos_add. cbn [fst snd].
  rewrite !Nat.mod_small by lia. reflexivity.
Qed.

Lemma pos_add_surj (p q : nat * nat) :
  In p (visited Nx Ny) -> In q (visited Nx Ny) ->
  pos_add Nx Ny p (pos_add Nx Ny ((Ny - fst p)%nat, (Nx - snd p)%nat) q) = q.
Proof.
  destruct p as [n m], q as [n' m']. intros Hp Hq.
  apply in_vis in Hp, Hq. unfold pos_add. cbn [fst snd].
  rewrite !Nat.Div0.add_mod_idemp_r.
  replace (n + (Ny - n + n'))%nat with (n' + 1 * Ny)%nat by lia.
  replace (m + (Nx - m + m'))%nat with (m' + 1 * Nx)%nat by lia.
  rewrite !Nat.Div0.mod_add, !Nat.mod_small by lia. reflexivity.
Qed.

Lemma visited_NoDup : NoDup (visited Nx Ny).
Proof.
  unfold visited. generalize (seq_NoDup Ny 0). generalize (seq 0 Ny).
  intros l Hl. induction Hl as [|n l Hn Hl IH]; [constructor|].
  cbn [flat_map]. apply NoDup_app; [apply NoDup_map_NoDup_ForallPairs; [|apply seq_NoDup]|exact IH|].
  - intros a b _ _ H. injection H. auto.
  - intros [n1 m1] H1 H2. apply in_map_iff in H1. destruct H1 as [m [Heq _]].
    injection Heq as <- <-. apply in_flat_map in H2. destruct H2 as [n2 [Hn2 Hin]].
    apply in_map_iff in Hin. destruct Hin as [m2 [Heq _]]. injection Heq as -> ->.
    contradiction.
Qed.

Lemma visited_length : length (visited Nx Ny) = (Nx * Ny)%nat.
Proof.
  unfold visited. rewrite length_flat_map.
  rewrite (map_ext _ (fun _ => Nx)) by (intros; rewrite length_map, length_seq; reflexivity).
  generalize Ny. intros k. induction k as [|k IH]; [simpl; lia|].
  rewrite seq_S, map_app, list_sum_app, IH. simpl. lia.
Qed.

Lemma pos_add_perm (p : nat * nat) :
  In p (visited Nx Ny) -> Permutation (map (pos_add Nx Ny p) (visited Nx Ny)) (visited Nx Ny).
Proof.
  intros Hp. symmetry. apply NoDup_Permutation_bis.
  - apply visited_NoDup.
  - rewrite length_map. lia.
  - intros q Hq. apply in_map_iff. exists (pos_add Nx Ny ((Ny - fst p)%nat, (Nx - snd p)%nat) q).
    split; [apply pos_add_surj; assumption|apply pos_add_visited].
Qed.


(** ** The [decs] dict of an orbit *)

Lemma list_sum_cons (a : nat) (l : list nat) : list_sum (a :: l) = (a + list_sum l)%nat.
Proof. reflexivity. Qed.

Lemma dict_lookup_append (x k : Z) (v : nat * nat) (d : posdict) :
  dict_lookup x (dict_append k v d)
  = if Z.eqb x k then Some (match dict_lookup x d with Some vs => vs ++ [v] | None => [v] end)
    else dict_lookup x d.
Proof.
  induction d as [|[k' vs] d IH]; cbn [dict_append dict_lookup].
  - destruct (Z.eqb x k); reflexivity.
  - destruct (Z.eqb_spec k k') as [->|Hne]; cbn [dict_lookup].
    + destruct (Z.eqb x k'); reflexivity.
    + rewrite IH. destruct (Z.eqb_spec x k') as [->|]; [|reflexivity].
      apply Z.eqb_neq in Hne. rewrite Z.eqb_sym, Hne. reflexivity.
Qed.

Lemma dict_lookup_of (x : Z) (es : list (Z * (nat * nat))) (d : posdict) :
  dict_lookup x (dict_of es d)
  = match dict_lookup x d, map snd (filter (fun e => Z.eqb (fst e) x) es) with
    | None, [] => None
    | None, l => Some l
    | Some vs, l => Some (vs ++ l)
    end.
Proof.
  revert d. induction es as [|[k v] es IH]; intros d.
  - cbn. destruct (dict_lookup x d); [rewrite app_nil_r|]; reflexivity.
  - unfold dict_of. cbn [fold_left fst snd]. fold (dict_of es (dict_append k v d)).
    rewrite IH, dict_lookup_append. cbn [filter fst].
    rewrite (Z.eqb_sym k x). destruct (Z.eqb x k); cbn [map snd]; [|reflexivity].
    destruct (dict_lookup x d); [rewrite <- app_assoc|]; reflexivity.
Qed.

Lemma dict_keys_append (k : Z) (v : nat * nat) (d : posdict) :
  dict_keys (dict_append k v d) = if has_key k d then dict_keys d else dict_keys d ++ [k].
Proof.
  unfold has_key, dict_keys. induction d as [|[k' vs] d IH]; cbn [dict_append map existsb fst].
  - reflexivity.
  - destruct (Z.eqb_spec k k') as [->|Hne]; cbn [map fst orb].
    + reflexivity.
    + rewrite IH. destruct (existsb _ _); reflexivity.
Qed.

Lemma dict_keys_NoDup_append (k : Z) (v : nat * nat) (d : posdict) :
  NoDup (dict_keys d) -> NoDup (dict_keys (dict_append k v d)).
Proof.
  intros Hd. rewrite dict_keys_append. destruct (has_key k d) eqn:Hk; [exact Hd|].
  apply NoDup_app; [exact Hd|repeat constructor; auto|].
  intros a Ha [Heq|[]]. subst k. unfold has_key in Hk.
  assert (existsb (Z.eqb a) (dict_keys d) = true) by (apply existsb_eqb_in, Ha). congruence.
Qed.

Lemma dict_keys_NoDup_of (es : list (Z * (nat * nat))) (d : posdict) :
  NoDup (dict_keys d) -> NoDup (dict_keys (dict_of es d)).
Proof.
  revert d. induction es as [|[k v] es IH]; intros d Hd; [exact Hd|].
  unfold dict_of. cbn [fold_left fst snd]. apply IH, dict_keys_NoDup_append, Hd.
Qed.

Lemma dict_in_lookup (k : Z) (vs : list (nat * nat)) (d : posdict) :
  NoDup (dict_keys d) -> In (k, vs) d -> dict_lookup k d = Some vs.
Proof.
  induction d as [|[k' vs'] d IH]; intros Hd Hin; [destruct Hin|].
  unfold dict_keys in Hd. cbn [map fst] in Hd. inversion Hd as [|? ? Hk' Hd']; subst.
  cbn [dict_lookup]. destruct Hin as [Heq|Hin].
  - injection Heq as -> ->. rewrite Z.eqb_refl. reflexivity.
  - destruct (Z.eqb_spec k k') as [->|]; [|apply IH; assumption].
    exfalso. apply Hk'. apply in_map_iff. exists (k', vs). auto.
Qed.

(** Every [dict_append] adds one position to the values of the dict. *)
Lemma dict_total_append (k : Z) (v : nat * nat) (d : posdict) :
  list_sum (map (fun kv => length (snd kv)) (dict_append k v d))
  = S (list_sum (map (fun kv => length (snd kv)) d)).
Proof.
  induction d as [|[k' vs] d IH]; cbn [dict_append].
  - reflexivity.
  - destruct (Z.eqb k k'); cbn [map snd]; rewrite !list_sum_cons, ?IH, ?length_app;
      cbn [length]; lia.
Qed.

Lemma dict_total_of (es : list (Z * (nat * nat))) (d : posdict) :
  list_sum (map (fun kv => length (snd kv)) (dict_of es d))
  = (length es + list_sum (map (fun kv => length (snd kv)) d))%nat.
Proof.
  revert d. induction es as [|[k v] es IH]; intros d; [reflexivity|].
  unfold dict_of. cbn [fold_left fst snd]. fold (dict_of es (dict_append k v d)).
  rewrite IH, dict_total_append. cbn [length]. lia.
Qed.

Lemma filter_map_swap {A B : Type} (f : A -> B) (g : B -> bool) (l : list A) :
  filter g (map f l) = map f (filter (fun a => g (f a)) l).
Proof.
  induction l as [|a l IH]; cbn [map filter]; [reflexivity|].
  destruct (g (f a)); cbn [map]; rewrite IH; reflexivity.
Qed.

Lemma Permutation_filter' {A : Type} (g : A -> bool) (l l' : list A) :
  Permutation l l' -> Permutation (filter g l) (filter g l').
Proof.
  induction 1 as [|x l l' _ IH|x y l|l l' l'' _ IH1 _ IH2]; cbn [filter].
  - constructor.
  - destruct (g x); [constructor|]; exact IH.
  - destruct (g x), (g y); try constructor; reflexivity.
  - etransitivity; eassumption.
Qed.

Lemma list_sum_const {A : Type} (f : A -> nat) (c : nat) (l : list A) :
  (forall a, In a l -> f a = c) -> list_sum (map f l) = (length l * c)%nat.
Proof.
  induction l as [|a l IH]; intros H; [reflexivity|].
  cbn [map length]. rewrite list_sum_cons, H, IH by (simpl; auto; intros; apply H; simpl; auto). lia.
Qed.

Lemma find_filter {A : Type} (f : A -> bool) (l : list A) : find f l = hd_error (filter f l).
Proof.
  induction l as [|a l IH]; cbn [find filter]; [reflexivity|].
  destruct (f a); [reflexivity|exact IH].
Qed.

Lemma length_filter_sum {A : Type} (f : A -> bool) (l : list A) :
  length (filter f l) = list_sum (map (fun a => if f a then 1 else 0)%nat l).
Proof.
  induction l as [|a l IH]; cbn [filter map]; [reflexivity|].
  rewrite list_sum_cons. destruct (f a); cbn [length]; rewrite IH; lia.
Qed.

Lemma list_sum_plus {A : Type} (f g : A -> nat) (l : list A) :
  list_sum (map (fun a => f a + g a)%nat l) = (list_sum (map f l) + list_sum (map g l))%nat.
Proof. induction l as [|a l IH]; cbn [map]; rewrite ?list_sum_cons; [reflexivity|lia]. Qed.

Lemma list_sum_swap {A B : Type} (F : A -> B -> nat) (la : list A) (lb : list B) :
  list_sum (map (fun a => list_sum (map (fun b => F a b) lb)) la)
  = list_sum (map (fun b => list_sum (map (fun a => F a b) la)) lb).
Proof.
  induction la as [|a la IH]; cbn [map].
  - induction lb as [|b lb IHb]; cbn [map]; rewrite ?list_sum_cons; [reflexivity|].
    rewrite <- IHb. reflexivity.
  - rewrite list_sum_cons, IH, <- list_sum_plus. reflexivity.
Qed.

(** Counting [filter] hits on both sides of a relation. *)
Lemma count_swap {A B : Type} (P : A -> B -> bool) (la : list A) (lb : list B) :
  list_sum (map (fun a => length (filter (P a) lb)) la)
  = list_sum (map (fun b => length (filter (fun a => P a b) la)) lb).
Proof.
  rewrite (map_ext (fun a => length (filter (P a) lb))
             (fun a => list_sum (map (fun b => if P a b then 1 else 0)%nat lb)))
    by (intros; apply length_filter_sum).
  rewrite (map_ext (fun b => length (filter (fun a => P a b) la))
             (fun b => list_sum (map (fun a => if P a b then 1 else 0)%nat la)))
    by (intros; apply length_filter_sum).
  apply list_sum_swap.
Qed.

Local Abbreviation odict d :=
  (dict_of (map (fun p => (orbit_elem Nx Ny d (fst p) (snd p), p)) (visited Nx Ny)) []).

Lemma orbit_lookup (d x : Z) (p0 : nat * nat) :
  In p0 (visited Nx Ny) -> x = orbit_elem Nx Ny d (fst p0) (snd p0) ->
  dict_lookup x (odict d)
  = Some (filter (fun q => orbit_elem Nx Ny d (fst q) (snd q) =? x) (visited Nx Ny)).
Proof.
  intros Hp0 Hx. rewrite dict_lookup_of. cbn [dict_lookup].
  rewrite filter_map_swap, map_map. cbn [fst snd]. rewrite map_id.
  destruct (filter _ _) as [|q l] eqn:Hf; [|reflexivity].
  exfalso. assert (Hin : In p0 (filter (fun q => orbit_elem Nx Ny d (fst q) (snd q) =? x) (visited Nx Ny))).
  { apply filter_In. split; [exact Hp0|]. apply Z.eqb_eq. symmetry. exact Hx. }
  rewrite Hf in Hin. destruct Hin.
Qed.

Lemma orbit_keys (d x : Z) :
  In x (dict_keys (odict d)) <-> exists p0, In p0 (visited Nx Ny) /\ x = orbit_elem Nx Ny d (fst p0) (snd p0).
Proof.
  rewrite <- existsb_eqb_in. fold (has_key x (odict d)). rewrite orbit_has_key, existsb_eqb_in.
  unfold orbit_members. rewrite in_map_iff. split.
  - intros [p [Hp Hin]]. exists p. auto.
  - intros [p [Hin Hp]]. exists p. auto.
Qed.

Lemma orbit_keys_NoDup (d : Z) : NoDup (dict_keys (odict d)).
Proof. apply dict_keys_NoDup_of. constructor. Qed.

Lemma orbit_entry (d k : Z) (vs : list (nat * nat)) :
  In (k, vs) (odict d) ->
  exists p0, In p0 (visited Nx Ny) /\ k = orbit_elem Nx Ny d (fst p0) (snd p0) /\
    vs = filter (fun q => orbit_elem Nx Ny d (fst q) (snd q) =? k) (visited Nx Ny).
Proof.
  intros Hin.
  assert (Hk : In k (dict_keys (odict d))) by (apply in_map_iff; exists (k, vs); auto).
  apply orbit_keys in Hk. destruct Hk as [p0 [Hp0 Hk]]. exists p0. split; [exact Hp0|].
  split; [exact Hk|].
  pose proof (dict_in_lookup k vs _ (orbit_keys_NoDup d) Hin) as H1.
  rewrite (orbit_lookup d k p0 Hp0 Hk) in H1. injection H1 as <-. reflexivity.
Qed.

(** The positions of one state of the orbit are a coset of the stabilizer. *)
Lemma fiber_perm (d : Z) (p0 : nat * nat) :
  in_range Nx Ny d -> In p0 (visited Nx Ny) ->
  Permutation (map (pos_add Nx Ny p0) (stabilizer Nx Ny d))
    (filter (fun q => orbit_elem Nx Ny d (fst q) (snd q) =? orbit_elem Nx Ny d (fst p0) (snd p0))
       (visited Nx Ny)).
Proof.
  intros Hd Hp0.
  etransitivity; [|apply Permutation_filter', pos_add_perm, Hp0].
  rewrite filter_map_swap. unfold stabilizer. apply Permutation_map.
  erewrite filter_ext; [reflexivity|]. intros h. cbv beta.
  rewrite orbit_elem_pos_add by exact Hd.
  destruct (Z.eqb_spec (orbit_elem Nx Ny d (fst h) (snd h)) d) as [->|Hne].
  - rewrite Z.eqb_refl. reflexivity.
  - match goal with |- context [Z.eqb ?X ?Y] => destruct (Z.eqb_spec X Y) as [Heq|] end;
      [exfalso|reflexivity].
    apply Hne.
    apply (orbit_elem_inj _ _ p0); [apply orbit_elem_range; assumption|assumption|assumption|exact Heq].
Qed.

Lemma stabilizer_NoDup (d : Z) : NoDup (stabilizer Nx Ny d).
Proof. apply NoDup_filter, visited_NoDup. Qed.

Lemma stabilizer_0 (d : Z) : In (0%nat, 0%nat) (stabilizer Nx Ny d).
Proof.
  apply filter_In. split; [apply in_vis; lia|]. apply Z.eqb_refl.
Qed.

Lemma stabilizer_pos (d : Z) : (1 <= length (stabilizer Nx Ny d))%nat.
Proof.
  pose proof (stabilizer_0 d) as H. destruct (stabilizer Nx Ny d); [destruct H|]. simpl. lia.
Qed.

Lemma stabilizer_visited (d : Z) (h : nat * nat) :
  In h (stabilizer Nx Ny d) -> In h (visited Nx Ny).
Proof. intros H. apply filter_In in H. apply H. Qed.

Lemma stabilizer_shift (d : Z) (h0 : nat * nat) :
  in_range Nx Ny d -> In h0 (stabilizer Nx Ny d) ->
  Permutation (map (pos_add Nx Ny h0) (stabilizer Nx Ny d)) (stabilizer Nx Ny d).
Proof.
  intros Hd Hh0. pose proof Hh0 as Hh. apply filter_In in Hh. destruct Hh as [Hv He].
  apply Z.eqb_eq in He. rewrite (fiber_perm d h0 Hd Hv), He. reflexivity.
Qed.

Lemma fiber_length (d : Z) (p0 : nat * nat) :
  in_range Nx Ny d -> In p0 (visited Nx Ny) ->
  length (filter (fun q => orbit_elem Nx Ny d (fst q) (snd q) =? orbit_elem Nx Ny d (fst p0) (snd p0))
            (visited Nx Ny)) = length (stabilizer Nx Ny d).
Proof.
  intros Hd Hp0. rewrite <- (Permutation_length (fiber_perm d p0 Hd Hp0)), length_map.
  reflexivity.
Qed.

(** Orbit-stabilizer: the number of states of the orbit times the number of
    positions of each is the number [Nx * Ny] of positions of the sweep. *)
Lemma orbit_stabilizer (d : Z) :
  in_range Nx Ny d -> (length (odict d) * length (stabilizer Nx Ny d))%nat = (Nx * Ny)%nat.
Proof.
  intros Hd. pose proof (dict_total_of (map (fun p => (orbit_elem Nx Ny d (fst p) (snd p), p))
                                        (visited Nx Ny)) []) as H.
  rewrite length_map, visited_length in H. cbn [map list_sum] in H.
  rewrite <- (list_sum_const (fun kv => length (snd kv)) _ (odict d)), H; [cbn; lia|].
  intros [k vs] Hin. destruct (orbit_entry d k vs Hin) as [p0 [Hp0 [-> ->]]].
  apply fiber_length; assumption.
Qed.

(** ** Phases *)

Lemma INR_pos_ne (k : nat) : (1 <= k)%nat -> INR k <> 0%R.
Proof. intros Hk. apply not_0_INR. lia. Qed.

Lemma xphase_add (N : nat) (kx : Z) (a b : nat) : (1 <= N)%nat ->
  xphase N kx (a + b) = cmul (xphase N kx a) (xphase N kx b).
Proof.
  intros HN. unfold xphase. rewrite cexp_i_add. f_equal. rewrite plus_INR.
  field. apply INR_pos_ne, HN.
Qed.

Lemma xphase_k_add (N : nat) (a b : Z) (m : nat) : (1 <= N)%nat ->
  xphase N (a + b) m = cmul (xphase N a m) (xphase N b m).
Proof.
  intros HN. unfold xphase. rewrite cexp_i_add. f_equal. rewrite plus_IZR.
  field. apply INR_pos_ne, HN.
Qed.

Lemma xphase_mult (N : nat) (kx : Z) (q : nat) : (1 <= N)%nat ->
  xphase N kx (q * N) = cone.
Proof.
  intros HN. unfold xphase. rewrite <- cexp_i_0, <- (cexp_i_2pi_int 0 (kx * Z.of_nat q)).
  f_equal. rewrite mult_IZR, mult_INR, <- INR_IZR_INZ. field. apply INR_pos_ne, HN.
Qed.

Lemma cmul_1_r (a : cplx) : cmul a cone = a.
Proof. rewrite cmul_comm. apply cmul_1_l. Qed.

Lemma xphase_mod (N : nat) (kx : Z) (m : nat) : (1 <= N)%nat ->
  xphase N kx (m mod N) = xphase N kx m.
Proof.
  intros HN. rewrite (Nat.div_mod_eq m N) at 2.
  rewrite Nat.add_comm, Nat.mul_comm, xphase_add, xphase_mult, cmul_1_r by exact HN.
  reflexivity.
Qed.

Lemma cabs2_phase_arr (kx ky : Z) (n m : nat) : cabs2 (phase_arr Nx Ny kx ky n m) = 1%R.
Proof.
  unfold phase_arr, xphase, yphase. rewrite cabs2_cmul, !cabs2_cexp_i. ring.
Qed.

Lemma phase_arr_pos_add (kx ky : Z) (p q : nat * nat) :
  phase_arr Nx Ny kx ky (fst (pos_add Nx Ny p q)) (snd (pos_add Nx Ny p q))
  = cmul (phase_arr Nx Ny kx ky (fst p) (snd p)) (phase_arr Nx Ny kx ky (fst q) (snd q)).
Proof.
  unfold pos_add, phase_arr. cbn [fst snd].
  change (yphase Ny ky) with (xphase Ny ky).
  rewrite !xphase_mod, !xphase_add by assumption.
  generalize (xphase Ny ky (fst p)) (xphase Ny ky (fst q)) (xphase Nx kx (snd p))
    (xphase Nx kx (snd q)). intros a b c e.
  rewrite <- !cmul_assoc. f_equal. rewrite !cmul_assoc. f_equal. apply cmul_comm.
Qed.

(** The sum of the phases over the positions of the state at [p0] is the
    phase of [p0] times the sum over the stabilizer. *)
Lemma locs_sum_fiber (kx ky : Z) (d : Z) (p0 : nat * nat) :
  in_range Nx Ny d -> In p0 (visited Nx Ny) ->
  locs_sum Nx Ny kx ky
    (filter (fun q => orbit_elem Nx Ny d (fst q) (snd q) =? orbit_elem Nx Ny d (fst p0) (snd p0))
       (visited Nx Ny))
  = cmul (phase_arr Nx Ny kx ky (fst p0) (snd p0)) (locs_sum Nx Ny kx ky (stabilizer Nx Ny d)).
Proof.
  intros Hd Hp0. unfold locs_sum.
  rewrite <- (csum_perm _ _ (Permutation_map (fun p => phase_arr Nx Ny kx ky (fst p) (snd p))
                                (fiber_perm d p0 Hd Hp0))).
  rewrite map_map, <- csum_scale. f_equal. apply map_ext. intros h. apply phase_arr_pos_add.
Qed.

Lemma cplx_eq_dec (a b : cplx) : {a = b} + {a <> b}.
Proof.
  destruct a as [a1 a2], b as [b1 b2].
  destruct (Req_EM_T a1 b1) as [->|H1]; [|right; congruence].
  destruct (Req_EM_T a2 b2) as [->|H2]; [left; reflexivity|right; congruence].
Qed.

Lemma all_or_exists {A : Type} (f : A -> cplx) (l : list A) :
  (forall a, In a l -> f a = cone) \/ (exists a, In a l /\ f a <> cone).
Proof.
  induction l as [|a l IH]; [left; intros a []|].
  destruct (cplx_eq_dec (f a) cone) as [Ha|Ha]; [|right; exists a; simpl; auto].
  destruct IH as [IH|[b [Hb Hfb]]].
  - left. intros b [<-|Hb]; auto.
  - right. exists b. simpl. auto.
Qed.

(** A sum fixed by a phase other than [1] vanishes. *)
Lemma cmul_fixed (c s : cplx) : cmul c s = s -> c <> cone -> s = czero.
Proof.
  intros Hfix Hc. assert (H : cmul (cadd c (-1, 0)%R) s = czero).
  { destruct c as [c1 c2], s as [s1 s2]. unfold cmul, cadd, czero in *. cbn [fst snd] in *.
    injection Hfix as H1 H2. apply cplx_eq; cbn [fst snd]; nra. }
  apply cmul_integral in H. destruct H as [H|H]; [|exact H].
  exfalso. apply Hc. destruct c as [c1 c2]. unfold cadd, czero, cone in *. cbn [fst snd] in H.
  injection H as H1 H2. apply cplx_eq; cbn [fst snd]; lra.
Qed.

(** The stabilizer sum is [|H|] when every phase of the stabilizer is [1],
    and [0] otherwise. *)
Lemma stab_sum_cases (kx ky : Z) (d : Z) :
  in_range Nx Ny d ->
  locs_sum Nx Ny kx ky (stabilizer Nx Ny d) = (INR (length (stabilizer Nx Ny d)), 0%R)
  \/ locs_sum Nx Ny kx ky (stabilizer Nx Ny d) = czero.
Proof.
  intros Hd.
  destruct (all_or_exists (fun p => phase_arr Nx Ny kx ky (fst p) (snd p)) (stabilizer Nx Ny d))
    as [Hall|[h0 [Hh0 Hne]]].
  - left. unfold locs_sum. rewrite (csum_ext _ (fun _ => cone)) by exact Hall.
    apply csum_ones.
  - right. apply (cmul_fixed (phase_arr Nx Ny kx ky (fst h0) (snd h0))); [|exact Hne].
    unfold locs_sum. rewrite <- csum_scale.
    rewrite <- (csum_perm _ _ (Permutation_map (fun p => phase_arr Nx Ny kx ky (fst p) (snd p))
                                  (stabilizer_shift d h0 Hd Hh0))).
    rewrite map_map. f_equal. apply map_ext. intros h. symmetry. apply phase_arr_pos_add.
Qed.

(** Geometric sum of the phases over a full zone of momenta. *)
Lemma phase_zone_sum (N : nat) (k0 : Z) (m : nat) : (1 <= N)%nat -> (m < N)%nat ->
  csum (map (fun i => xphase N (k0 + Z.of_nat i) m) (seq 0 N))
  = if (m =? 0)%nat then (INR N, 0%R) else czero.
Proof.
  intros HN Hm.
  rewrite (csum_ext _ (fun i => cmul (xphase N k0 m) (xphase N (Z.of_nat i) m)))
    by (intros; apply xphase_k_add, HN).
  rewrite csum_scale.
  assert (Hz : forall z, xphase N z 0 = cone).
  { intros z. unfold xphase. rewrite <- cexp_i_0. f_equal. simpl. field. apply INR_pos_ne, HN. }
  destruct (Nat.eqb_spec m 0) as [->|Hm0].
  - rewrite Hz, cmul_1_l, (csum_ext _ (fun _ => cone)) by (intros; apply Hz).
    rewrite csum_ones, length_seq. reflexivity.
  - set (e := fun i : nat => xphase N (Z.of_nat i) m).
    set (w := xphase N 1 m).
    assert (Hshift : cmul w (csum (map e (seq 0 N))) = csum (map e (seq 1 N))).
    { rewrite <- csum_scale, <- seq_shift, map_map. f_equal. apply map_ext. intros i.
      unfold e, w. rewrite <- xphase_k_add by exact HN. f_equal. lia. }
    assert (HeN : e N = cone).
    { unfold e, xphase. rewrite <- cexp_i_0, <- (cexp_i_2pi_int 0 (Z.of_nat m)).
      f_equal. rewrite <- !INR_IZR_INZ. field. apply INR_pos_ne, HN. }
    assert (He0 : e 0%nat = cone).
    { unfold e, xphase. rewrite <- cexp_i_0. f_equal. simpl. field. apply INR_pos_ne, HN. }
    assert (Hsplit : cadd (csum (map e (seq 0 N))) (e N) = cadd (e 0%nat) (csum (map e (seq 1 N)))).
    { rewrite <- csum_cons. change (e 0%nat :: map e (seq 1 N)) with (map e (seq 0 (S N))).
      rewrite seq_S, map_app, csum_app. cbn [map Nat.add]. unfold csum at 3. cbn [fold_right].
      f_equal. destruct (e N). unfold cadd, czero. cbn [fst snd]. f_equal; ring. }
    rewrite HeN, He0, <- Hshift in Hsplit.
    assert (Hw : w <> cone).
    { unfold w, xphase. intros Hc. apply cexp_i_eq_1 in Hc. destruct Hc as [z Hz'].
      assert (HNr : (0 < INR N)%R) by (apply lt_0_INR; lia).
      assert (Hmr : (0 < INR m < INR N)%R) by (split; [apply lt_0_INR; lia|apply lt_INR; lia]).
      assert (Heq : INR m = (IZR z * INR N)%R).
      { pose proof PI_RGT_0.
        apply (Rmult_eq_reg_l (2 * PI / INR N)).
        - replace (2 * PI / INR N * (IZR z * INR N))%R with (2 * PI * IZR z)%R by (field; lra).
          rewrite <- Hz'. field. lra.
        - apply Rmult_integral_contrapositive_currified; [lra|apply Rinv_neq_0_compat; lra]. }
      assert (Hz0 : (0 < IZR z)%R) by nra. assert (Hz1 : (IZR z < 1)%R) by nra.
      apply lt_IZR in Hz0, Hz1. lia. }
    assert (HG : csum (map e (seq 0 N)) = czero).
    { apply (cmul_fixed w); [|exact Hw].
      destruct (csum (map e (seq 0 N))) as [g1 g2], (cmul w (g1, g2)) as [h1 h2].
      unfold cadd, cone in Hsplit. cbn [fst snd] in Hsplit. injection Hsplit as H1 H2.
      apply cplx_eq; cbn [fst snd]; lra. }
    rewrite HG. apply cmul_0_r.
Qed.

(** Orthogonality: summed over a full Brillouin zone, the phase of a
    position vanishes unless the position is [(0, 0)]. *)
Lemma zone_phase_sum (kx0 ky0 : Z) (n m : nat) : (n < Ny)%nat -> (m < Nx)%nat ->
  csum (map (fun k => phase_arr Nx Ny (fst k) (snd k) n m) (brillouin_zone Nx Ny kx0 ky0))
  = if (n =? 0)%nat && (m =? 0)%nat then (INR (Nx * Ny), 0%R) else czero.
Proof.
  intros Hn Hm. unfold brillouin_zone. rewrite csum_flat_map.
  set (Y := csum (map (fun j => xphase Ny (ky0 + Z.of_nat j) n) (seq 0 Ny))).
  rewrite (csum_ext _ (fun i => cmul Y (xphase Nx (kx0 + Z.of_nat i) m))).
  2:{ intros i _. rewrite map_map. cbn [fst snd]. unfold phase_arr. change (yphase Ny) with (xphase Ny).
      rewrite (csum_ext _ (fun j => cmul (xphase Nx (kx0 + Z.of_nat i) m) (xphase Ny (ky0 + Z.of_nat j) n)))
        by (intros; apply cmul_comm).
      rewrite csum_scale. apply cmul_comm. }
  rewrite csum_scale. unfold Y. rewrite !phase_zone_sum by assumption.
  destruct (Nat.eqb n 0), (Nat.eqb m 0); cbn [andb];
    rewrite ?cmul_0_r, ?(cmul_comm czero), ?cmul_0_r; try reflexivity.
  unfold cmul. cbn [fst snd]. rewrite mult_INR. apply cplx_eq; cbn [fst snd]; ring.
Qed.

Lemma csum_indicator {A : Type} (b : A -> bool) (r : R) (l : list A) :
  csum (map (fun a => if b a then (r, 0%R) else czero) l) = (INR (length (filter b l)) * r, 0)%R.
Proof.
  induction l as [|a l IH]; cbn [map filter].
  - unfold csum, czero. cbn. apply cplx_eq; cbn [fst snd]; ring.
  - rewrite csum_cons, IH. destruct (b a); cbn [length]; unfold cadd, czero; apply cplx_eq;
      cbn [fst snd]; rewrite ?S_INR; ring.
Qed.

Lemma csum_delta (c : cplx) (l : list (nat * nat)) :
  NoDup l -> In (0%nat, 0%nat) l ->
  csum (map (fun h => if (fst h =? 0)%nat && (snd h =? 0)%nat then c else czero) l) = c.
Proof.
  intros Hl. induction Hl as [|a l Ha Hl IH]; [intros []|].
  intros [Ha0|Hin]; cbn [map]; rewrite csum_cons.
  - subst a. cbn [fst snd Nat.eqb andb].
    rewrite (csum_ext _ (fun _ => czero)), csum_zero.
    + destruct c. unfold cadd, czero. apply cplx_eq; cbn [fst snd]; ring.
    + intros [n m] Hnm. destruct n, m; try reflexivity. contradiction.
  - rewrite IH by exact Hin.
    destruct a as [[|n] [|m]]; cbn [fst snd Nat.eqb andb]; [contradiction|apply cadd_0_l..].
Qed.

Lemma norm_coeff_orbit (kx ky : Z) (d : Z) (bf : BlochFunc) :
  in_range Nx Ny d -> decs bf = odict d ->
  norm_coeff bf Nx Ny kx ky
  = sqrt (INR (length (odict d)) * cabs2 (locs_sum Nx Ny kx ky (stabilizer Nx Ny d))).
Proof.
  intros Hd Hdecs. unfold norm_coeff. rewrite Hdecs. f_equal.
  rewrite (rsum_ext _ (fun _ => cabs2 (locs_sum Nx Ny kx ky (stabilizer Nx Ny d)))).
  - apply rsum_const.
  - intros [k vs] Hin. destruct (orbit_entry d k vs Hin) as [p0 [Hp0 [-> ->]]]. cbn [snd].
    rewrite locs_sum_fiber, cabs2_cmul, cabs2_phase_arr by assumption. ring.
Qed.

Lemma odict_length_pos (d : Z) : in_range Nx Ny d -> (1 <= length (odict d))%nat.
Proof.
  intros Hd. pose proof (orbit_stabilizer d Hd) as H.
  destruct (length (odict d)); [|lia]. simpl in H. nia.
Qed.

(** The norm test keeps an orbit exactly when its stabilizer sum is [|H|]. *)
Lemma stab_sum_norm (kx ky : Z) (d : Z) (bf : BlochFunc) :
  in_range Nx Ny d -> decs bf = odict d ->
  locs_sum Nx Ny kx ky (stabilizer Nx Ny d)
  = if norm_gt_tol Nx Ny kx ky bf then (INR (length (stabilizer Nx Ny d)), 0%R) else czero.
Proof.
  intros Hd Hdecs. unfold norm_gt_tol. rewrite (norm_coeff_orbit kx ky d bf Hd Hdecs).
  destruct (stab_sum_cases kx ky d Hd) as [E|E]; rewrite E.
  - destruct (Rlt_dec _ _) as [|Hn]; [reflexivity|exfalso; apply Hn].
    pose proof (le_INR _ _ (odict_length_pos d Hd)) as H1.
    pose proof (le_INR _ _ (stabilizer_pos d)) as H2. simpl INR in H1, H2.
    apply Rlt_le_trans with 1%R; [unfold tol; lra|].
    rewrite <- sqrt_1. apply sqrt_le_1_alt. unfold cabs2. cbn [fst snd]. nra.
  - rewrite cabs2_czero, Rmult_0_r, sqrt_0.
    destruct (Rlt_dec _ _) as [Hl|]; [exfalso; unfold tol in Hl; lra|reflexivity].
Qed.

(** An orbit is kept in as many sectors of a zone as it has states. *)
Lemma zone_count (kx0 ky0 : Z) (d : Z) (bf : BlochFunc) :
  in_range Nx Ny d -> decs bf = odict d ->
  length (filter (fun k => norm_gt_tol Nx Ny (fst k) (snd k) bf) (brillouin_zone Nx Ny kx0 ky0))
  = length (decs bf).
Proof.
  intros Hd Hdecs.
  set (Zn := brillouin_zone Nx Ny kx0 ky0). set (H := stabilizer Nx Ny d).
  assert (E1 : csum (map (fun k => locs_sum Nx Ny (fst k) (snd k) H) Zn)
               = (INR (length (filter (fun k => norm_gt_tol Nx Ny (fst k) (snd k) bf) Zn))
                  * INR (length H), 0)%R).
  { rewrite <- csum_indicator. apply csum_ext. intros k _. apply stab_sum_norm; assumption. }
  assert (E2 : csum (map (fun k => locs_sum Nx Ny (fst k) (snd k) H) Zn) = (INR (Nx * Ny), 0%R)).
  { unfold locs_sum.
    rewrite (csum_swap (fun k p => phase_arr Nx Ny (fst k) (snd k) (fst p) (snd p))).
    rewrite (csum_ext _ (fun h => if (fst h =? 0)%nat && (snd h =? 0)%nat
                                  then (INR (Nx * Ny), 0%R) else czero)).
    - apply csum_delta; [apply stabilizer_NoDup|apply stabilizer_0].
    - intros [n m] Hh. apply stabilizer_visited, in_vis in Hh.
      apply zone_phase_sum; apply Hh. }
  rewrite E1 in E2. injection E2 as E2. rewrite <- mult_INR in E2. apply INR_eq in E2.
  rewrite Hdecs. pose proof (orbit_stabilizer d Hd) as E3. fold H in E3.
  pose proof (stabilizer_pos d) as E4. fold H in E4.
  apply (Nat.mul_cancel_r _ _ (length H)); lia.
Qed.

(** ** Shape of the orbits of [zero_momentum_states] *)

Lemma zms_step_shape (acc : list BlochFunc * sieve_t) (D : Z) :
  in_range Nx Ny D ->
  Forall (fun bf => in_range Nx Ny (lead bf) /\ decs bf = odict (lead bf)) (fst acc) ->
  Forall (fun bf => in_range Nx Ny (lead bf) /\ decs bf = odict (lead bf))
    (fst (zms_step Nx Ny acc D)).
Proof.
  destruct acc as [bfuncs sieve]. intros HD Hl. unfold zms_step.
  destruct (sieve D); [|exact Hl].
  rewrite (find_T_invariant_set_spec Nx Ny HNy D sieve HD). cbn [fst].
  apply Forall_app. split; [exact Hl|]. constructor; [|constructor].
  cbn [lead decs]. split; [exact HD|reflexivity].
Qed.

Lemma zms_fold_shape (k : nat) :
  Z.of_nat k <= 2 ^ Z.of_nat (Nx * Ny) ->
  Forall (fun bf => in_range Nx Ny (lead bf) /\ decs bf = odict (lead bf))
    (fst (fold_left (zms_step Nx Ny) (zseq k) ([], fun _ => true))).
Proof.
  induction k as [|k IH]; intros Hk; [constructor|].
  rewrite zseq_snoc, fold_left_app. cbn [fold_left].
  apply zms_step_shape; [unfold in_range; lia|apply IH; lia].
Qed.

Lemma pow2_nat (k : nat) : Z.of_nat (2 ^ k) = 2 ^ Z.of_nat k.
Proof. rewrite Nat2Z.inj_pow. reflexivity. Qed.

Lemma zms_shape :
  Forall (fun bf => in_range Nx Ny (lead bf) /\ decs bf = odict (lead bf))
    (zero_momentum_states Nx Ny).
Proof.
  pose proof (zms_fold_shape (2 ^ (Nx * Ny))) as H. rewrite pow2_nat in H.
  specialize (H (Z.le_refl _)). unfold zero_momentum_states.
  destruct (fold_left _ _ _) as [bfuncs sieve]. cbn [fst] in H.
  rewrite Forall_forall in *. intros bf Hbf. apply H.
  apply (Permutation_in _ (sort_by_lead_perm bfuncs) Hbf).
Qed.

Lemma zms_owners (y : Z) : in_range Nx Ny y -> owners y (zero_momentum_states Nx Ny) = 1%nat.
Proof.
  intros Hy. unfold zero_momentum_states.
  pose proof (zms_loop_owners Nx Ny HNx HNy y Hy) as H.
  destruct (fold_left _ _ _) as [bfuncs sieve].
  rewrite (owners_perm _ _ _ (sort_by_lead_perm bfuncs)). exact H.
Qed.

(** The orbit owning a product state, as [bloch_states.hashtable] finds it. *)
Lemma zms_lookup (y : Z) : in_range Nx Ny y ->
  exists bf, hashtable_lookup (zero_momentum_states Nx Ny) y = Some bf /\
    filter (fun bf => has_key y (decs bf)) (zero_momentum_states Nx Ny) = [bf].
Proof.
  intros Hy. pose proof (zms_owners y Hy) as H. unfold owners in H.
  unfold hashtable_lookup. rewrite find_filter.
  destruct (filter _ _) as [|b [|b' l]]; cbn in H; try lia.
  exists b. split; reflexivity.
Qed.

Lemma orbit_size_count (bf : BlochFunc) :
  in_range Nx Ny (lead bf) -> decs bf = odict (lead bf) ->
  length (decs bf) = length (filter (fun x => has_key x (decs bf)) (zseq (2 ^ (Nx * Ny)))).
Proof.
  intros Hd Hdecs. rewrite <- (length_map fst (decs bf)). fold (dict_keys (decs bf)).
  apply Permutation_length, NoDup_Permutation.
  - rewrite Hdecs. apply orbit_keys_NoDup.
  - apply NoDup_filter, zseq_NoDup.
  - intros x. rewrite filter_In, in_zseq, pow2_nat. split.
    + intros Hx. split.
      * rewrite Hdecs in Hx. apply orbit_keys in Hx. destruct Hx as [p0 [_ ->]].
        apply orbit_elem_range; assumption.
      * apply existsb_eqb_in, Hx.
    + intros [_ Hx]. apply existsb_eqb_in, Hx.
Qed.

(** The orbits of [zero_momentum_states] have [2 ^ (Nx * Ny)] states in all. *)
Lemma orbits_total :
  list_sum (map (fun bf => length (decs bf)) (zero_momentum_states Nx Ny)) = (2 ^ (Nx * Ny))%nat.
Proof.
  pose proof zms_shape as Hs. rewrite Forall_forall in Hs.
  rewrite (map_ext_in _ (fun bf => length (filter (fun x => has_key x (decs bf))
                                              (zseq (2 ^ (Nx * Ny))))))
    by (intros bf Hbf; apply orbit_size_count; apply Hs, Hbf).
  rewrite (count_swap (fun bf x => has_key x (decs bf))).
  rewrite (list_sum_const _ 1).
  - unfold zseq. rewrite length_map, length_seq. lia.
  - intros x Hx. apply zms_owners. apply in_zseq in Hx. rewrite pow2_nat in Hx. exact Hx.
Qed.

(** Summed over a full Brillouin zone, the sizes of the reduced bases add up
    to the sizes of the orbits. *)
Lemma zone_total (kx0 ky0 : Z) :
  list_sum (map (fun k => length (reduced_basis Nx Ny (fst k) (snd k))) (brillouin_zone Nx Ny kx0 ky0))
  = list_sum (map (fun bf => length (decs bf)) (zero_momentum_states Nx Ny)).
Proof.
  unfold reduced_basis, nonzero_states.
  rewrite (count_swap (fun k bf => norm_gt_tol Nx Ny (fst k) (snd k) bf)).
  f_equal. apply map_ext_in. intros bf Hbf.
  pose proof zms_shape as Hs. rewrite Forall_forall in Hs. destruct (Hs bf Hbf) as [Hd Hdecs].
  apply (zone_count kx0 ky0 (lead bf)); assumption.
Qed.

(** The positions recorded for the leading state are the stabilizer, and
    their number times the orbit size is [Nx * Ny]. *)
Lemma orbit_lead_locs (bf : BlochFunc) :
  In bf (zero_momentum_states Nx Ny) ->
  exists locs, dict_lookup (lead bf) (decs bf) = Some locs /\
    (length (decs bf) * length locs)%nat = (Nx * Ny)%nat.
Proof.
  intros Hbf. pose proof zms_shape as Hs. rewrite Forall_forall in Hs.
  destruct (Hs bf Hbf) as [Hd Hdecs]. exists (stabilizer Nx Ny (lead bf)). split.
  - rewrite Hdecs. apply (orbit_lookup _ _ (0%nat, 0%nat)); [apply in_vis; lia|reflexivity].
  - rewrite Hdecs. apply orbit_stabilizer, Hd.
Qed.

(** The state [dec] of an orbit kept by the norm test has a nonzero phase sum. *)
Lemma kept_locs_sum (kx ky : Z) (bf : BlochFunc) (dec : Z) :
  In bf (zero_momentum_states Nx Ny) -> has_key dec (decs bf) = true ->
  ~ (norm_coeff bf Nx Ny kx ky < tol)%R ->
  exists locs, dict_lookup dec (decs bf) = Some locs /\
    locs = filter (fun p => orbit_elem Nx Ny (lead bf) (fst p) (snd p) =? dec) (visited Nx Ny) /\
    cabs2 (locs_sum Nx Ny kx ky locs) <> 0%R.
Proof.
  intros Hbf Hk Hn. pose proof zms_shape as Hs. rewrite Forall_forall in Hs.
  destruct (Hs bf Hbf) as [Hd Hdecs].
  unfold has_key in Hk. rewrite existsb_eqb_in, Hdecs, orbit_keys in Hk.
  destruct Hk as [p0 [Hp0 Hx]].
  exists (filter (fun p => orbit_elem Nx Ny (lead bf) (fst p) (snd p) =? dec) (visited Nx Ny)).
  split; [rewrite Hdecs; apply (orbit_lookup _ _ p0 Hp0 Hx)|]. split; [reflexivity|].
  rewrite Hx, locs_sum_fiber, cabs2_cmul, cabs2_phase_arr, Rmult_1_l by assumption.
  intros H0. apply Hn. rewrite (norm_coeff_orbit kx ky (lead bf) bf Hd Hdecs), H0, Rmult_0_r, sqrt_0.
  unfold tol. lra.
Qed.

End Action.

Lemma cabs2_normalize (z : cplx) : cabs2 z <> 0%R -> cabs2 (cdiv_real z (cabs z)) = 1%R.
Proof.
  destruct z as [a b]. unfold cdiv_real, cabs, cabs2. cbn [fst snd]. intros Hz.
  assert (Hp : (0 <= a * a + b * b)%R) by nra.
  pose proof (sqrt_sqrt _ Hp) as Hr.
  set (r := sqrt (a * a + b * b)) in *.
  assert (Hr0 : r <> 0%R) by (intros E; rewrite E in Hr; lra).
  replace (a / r * (a / r) + b / r * (b / r))%R with ((a * a + b * b) / (r * r))%R
    by (field; exact Hr0).
  rewrite Hr. field. exact Hz.
Qed.


(** C6: for positive lattice dimensions and a product state [dec] with
    [0 <= dec < 2^(Nx*Ny)], exactly one orbit [bf] of [zero_momentum_states]
    has [dec] as a key, and [_find_leading_state] raises [NotFound] exactly
    when the norm of [bf] in the sector [(kx, ky)] is below [1e-8];
    otherwise it returns [bf] together with the conjugated, normalised sum
    of [exp(2 pi i ky row / Ny) * exp(2 pi i kx col / Nx)] over the positions
    [(row, col)] at which the sweep of [bf] visits [dec], and that phase has
    modulus 1. *)
Theorem find_leading_state_spec (Nx Ny : nat) (kx ky dec : Z) :
  (1 <= Nx)%nat -> (1 <= Ny)%nat -> in_range Nx Ny dec ->
  exists bf, In bf (zero_momentum_states Nx Ny) /\ has_key dec (decs bf) = true /\
    (forall bf', In bf' (zero_momentum_states Nx Ny) -> has_key dec (decs bf') = true -> bf' = bf) /\
    (find_leading_state Nx Ny kx ky dec = inl NotFoundError <-> (norm_coeff bf Nx Ny kx ky < tol)%R) /\
    (~ (norm_coeff bf Nx Ny kx ky < tol)%R ->
     exists locs,
       locs = filter (fun p => orbit_elem Nx Ny (lead bf) (fst p) (snd p) =? dec) (visited Nx Ny) /\
       find_leading_state Nx Ny kx ky dec
       = inr (bf, cdiv_real (cconj (locs_sum Nx Ny kx ky locs)) (cabs (cconj (locs_sum Nx Ny kx ky locs)))) /\
       cabs2 (cdiv_real (cconj (locs_sum Nx Ny kx ky locs)) (cabs (cconj (locs_sum Nx Ny kx ky locs)))) = 1%R).
Proof.
  intros HNx HNy Hdec.
  destruct (zms_lookup Nx Ny HNx HNy dec Hdec) as [bf [Hlk Hf]].
  assert (Hin : In bf (filter (fun bf => has_key dec (decs bf)) (zero_momentum_states Nx Ny)))
    by (rewrite Hf; left; reflexivity).
  apply filter_In in Hin. destruct Hin as [Hbf Hk].
  exists bf. split; [exact Hbf|]. split; [exact Hk|]. split.
  { intros bf' Hbf' Hk'.
    assert (H' : In bf' (filter (fun bf => has_key dec (decs bf)) (zero_momentum_states Nx Ny)))
      by (apply filter_In; auto).
    rewrite Hf in H'. destruct H' as [<-|[]]. reflexivity. }
  unfold find_leading_state. rewrite Hlk. split.
  - destruct (Rlt_dec _ _) as [Hl|Hl]; [tauto|].
    split; [|intros; contradiction].
    destruct (dict_lookup dec (decs bf)); discriminate.
  - intros Hn.
    destruct (kept_locs_sum Nx Ny HNx HNy kx ky bf dec Hbf Hk Hn) as [locs [Hl [Hlocs Hs]]].
    exists locs. split; [exact Hlocs|].
    destruct (Rlt_dec _ _) as [Hl'|_]; [contradiction|]. rewrite Hl. split; [reflexivity|].
    apply cabs2_normalize. rewrite cabs2_cconj. exact Hs.
Qed.

Lemma find_leading_state_spec_witness :
  exists bf, In bf (zero_momentum_states 2 1) /\ has_key 1 (decs bf) = true /\
    (forall bf', In bf' (zero_momentum_states 2 1) -> has_key 1 (decs bf') = true -> bf' = bf) /\
    (find_leading_state 2 1 1 0 1 = inl NotFoundError <-> (norm_coeff bf 2 1 1 0 < tol)%R) /\
    (~ (norm_coeff bf 2 1 1 0 < tol)%R ->
     exists locs,
       locs = filter (fun p => orbit_elem 2 1 (lead bf) (fst p) (snd p) =? 1) (visited 2 1) /\
       find_leading_state 2 1 1 0 1
       = inr (bf, cdiv_real (cconj (locs_sum 2 1 1 0 locs)) (cabs (cconj (locs_sum 2 1 1 0 locs)))) /\
       cabs2 (cdiv_real (cconj (locs_sum 2 1 1 0 locs)) (cabs (cconj (locs_sum 2 1 1 0 locs)))) = 1%R).
Proof.
  apply (find_leading_state_spec 2 1 1 0 1); [lia|lia|unfold in_range; simpl; lia].
Defined.

(** C8: for positive lattice dimensions and a full Brillouin zone
    [kx0 .. kx0 + Nx - 1] x [ky0 .. ky0 + Ny - 1], the sizes of the reduced
    bases of the sectors of the zone add up to the number of states of all
    orbits (the keys of their [decs]), which is [2^(Nx*Ny)]; the number of
    states of an orbit is [Nx * Ny] divided by the number of positions at
    which its sweep visits its leading state. *)
Theorem brillouin_zone_basis_count (Nx Ny : nat) (kx0 ky0 : Z) :
  (1 <= Nx)%nat -> (1 <= Ny)%nat ->
  list_sum (map (fun k => length (reduced_basis Nx Ny (fst k) (snd k))) (brillouin_zone Nx Ny kx0 ky0))
  = list_sum (map (fun bf => length (decs bf)) (zero_momentum_states Nx Ny)) /\
  list_sum (map (fun bf => length (decs bf)) (zero_momentum_states Nx Ny)) = (2 ^ (Nx * Ny))%nat /\
  (forall bf, In bf (zero_momentum_states Nx Ny) ->
   exists locs, dict_lookup (lead bf) (decs bf) = Some locs /\
     length (decs bf) = ((Nx * Ny) / length locs)%nat).
Proof.
  intros HNx HNy. split; [apply zone_total; assumption|].
  split; [apply orbits_total; assumption|].
  intros bf Hbf. destruct (orbit_lead_locs Nx Ny HNx HNy bf Hbf) as [locs [Hl Hm]].
  exists locs. split; [exact Hl|]. rewrite <- Hm, Nat.div_mul; [reflexivity|].
  intros E. rewrite E in Hm. nia.
Qed.

Lemma brillouin_zone_basis_count_witness :
  list_sum (map (fun k => length (reduced_basis 2 2 (fst k) (snd k))) (brillouin_zone 2 2 0 0))
  = list_sum (map (fun bf => length (decs bf)) (zero_momentum_states 2 2)) /\
  list_sum (map (fun bf => length (decs bf)) (zero_momentum_states 2 2)) = (2 ^ (2 * 2))%nat /\
  (forall bf, In bf (zero_momentum_states 2 2) ->
   exists locs, dict_lookup (lead bf) (decs bf) = Some locs /\
     length (decs bf) = ((2 * 2) / length locs)%nat).
Proof. apply (brillouin_zone_basis_count 2 2 0 0); lia. Defined.

(** Counterexample to C8 as stated, reading the period of an orbit as its
    number of distinct states: on the 2 x 1 lattice the orbits are [{0}],
    [{1, 2}] and [{3}], of periods 1, 2 and 1, so the sum over the orbits of
    [Nx * Ny / period] is 5, while the reduced bases of the zone [kx = 0, 1]
    have 4 states in all, which is [2 ^ (2 * 1)]. *)
Lemma brillouin_zone_period_law_fails :
  list_sum (map (fun k => length (reduced_basis 2 1 (fst k) (snd k))) (brillouin_zone 2 1 0 0))
  = 4%nat /\
  list_sum (map (fun bf => ((2 * 1) / length (decs bf))%nat) (zero_momentum_states 2 1)) = 5%nat /\
  (2 ^ (2 * 1))%nat = 4%nat.
Proof.
  split; [|split; [vm_compute; reflexivity|reflexivity]].
  rewrite (zone_total 2 1 ltac:(lia) ltac:(lia)). vm_compute. reflexivity.
Qed.

(** ** Spin flips on one-bit masks *)

Lemma land_pow2_0 (x a : Z) : 0 <= a -> Z.testbit x a = false -> Z.land x (2 ^ a) = 0.
Proof.
  intros Ha Hx. apply Z.bits_inj'. intros n Hn.
  rewrite Z.land_spec, Z.pow2_bits_eqb, Z.bits_0 by exact Ha.
  destruct (Z.eqb_spec a n) as [<-|_]; [rewrite Hx; reflexivity|apply andb_false_r].
Qed.

Lemma add_pow2_setbit (x a : Z) : 0 <= a -> Z.testbit x a = false -> x + 2 ^ a = Z.setbit x a.
Proof.
  intros Ha Hx. rewrite Z.setbit_spec', Z.add_nocarry_lxor, Z.lxor_lor; try reflexivity;
  apply land_pow2_0; assumption.
Qed.

Lemma sub_pow2_clearbit (x a : Z) : 0 <= a -> Z.testbit x a = true -> x - 2 ^ a = Z.clearbit x a.
Proof.
  intros Ha Hx.
  assert (Hc : Z.testbit (Z.clearbit x a) a = false)
    by (rewrite Z.clearbit_eqb, Z.eqb_refl; apply andb_false_r).
  assert (E : Z.clearbit x a + 2 ^ a = x).
  { rewrite add_pow2_setbit by assumption. apply Z.bits_inj'. intros n Hn.
    rewrite Z.setbit_eqb, Z.clearbit_eqb by assumption.
    destruct (Z.eqb_spec a n) as [<-|_]; [rewrite Hx; reflexivity|].
    rewrite andb_true_r. reflexivity. }
  lia.
Qed.

Lemma lt_pow2_bits (N y : Z) :
  0 <= N -> 0 <= y -> (forall i, N <= i -> Z.testbit y i = false) -> y < 2 ^ N.
Proof.
  intros HN Hy Hb.
  assert (E : y = y mod 2 ^ N).
  { apply Z.bits_inj'. intros n Hn. destruct (Z.lt_ge_cases n N).
    - rewrite Z.mod_pow2_bits_low by lia. reflexivity.
    - rewrite Z.mod_pow2_bits_high by lia. apply Hb; lia. }
  rewrite E. apply Z.mod_pos_bound. apply Z.pow_pos_nonneg; lia.
Qed.

Lemma pow2_le_of_bit (x a : Z) : 0 <= x -> 0 <= a -> Z.testbit x a = true -> 2 ^ a <= x.
Proof.
  intros Hx Ha Hb. destruct (Z.lt_ge_cases x (2 ^ a)) as [Hl|Hl]; [|exact Hl].
  rewrite (testbit_small_high x a a) in Hb by lia. discriminate.
Qed.

Lemma setbit_range (N x a : Z) :
  0 <= x < 2 ^ N -> 0 <= a < N -> 0 <= Z.setbit x a < 2 ^ N.
Proof.
  intros Hx Ha. assert (0 <= Z.setbit x a).
  { destruct (Z.testbit x a) eqn:Hb.
    - replace (Z.setbit x a) with x; [lia|].
      apply Z.bits_inj'. intros n _. rewrite Z.setbit_eqb by lia.
      destruct (Z.eqb_spec a n) as [<-|_]; [rewrite Hb|]; reflexivity.
    - rewrite <- add_pow2_setbit by (lia || exact Hb). pose proof (Z.pow_nonneg 2 a). lia. }
  split; [assumption|]. apply lt_pow2_bits; [lia|assumption|].
  intros i Hi. rewrite Z.setbit_eqb by lia.
  rewrite (testbit_small_high x N i) by lia.
  destruct (Z.eqb_spec a i); [lia|reflexivity].
Qed.

Lemma clearbit_range (N x a : Z) :
  0 <= N -> 0 <= x < 2 ^ N -> 0 <= a -> 0 <= Z.clearbit x a < 2 ^ N.
Proof.
  intros HN Hx Ha. assert (0 <= Z.clearbit x a).
  { destruct (Z.testbit x a) eqn:Hb.
    - rewrite <- sub_pow2_clearbit by assumption.
      pose proof (pow2_le_of_bit x a ltac:(lia) Ha Hb). lia.
    - replace (Z.clearbit x a) with x; [lia|].
      apply Z.bits_inj'. intros n _. rewrite Z.clearbit_eqb.
      destruct (Z.eqb_spec a n) as [<-|_]; [rewrite Hb|rewrite andb_true_r]; reflexivity. }
  split; [assumption|]. apply lt_pow2_bits; [lia|assumption|].
  intros i Hi. rewrite Z.clearbit_eqb.
  rewrite (testbit_small_high x N i) by lia. reflexivity.
Qed.

Lemma count_update (l : list Z) (g g' : Z -> bool) (b : Z) :
  NoDup l -> In b l -> g b = false -> g' b = true -> (forall i, i <> b -> g' i = g i) ->
  length (filter g' l) = S (length (filter g l)).
Proof.
  intros Hnd Hin Hg Hg' Ho. induction l as [|x l IH]; [destruct Hin|].
  inversion Hnd as [|? ? Hx Hnd']; subst. simpl.
  destruct Hin as [->|Hin].
  - rewrite Hg, Hg'. simpl. f_equal. f_equal.
    apply filter_ext_in. intros i Hi. apply Ho. intros ->. contradiction.
  - rewrite (Ho x) by (intros ->; contradiction).
    destruct (g x); simpl; rewrite IH by assumption; reflexivity.
Qed.

Lemma popcount_setbit (N : nat) (x a : Z) :
  0 <= x < 2 ^ Z.of_nat N -> 0 <= a < Z.of_nat N -> Z.testbit x a = false ->
  popcount (Z.setbit x a) = S (popcount x).
Proof.
  intros Hx Ha Hb.
  rewrite (popcount_bits N (Z.setbit x a)) by (apply setbit_range; assumption).
  rewrite (popcount_bits N x) by assumption.
  apply (count_update _ _ _ a); [apply zseq_NoDup|apply in_zseq; lia|exact Hb| |].
  - rewrite Z.setbit_eqb, Z.eqb_refl by lia. reflexivity.
  - intros i Hi. destruct (Z.le_gt_cases 0 i).
    + rewrite Z.setbit_eqb by lia. destruct (Z.eqb_spec a i); [congruence|reflexivity].
    + rewrite !Z.testbit_neg_r by lia. reflexivity.
Qed.

Lemma popcount_clearbit (N : nat) (x a : Z) :
  0 <= x < 2 ^ Z.of_nat N -> 0 <= a < Z.of_nat N -> Z.testbit x a = true ->
  S (popcount (Z.clearbit x a)) = popcount x.
Proof.
  intros Hx Ha Hb.
  rewrite (popcount_bits N (Z.clearbit x a)) by (apply clearbit_range; lia).
  rewrite (popcount_bits N x) by assumption.
  symmetry. apply (count_update _ _ _ a); [apply zseq_NoDup|apply in_zseq; lia| |exact Hb|].
  - rewrite Z.clearbit_eqb, Z.eqb_refl. apply andb_false_r.
  - intros i Hi. rewrite Z.clearbit_eqb. destruct (Z.eqb_spec a i); [congruence|].
    symmetry. apply andb_true_r.
Qed.

Lemma testbit_setbit_other (x a i : Z) : 0 <= a -> a <> i -> Z.testbit (Z.setbit x a) i = Z.testbit x i.
Proof.
  intros Ha Hai. destruct (Z.le_gt_cases 0 i).
  - rewrite Z.setbit_eqb by lia. destruct (Z.eqb_spec a i); [congruence|reflexivity].
  - rewrite !Z.testbit_neg_r by lia. reflexivity.
Qed.

Lemma testbit_clearbit_other (x a i : Z) : a <> i -> Z.testbit (Z.clearbit x a) i = Z.testbit x i.
Proof.
  intros Hai. rewrite Z.clearbit_eqb. destruct (Z.eqb_spec a i); [congruence|]. apply andb_true_r.
Qed.

Lemma flip_down (N : nat) (x : Z) (a : nat) :
  0 <= x < 2 ^ Z.of_nat N -> (a < N)%nat -> Z.testbit x (Z.of_nat a) = true ->
  0 <= x - 2 ^ Z.of_nat a < 2 ^ Z.of_nat N /\
  S (popcount (x - 2 ^ Z.of_nat a)) = popcount x /\
  (forall i, Z.testbit (x - 2 ^ Z.of_nat a) i = if i =? Z.of_nat a then false else Z.testbit x i).
Proof.
  intros Hx Ha Hb. rewrite sub_pow2_clearbit by (lia || exact Hb).
  split; [apply clearbit_range; lia|]. split; [apply (popcount_clearbit N); lia || exact Hb|].
  intros i. destruct (Z.eqb_spec i (Z.of_nat a)) as [->|Hi].
  - rewrite Z.clearbit_eqb, Z.eqb_refl. apply andb_false_r.
  - apply testbit_clearbit_other. congruence.
Qed.

Lemma flip_up (N : nat) (x : Z) (a : nat) :
  0 <= x < 2 ^ Z.of_nat N -> (a < N)%nat -> Z.testbit x (Z.of_nat a) = false ->
  0 <= x + 2 ^ Z.of_nat a < 2 ^ Z.of_nat N /\
  popcount (x + 2 ^ Z.of_nat a) = S (popcount x) /\
  (forall i, 0 <= i -> Z.testbit (x + 2 ^ Z.of_nat a) i = if i =? Z.of_nat a then true else Z.testbit x i).
Proof.
  intros Hx Ha Hb. rewrite add_pow2_setbit by (lia || exact Hb).
  split; [apply setbit_range; lia|]. split; [apply (popcount_setbit N); lia || exact Hb|].
  intros i Hi. destruct (Z.eqb_spec i (Z.of_nat a)) as [->|Hi'].
  - rewrite Z.setbit_eqb, Z.eqb_refl by lia. reflexivity.
  - apply testbit_setbit_other; lia.
Qed.

(** Moving an up spin from site [a] to site [b]: the state stays in range,
    keeps its number of up spins, and only sites [a] and [b] change. *)
Lemma flip_move (N : nat) (x : Z) (a b : nat) :
  0 <= x < 2 ^ Z.of_nat N -> (a < N)%nat -> (b < N)%nat ->
  Z.testbit x (Z.of_nat a) = true -> Z.testbit x (Z.of_nat b) = false ->
  0 <= x - 2 ^ Z.of_nat a + 2 ^ Z.of_nat b < 2 ^ Z.of_nat N /\
  popcount (x - 2 ^ Z.of_nat a + 2 ^ Z.of_nat b) = popcount x /\
  (forall i, 0 <= i -> Z.testbit (x - 2 ^ Z.of_nat a + 2 ^ Z.of_nat b) i =
     if i =? Z.of_nat a then false else if i =? Z.of_nat b then true else Z.testbit x i).
Proof.
  intros Hx Ha Hb Hta Htb.
  assert (Hab : a <> b) by (intros ->; congruence).
  destruct (flip_down N x a Hx Ha Hta) as [Hr1 [Hp1 Hb1]].
  assert (Htb' : Z.testbit (x - 2 ^ Z.of_nat a) (Z.of_nat b) = false).
  { rewrite Hb1. destruct (Z.eqb_spec (Z.of_nat b) (Z.of_nat a)); [lia|exact Htb]. }
  destruct (flip_up N _ b Hr1 Hb Htb') as [Hr2 [Hp2 Hb2]].
  split; [exact Hr2|]. split; [lia|].
  intros i Hi. rewrite Hb2 by exact Hi. rewrite Hb1.
  destruct (Z.eqb_spec i (Z.of_nat a)), (Z.eqb_spec i (Z.of_nat b)); try reflexivity; lia.
Qed.

(** ** Python dicts *)

Lemma py_setitem_keys {V : Type} (k j : nat) (v : V) (d : list (nat * V)) :
  In k (map fst (py_setitem Nat.eqb j v d)) <-> k = j \/ In k (map fst d).
Proof.
  induction d as [|[k' v'] d IH]; simpl; [intuition congruence|].
  destruct (Nat.eqb_spec j k') as [->|_]; simpl; rewrite ?IH; intuition congruence.
Qed.

Lemma py_setitem_NoDup {V : Type} (j : nat) (v : V) (d : list (nat * V)) :
  NoDup (map fst d) -> NoDup (map fst (py_setitem Nat.eqb j v d)).
Proof.
  induction d as [|[k' v'] d IH]; simpl; intros Hd; [constructor; [intros []|constructor]|].
  inversion Hd as [|? ? Hk Hd']; subst.
  destruct (Nat.eqb_spec j k') as [->|Hne]; simpl; constructor; auto.
  rewrite py_setitem_keys. intros [->|H]; [congruence|contradiction].
Qed.

Lemma j_add_keys (k j : nat) (c : cplx) (d : jdict) :
  In k (map fst (j_add j c d)) <-> k = j \/ In k (map fst d).
Proof. unfold j_add. destruct (py_getitem _ _ _); apply py_setitem_keys. Qed.

Lemma j_add_NoDup (j : nat) (c : cplx) (d : jdict) :
  NoDup (map fst d) -> NoDup (map fst (j_add j c d)).
Proof. unfold j_add. destruct (py_getitem _ _ _); apply py_setitem_NoDup. Qed.

Lemma py_setitem_fresh {V : Type} (k : Z) (v : V) (d : list (Z * V)) :
  ~ In k (map fst d) -> py_setitem Z.eqb k v d = d ++ [(k, v)].
Proof.
  induction d as [|[k' v'] d IH]; simpl; intros Hk; [reflexivity|].
  destruct (Z.eqb_spec k k'); [exfalso; apply Hk; left; congruence|].
  rewrite IH by tauto. reflexivity.
Qed.

Lemma py_dict_zip_fold {V : Type} (ks : list Z) (vs : list V) (d : list (Z * V)) :
  NoDup ks -> (forall k, In k ks -> ~ In k (map fst d)) ->
  fold_left (fun d kv => py_setitem Z.eqb (fst kv) (snd kv) d) (combine ks vs) d
  = d ++ combine ks vs.
Proof.
  revert vs d. induction ks as [|k ks IH]; intros vs d Hnd Hfr; simpl.
  - rewrite app_nil_r. reflexivity.
  - destruct vs as [|v vs]; simpl; [rewrite app_nil_r; reflexivity|].
    inversion Hnd as [|? ? Hk Hnd']; subst.
    rewrite py_setitem_fresh by (apply Hfr; left; reflexivity).
    rewrite IH; [rewrite <- app_assoc; reflexivity|exact Hnd'|].
    intros k' Hk'. rewrite map_app, in_app_iff. simpl. intros [H|[H|[]]].
    + exact (Hfr k' (or_intror Hk') H).
    + subst. contradiction.
Qed.

Lemma py_getitem_combine_seq (ks : list Z) (s j : nat) (k : Z) :
  NoDup ks -> nth_error ks j = Some k ->
  py_getitem Z.eqb k (combine ks (seq s (length ks))) = Some (s + j)%nat.
Proof.
  revert s j. induction ks as [|k0 ks IH]; intros s j Hnd Hj; [destruct j; discriminate|].
  inversion Hnd as [|? ? Hk Hnd']; subst. simpl.
  destruct j as [|j]; simpl in Hj.
  - injection Hj as ->. rewrite Z.eqb_refl. f_equal. lia.
  - destruct (Z.eqb_spec k k0) as [->|_].
    + exfalso. apply Hk. eapply nth_error_In. exact Hj.
    + rewrite (IH (S s) j Hnd' Hj). f_equal. lia.
Qed.

Lemma py_getitem_combine_seq_inv (ks : list Z) (s v : nat) (k : Z) :
  py_getitem Z.eqb k (combine ks (seq s (length ks))) = Some v ->
  exists j, v = (s + j)%nat /\ nth_error ks j = Some k.
Proof.
  revert s. induction ks as [|k0 ks IH]; intros s H; [discriminate|]. simpl in H.
  destruct (Z.eqb_spec k k0) as [->|_].
  - injection H as <-. exists 0%nat. split; [lia|reflexivity].
  - destruct (IH (S s) H) as [j [-> Hj]]. exists (S j). split; [lia|exact Hj].
Qed.

Lemma in_combine_map {A B C : Type} (f : A -> B) (g : A -> C) (l : list A) (s : B * C) :
  In s (combine (map f l) (map g l)) -> exists a, In a l /\ s = (f a, g a).
Proof.
  induction l as [|a l IH]; simpl; [intros []|]. intros [<-|H].
  - exists a. auto.
  - destruct (IH H) as [a' [Ha' ->]]. exists a'. auto.
Qed.

Lemma fold_lbind_inv {A : Type} (P : jdict -> Prop) (f : A -> jdict -> lookup_error + jdict)
    (l : list A) (je : jdict) :
  P je -> (forall s je, In s l -> P je -> exists je', f s je = inr je' /\ P je') ->
  exists je', fold_left (fun acc s => lbind acc (f s)) l (inr je) = inr je' /\ P je'.
Proof.
  revert je. induction l as [|s l IH]; simpl; intros je Hje Hf; [eauto|].
  destruct (Hf s je (or_introl eq_refl) Hje) as [je' [E Hje']]. rewrite E. simpl.
  apply IH; [exact Hje'|]. intros; apply Hf; auto.
Qed.

(** ** The matrix elements of a sector *)

Section Sector.

Variables Nx Ny : nat.
Hypothesis HNx : (1 <= Nx)%nat.
Hypothesis HNy : (1 <= Ny)%nat.
Variables kx ky : Z.

Local Abbreviation basis := (reduced_basis Nx Ny kx ky).

Lemma reduced_sorted : StronglySorted (fun x y => lead x < lead y) basis.
Proof.
  unfold reduced_basis, nonzero_states. apply filter_strongly_sorted.
  apply sorted_strict; [|apply zms_leads; assumption|apply zms_owners_le1; assumption].
  unfold zero_momentum_states. destruct (fold_left _ _ _). apply sort_by_lead_sorted.
Qed.

Lemma reduced_leads_NoDup : NoDup (map lead basis).
Proof.
  pose proof reduced_sorted as Hs. induction Hs as [|b l Hs IH Hall]; simpl; constructor; auto.
  rewrite in_map_iff. intros [b' [Heq Hb']]. rewrite Forall_forall in Hall.
  specialize (Hall b' Hb'). lia.
Qed.

Lemma dec_to_ind_spec (d : Z) (j : nat) :
  py_getitem Z.eqb d (dec_to_ind Nx Ny kx ky) = Some j <->
  exists bf, nth_error basis j = Some bf /\ lead bf = d.
Proof.
  unfold dec_to_ind, py_dict_zip. cbv zeta.
  rewrite py_dict_zip_fold by (apply reduced_leads_NoDup || (intros; simpl; tauto)).
  simpl. split.
  - intros H. destruct (py_getitem_combine_seq_inv _ 0 j d H) as [j' [-> Hj]].
    rewrite nth_error_map in Hj. destruct (nth_error basis j') as [bf|] eqn:E; [|discriminate].
    injection Hj as <-. exists bf. split; [exact E|reflexivity].
  - intros [bf [Hj <-]]. apply (py_getitem_combine_seq _ 0 j); [apply reduced_leads_NoDup|].
    rewrite nth_error_map, Hj. reflexivity.
Qed.

Lemma basis_in_zms (bf : BlochFunc) : In bf basis -> In bf (zero_momentum_states Nx Ny).
Proof. unfold reduced_basis, nonzero_states. rewrite filter_In. tauto. Qed.

Lemma zms_norm_zero (bf : BlochFunc) :
  In bf (zero_momentum_states Nx Ny) -> norm_gt_tol Nx Ny kx ky bf = false ->
  norm_coeff bf Nx Ny kx ky = 0%R.
Proof.
  intros Hbf Hg. pose proof (zms_shape Nx Ny HNx HNy) as Hs. rewrite Forall_forall in Hs.
  destruct (Hs bf Hbf) as [Hd Hdecs].
  rewrite (norm_coeff_orbit Nx Ny HNx HNy kx ky (lead bf) bf Hd Hdecs).
  rewrite (stab_sum_norm Nx Ny HNx HNy kx ky (lead bf) bf Hd Hdecs), Hg.
  rewrite cabs2_czero, Rmult_0_r. apply sqrt_0.
Qed.

Lemma zms_norm_ge1 (bf : BlochFunc) :
  In bf (zero_momentum_states Nx Ny) -> norm_gt_tol Nx Ny kx ky bf = true ->
  (1 <= norm_coeff bf Nx Ny kx ky)%R.
Proof.
  intros Hbf Hg. pose proof (zms_shape Nx Ny HNx HNy) as Hs. rewrite Forall_forall in Hs.
  destruct (Hs bf Hbf) as [Hd Hdecs].
  rewrite (norm_coeff_orbit Nx Ny HNx HNy kx ky (lead bf) bf Hd Hdecs).
  rewrite (stab_sum_norm Nx Ny HNx HNy kx ky (lead bf) bf Hd Hdecs), Hg.
  pose proof (le_INR _ _ (odict_length_pos Nx Ny HNx HNy (lead bf) Hd)) as H1.
  pose proof (le_INR _ _ (stabilizer_pos Nx Ny HNx HNy (lead bf))) as H2. simpl INR in H1, H2.
  rewrite <- sqrt_1. apply sqrt_le_1_alt. unfold cabs2. cbn [fst snd]. nra.
Qed.

Lemma key_popcount (bf : BlochFunc) (x : Z) :
  In bf (zero_momentum_states Nx Ny) -> has_key x (decs bf) = true ->
  in_range Nx Ny x /\ popcount x = popcount (lead bf).
Proof.
  intros Hbf Hk. pose proof (zms_shape Nx Ny HNx HNy) as Hs. rewrite Forall_forall in Hs.
  destruct (Hs bf Hbf) as [Hd Hdecs].
  rewrite Hdecs, orbit_has_key, existsb_eqb_in in Hk.
  split; [exact (orbit_members_range Nx Ny HNx HNy _ _ Hd Hk)|].
  apply (in_orbit_members Nx Ny HNx HNy) in Hk. destruct Hk as [n [m [_ [_ ->]]]].
  apply orbit_elem_popcount; assumption.
Qed.

Lemma fls_out_of_range (dec : Z) :
  ~ in_range Nx Ny dec -> find_leading_state Nx Ny kx ky dec = inl KeyError.
Proof.
  intros Hr. unfold find_leading_state, hashtable_lookup.
  destruct (find _ _) as [bf|] eqn:E; [|reflexivity].
  apply find_some in E. destruct E as [Hbf Hk].
  exfalso. apply Hr. exact (proj1 (key_popcount bf dec Hbf Hk)).
Qed.

Lemma fls_in_range (dec : Z) : in_range Nx Ny dec ->
  find_leading_state Nx Ny kx ky dec = inl NotFoundError \/
  exists bf phase j, find_leading_state Nx Ny kx ky dec = inr (bf, phase) /\
    nth_error basis j = Some bf /\ has_key dec (decs bf) = true /\
    py_getitem Z.eqb (lead bf) (dec_to_ind Nx Ny kx ky) = Some j.
Proof.
  intros Hdec. destruct (zms_lookup Nx Ny HNx HNy dec Hdec) as [bf [Hlk Hf]].
  assert (Hin : In bf (filter (fun bf => has_key dec (decs bf)) (zero_momentum_states Nx Ny)))
    by (rewrite Hf; left; reflexivity).
  apply filter_In in Hin. destruct Hin as [Hbf Hk].
  unfold find_leading_state. rewrite Hlk.
  destruct (Rlt_dec _ _) as [Hl|Hn]; [left; reflexivity|right].
  destruct (kept_locs_sum Nx Ny HNx HNy kx ky bf dec Hbf Hk Hn) as [locs [Hl _]].
  rewrite Hl.
  assert (Hg : norm_gt_tol Nx Ny kx ky bf = true).
  { destruct (norm_gt_tol Nx Ny kx ky bf) eqn:E; [reflexivity|].
    exfalso. apply Hn. rewrite (zms_norm_zero bf Hbf E). unfold tol; lra. }
  assert (Hb : In bf basis) by (apply filter_In; split; assumption).
  apply In_nth_error in Hb. destruct Hb as [j Hj].
  do 3 eexists. split; [reflexivity|]. split; [exact Hj|]. split; [exact Hk|].
  apply dec_to_ind_spec. exists bf. split; [exact Hj|reflexivity].
Qed.

Lemma connect_inv (orig : BlochFunc) (new_dec : Z) (w : cplx -> cplx) (Good : nat -> Prop)
    (je : jdict) :
  in_range Nx Ny new_dec ->
  (forall j bf, nth_error basis j = Some bf -> popcount (lead bf) = popcount new_dec -> Good j) ->
  NoDup (map fst je) /\ (forall j, In j (map fst je) -> Good j) ->
  exists je', connect Nx Ny kx ky orig new_dec w je = inr je' /\
    NoDup (map fst je') /\ (forall j, In j (map fst je') -> Good j).
Proof.
  intros Hr HG [Hnd Hk]. unfold connect.
  destruct (fls_in_range new_dec Hr) as [E|[bf [ph [j [E [Hj [Hkey Hidx]]]]]]]; rewrite E.
  - exists je. auto.
  - rewrite Hidx. eexists. split; [reflexivity|]. split; [apply j_add_NoDup; exact Hnd|].
    intros k Hk'. apply j_add_keys in Hk'. destruct Hk' as [->|Hk']; [|auto].
    apply (HG j bf Hj). symmetry.
    apply (key_popcount bf new_dec); [|exact Hkey].
    apply basis_in_zms. eapply nth_error_In. exact Hj.
Qed.

Lemma basis_index (i : nat) :
  (i < length basis)%nat ->
  exists orig, nth_error basis i = Some orig /\ in_range Nx Ny (lead orig).
Proof.
  intros Hi. destruct (nth_error basis i) as [orig|] eqn:E.
  - exists orig. split; [reflexivity|].
    pose proof (zms_shape Nx Ny HNx HNy) as Hs. rewrite Forall_forall in Hs.
    apply (Hs orig). apply basis_in_zms. eapply nth_error_In. exact E.
  - apply nth_error_None in E. lia.
Qed.

End Sector.

Lemma flip_both_down (N : nat) (x : Z) (a b : nat) :
  0 <= x < 2 ^ Z.of_nat N -> (a < N)%nat -> (b < N)%nat -> a <> b ->
  Z.testbit x (Z.of_nat a) = true -> Z.testbit x (Z.of_nat b) = true ->
  0 <= x - 2 ^ Z.of_nat a - 2 ^ Z.of_nat b < 2 ^ Z.of_nat N /\
  S (S (popcount (x - 2 ^ Z.of_nat a - 2 ^ Z.of_nat b))) = popcount x.
Proof.
  intros Hx Ha Hb Hab Hta Htb.
  destruct (flip_down N x a Hx Ha Hta) as [Hr1 [Hp1 Hb1]].
  assert (Htb' : Z.testbit (x - 2 ^ Z.of_nat a) (Z.of_nat b) = true).
  { rewrite Hb1. destruct (Z.eqb_spec (Z.of_nat b) (Z.of_nat a)); [lia|exact Htb]. }
  destruct (flip_down N _ b Hr1 Hb Htb') as [Hr2 [Hp2 _]].
  split; [exact Hr2|]. lia.
Qed.

Lemma flip_both_up (N : nat) (x : Z) (a b : nat) :
  0 <= x < 2 ^ Z.of_nat N -> (a < N)%nat -> (b < N)%nat -> a <> b ->
  Z.testbit x (Z.of_nat a) = false -> Z.testbit x (Z.of_nat b) = false ->
  0 <= x + 2 ^ Z.of_nat a + 2 ^ Z.of_nat b < 2 ^ Z.of_nat N /\
  popcount (x + 2 ^ Z.of_nat a + 2 ^ Z.of_nat b) = S (S (popcount x)).
Proof.
  intros Hx Ha Hb Hab Hta Htb.
  destruct (flip_up N x a Hx Ha Hta) as [Hr1 [Hp1 Hb1]].
  assert (Htb' : Z.testbit (x + 2 ^ Z.of_nat a) (Z.of_nat b) = false).
  { rewrite Hb1 by lia. destruct (Z.eqb_spec (Z.of_nat b) (Z.of_nat a)); [lia|exact Htb]. }
  destruct (flip_up N _ b Hr1 Hb Htb') as [Hr2 [Hp2 _]].
  split; [exact Hr2|]. lia.
Qed.

Lemma H_pm_elements_ok (Nx Ny : nat) (kx ky : Z) (bonds : list (nat * nat)) (i : nat) :
  (1 <= Nx)%nat -> (1 <= Ny)%nat ->
  Forall (fun b => fst b < Nx * Ny /\ snd b < Nx * Ny)%nat bonds ->
  (i < length (reduced_basis Nx Ny kx ky))%nat ->
  exists orig_state j_element,
    ind_to_dec (norm_gt_tol Nx Ny kx ky) Nx Ny i = Some orig_state /\
    H_pm_elements Nx Ny kx ky bonds i = inr j_element /\
    NoDup (map fst j_element) /\
    forall j, In j (map fst j_element) ->
      (j < length (reduced_basis Nx Ny kx ky))%nat /\
      exists cntd_state, ind_to_dec (norm_gt_tol Nx Ny kx ky) Nx Ny j = Some cntd_state /\
        popcount (lead cntd_state) = popcount (lead orig_state).
Proof.
  intros HNx HNy Hb Hi.
  destruct (basis_index Nx Ny HNx HNy kx ky i Hi) as [orig [Ho Hr]].
  exists orig. unfold H_pm_elements, ind_to_dec. fold (reduced_basis Nx Ny kx ky).
  rewrite Ho. unfold interacting_sites. cbv iota beta.
  match goal with
  | |- exists je, _ = Some orig /\ fold_left ?f ?l (inr []) = inr je /\ _ =>
      cut (exists je, fold_left f l (inr []) = inr je /\ NoDup (map fst je) /\
             forall j, In j (map fst je) -> (j < length (reduced_basis Nx Ny kx ky))%nat /\
               exists bf, nth_error (reduced_basis Nx Ny kx ky) j = Some bf /\
                 popcount (lead bf) = popcount (lead orig))
  end.
  { intros [je [E Hje]]. exists je. split; [reflexivity|]. split; [exact E|exact Hje]. }
  apply (fold_lbind_inv (fun je => NoDup (map fst je) /\
      forall j, In j (map fst je) -> (j < length (reduced_basis Nx Ny kx ky))%nat /\
        exists bf, nth_error (reduced_basis Nx Ny kx ky) j = Some bf /\
          popcount (lead bf) = popcount (lead orig))).
  - split; [constructor|intros j []].
  - intros s je Hs Hje. apply in_combine_map in Hs. destruct Hs as [[a b] [Hab ->]].
    cbn [fst snd]. rewrite Forall_forall in Hb. destruct (Hb _ Hab) as [Ha Hb'].
    cbn [fst snd] in Ha, Hb'.
    assert (HG : forall new_dec, popcount new_dec = popcount (lead orig) ->
      forall j bf, nth_error (reduced_basis Nx Ny kx ky) j = Some bf ->
        popcount (lead bf) = popcount new_dec ->
        (j < length (reduced_basis Nx Ny kx ky))%nat /\
        exists bf, nth_error (reduced_basis Nx Ny kx ky) j = Some bf /\
          popcount (lead bf) = popcount (lead orig)).
    { intros nd Hnd j bf Hj Hp. split; [apply nth_error_Some; congruence|].
      exists bf. split; [exact Hj|congruence]. }
    unfold exchange_spin_flips. rewrite !lor_mask_eqb.
    destruct (Z.testbit (lead orig) (Z.of_nat a)) eqn:Ea,
             (Z.testbit (lead orig) (Z.of_nat b)) eqn:Eb; cbn [andb orb negb].
    + exists je. split; [reflexivity|exact Hje].
    + destruct (flip_move (Nx * Ny) (lead orig) a b Hr Ha Hb' Ea Eb) as [Hr' [Hp _]].
      apply (connect_inv Nx Ny HNx HNy); [exact Hr'|apply HG; exact Hp|exact Hje].
    + replace (lead orig + 2 ^ Z.of_nat a - 2 ^ Z.of_nat b)
        with (lead orig - 2 ^ Z.of_nat b + 2 ^ Z.of_nat a) by ring.
      destruct (flip_move (Nx * Ny) (lead orig) b a Hr Hb' Ha Eb Ea) as [Hr' [Hp _]].
      apply (connect_inv Nx Ny HNx HNy); [exact Hr'|apply HG; exact Hp|exact Hje].
    + exists je. split; [reflexivity|exact Hje].
Qed.

Lemma H_ppmm_elements_ok (gamma : Z -> Z -> cplx) (Nx Ny : nat) (kx ky : Z)
    (bonds : list (nat * nat)) (i : nat) :
  (1 <= Nx)%nat -> (1 <= Ny)%nat ->
  Forall (fun b => fst b < Nx * Ny /\ snd b < Nx * Ny /\ fst b <> snd b)%nat bonds ->
  (i < length (reduced_basis Nx Ny kx ky))%nat ->
  exists orig_state j_element,
    ind_to_dec (norm_gt_tol Nx Ny kx ky) Nx Ny i = Some orig_state /\
    H_ppmm_elements gamma Nx Ny kx ky bonds i = inr j_element /\
    NoDup (map fst j_element) /\
    forall j, In j (map fst j_element) ->
      (j < length (reduced_basis Nx Ny kx ky))%nat /\
      exists cntd_state, ind_to_dec (norm_gt_tol Nx Ny kx ky) Nx Ny j = Some cntd_state /\
        (popcount (lead cntd_state) + 2 = popcount (lead orig_state) \/
         popcount (lead cntd_state) = popcount (lead orig_state) + 2)%nat.
Proof.
  intros HNx HNy Hb Hi.
  destruct (basis_index Nx Ny HNx HNy kx ky i Hi) as [orig [Ho Hr]].
  exists orig. unfold H_ppmm_elements, ind_to_dec. fold (reduced_basis Nx Ny kx ky).
  rewrite Ho. unfold interacting_sites. cbv iota beta.
  match goal with
  | |- exists je, _ = Some orig /\ fold_left ?f ?l (inr []) = inr je /\ _ =>
      cut (exists je, fold_left f l (inr []) = inr je /\ NoDup (map fst je) /\
             forall j, In j (map fst je) -> (j < length (reduced_basis Nx Ny kx ky))%nat /\
               exists bf, nth_error (reduced_basis Nx Ny kx ky) j = Some bf /\
                 (popcount (lead bf) + 2 = popcount (lead orig) \/
                  popcount (lead bf) = popcount (lead orig) + 2)%nat)
  end.
  { intros [je [E Hje]]. exists je. split; [reflexivity|]. split; [exact E|exact Hje]. }
  apply (fold_lbind_inv (fun je => NoDup (map fst je) /\
      forall j, In j (map fst je) -> (j < length (reduced_basis Nx Ny kx ky))%nat /\
        exists bf, nth_error (reduced_basis Nx Ny kx ky) j = Some bf /\
          (popcount (lead bf) + 2 = popcount (lead orig) \/
           popcount (lead bf) = popcount (lead orig) + 2)%nat)).
  - split; [constructor|intros j []].
  - intros s je Hs Hje. apply in_combine_map in Hs. destruct Hs as [[a b] [Hab ->]].
    cbn [fst snd]. rewrite Forall_forall in Hb. destruct (Hb _ Hab) as [Ha [Hb' Hne]].
    cbn [fst snd] in Ha, Hb', Hne.
    assert (HG : forall new_dec,
      (popcount new_dec + 2 = popcount (lead orig) \/
       popcount new_dec = popcount (lead orig) + 2)%nat ->
      forall j bf, nth_error (reduced_basis Nx Ny kx ky) j = Some bf ->
        popcount (lead bf) = popcount new_dec ->
        (j < length (reduced_basis Nx Ny kx ky))%nat /\
        exists bf, nth_error (reduced_basis Nx Ny kx ky) j = Some bf /\
          (popcount (lead bf) + 2 = popcount (lead orig) \/
           popcount (lead bf) = popcount (lead orig) + 2)%nat).
    { intros nd Hnd j bf Hj Hp. split; [apply nth_error_Some; congruence|].
      exists bf. split; [exact Hj|]. rewrite Hp. exact Hnd. }
    unfold repeated_spins. rewrite !lor_mask_eqb.
    destruct (Z.testbit (lead orig) (Z.of_nat a)) eqn:Ea,
             (Z.testbit (lead orig) (Z.of_nat b)) eqn:Eb; cbn [andb orb negb]; cbv iota beta.
    + destruct (flip_both_down (Nx * Ny) (lead orig) a b Hr Ha Hb' Hne Ea Eb) as [Hr' Hp].
      apply (connect_inv Nx Ny HNx HNy); [exact Hr'|apply HG; lia|exact Hje].
    + exists je. split; [reflexivity|exact Hje].
    + exists je. split; [reflexivity|exact Hje].
    + destruct (flip_both_up (Nx * Ny) (lead orig) a b Hr Ha Hb' Hne Ea Eb) as [Hr' Hp].
      apply (connect_inv Nx Ny HNx HNy); [exact Hr'|apply HG; lia|exact Hje].
Qed.

Lemma pmz_step_inv (gamma : Z -> Z -> cplx) (Nx Ny : nat) (kx ky : Z) (orig : BlochFunc)
    (a b : nat) (je : jdict) :
  (1 <= Nx)%nat -> (1 <= Ny)%nat -> in_range Nx Ny (lead orig) ->
  (a < Nx * Ny)%nat -> (b < Nx * Ny)%nat ->
  NoDup (map fst je) /\ (forall j, In j (map fst je) ->
    (j < length (reduced_basis Nx Ny kx ky))%nat /\
    exists bf, nth_error (reduced_basis Nx Ny kx ky) j = Some bf /\
      (popcount (lead bf) + 1 = popcount (lead orig) \/
       popcount (lead bf) = popcount (lead orig) + 1)%nat) ->
  exists je', pmz_step gamma Nx Ny kx ky orig (2 ^ Z.of_nat a) (2 ^ Z.of_nat b) je = inr je' /\
    NoDup (map fst je') /\ (forall j, In j (map fst je') ->
    (j < length (reduced_basis Nx Ny kx ky))%nat /\
    exists bf, nth_error (reduced_basis Nx Ny kx ky) j = Some bf /\
      (popcount (lead bf) + 1 = popcount (lead orig) \/
       popcount (lead bf) = popcount (lead orig) + 1)%nat).
Proof.
  intros HNx HNy Hr Ha Hb Hje.
  assert (HG : forall new_dec,
    (popcount new_dec + 1 = popcount (lead orig) \/
     popcount new_dec = popcount (lead orig) + 1)%nat ->
    forall j bf, nth_error (reduced_basis Nx Ny kx ky) j = Some bf ->
      popcount (lead bf) = popcount new_dec ->
      (j < length (reduced_basis Nx Ny kx ky))%nat /\
      exists bf, nth_error (reduced_basis Nx Ny kx ky) j = Some bf /\
        (popcount (lead bf) + 1 = popcount (lead orig) \/
         popcount (lead bf) = popcount (lead orig) + 1)%nat).
  { intros nd Hnd j bf Hj Hp. split; [apply nth_error_Some; congruence|].
    exists bf. split; [exact Hj|]. rewrite Hp. exact Hnd. }
  unfold pmz_step. rewrite !lor_mask_eqb.
  destruct (Z.testbit (lead orig) (Z.of_nat b)) eqn:Eb; cbv iota beta zeta.
  - destruct (flip_down (Nx * Ny) (lead orig) b Hr Hb Eb) as [Hr' [Hp _]].
    apply (connect_inv Nx Ny HNx HNy); [exact Hr'|apply HG; lia|exact Hje].
  - destruct (flip_up (Nx * Ny) (lead orig) b Hr Hb Eb) as [Hr' [Hp _]].
    apply (connect_inv Nx Ny HNx HNy); [exact Hr'|apply HG; lia|exact Hje].
Qed.

Lemma H_pmz_elements_ok (gamma : Z -> Z -> cplx) (Nx Ny : nat) (kx ky : Z)
    (bonds : list (nat * nat)) (i : nat) :
  (1 <= Nx)%nat -> (1 <= Ny)%nat ->
  Forall (fun b => fst b < Nx * Ny /\ snd b < Nx * Ny)%nat bonds ->
  (i < length (reduced_basis Nx Ny kx ky))%nat ->
  exists orig_state j_element,
    ind_to_dec (norm_gt_tol Nx Ny kx ky) Nx Ny i = Some orig_state /\
    H_pmz_elements gamma Nx Ny kx ky bonds i = inr j_element /\
    NoDup (map fst j_element) /\
    forall j, In j (map fst j_element) ->
      (j < length (reduced_basis Nx Ny kx ky))%nat /\
      exists cntd_state, ind_to_dec (norm_gt_tol Nx Ny kx ky) Nx Ny j = Some cntd_state /\
        (popcount (lead cntd_state) + 1 = popcount (lead orig_state) \/
         popcount (lead cntd_state) = popcount (lead orig_state) + 1)%nat.
Proof.
  intros HNx HNy Hb Hi.
  destruct (basis_index Nx Ny HNx HNy kx ky i Hi) as [orig [Ho Hr]].
  exists orig. unfold H_pmz_elements, ind_to_dec. fold (reduced_basis Nx Ny kx ky).
  rewrite Ho. unfold interacting_sites. cbv iota beta.
  match goal with
  | |- exists je, _ = Some orig /\ fold_left ?f ?l (inr []) = inr je /\ _ =>
      cut (exists je, fold_left f l (inr []) = inr je /\ NoDup (map fst je) /\
             forall j, In j (map fst je) -> (j < length (reduced_basis Nx Ny kx ky))%nat /\
               exists bf, nth_error (reduced_basis Nx Ny kx ky) j = Some bf /\
                 (popcount (lead bf) + 1 = popcount (lead orig) \/
                  popcount (lead bf) = popcount (lead orig) + 1)%nat)
  end.
  { intros [je [E Hje]]. exists je. split; [reflexivity|]. split; [exact E|exact Hje]. }
  apply (fold_lbind_inv (fun je => NoDup (map fst je) /\
      forall j, In j (map fst je) -> (j < length (reduced_basis Nx Ny kx ky))%nat /\
        exists bf, nth_error (reduced_basis Nx Ny kx ky) j = Some bf /\
          (popcount (lead bf) + 1 = popcount (lead orig) \/
           popcount (lead bf) = popcount (lead orig) + 1)%nat)).
  - split; [constructor|intros j []].
  - intros s je Hs Hje. apply in_combine_map in Hs. destruct Hs as [[a b] [Hab ->]].
    cbn [fst snd]. rewrite Forall_forall in Hb. destruct (Hb _ Hab) as [Ha Hb'].
    cbn [fst snd] in Ha, Hb'.
    destruct (pmz_step_inv gamma Nx Ny kx ky orig a b je HNx HNy Hr Ha Hb' Hje) as [je1 [E1 H1]].
    rewrite E1. cbn [lbind].
    exact (pmz_step_inv gamma Nx Ny kx ky orig b a je1 HNx HNy Hr Hb' Ha H1).
Qed.

Lemma offdiag_fold (func : nat -> lookup_error + jdict) (P : nat -> nat -> Prop)
    (m s : nat) (entries : list (nat * nat * cplx)) :
  (forall i, (s <= i < s + m)%nat -> exists je, func i = inr je /\ NoDup (map fst je) /\
     forall j, In j (map fst je) -> P i j) ->
  NoDup (map fst entries) -> (forall r c v, In (r, c, v) entries -> (r < s)%nat /\ P r c) ->
  exists entries',
    fold_left (fun acc i => lbind acc (fun entries =>
        lbind (func i) (fun j_elements =>
          inr (entries ++ map (fun je => (i, fst je, snd je)) j_elements))))
      (seq s m) (inr entries) = inr entries' /\
    NoDup (map fst entries') /\
    (forall r c v, In (r, c, v) entries' -> (r < s + m)%nat /\ P r c).
Proof.
  revert s entries. induction m as [|m IH]; intros s entries Hf Hnd Hin; simpl.
  - exists entries. split; [reflexivity|]. split; [exact Hnd|].
    intros r c v H. destruct (Hin r c v H). split; [lia|assumption].
  - destruct (Hf s ltac:(lia)) as [je [E [Hje HP]]]. rewrite E. simpl.
    destruct (IH (S s) (entries ++ map (fun je => (s, fst je, snd je)) je)) as [e' [E' [H1 H2]]].
    + intros i Hi. apply Hf. lia.
    + rewrite map_app, map_map. cbn [fst]. apply NoDup_app; [exact Hnd| |].
      * rewrite <- (map_map fst (fun j => (s, j))).
        apply Injective_map_NoDup; [intros x y H; injection H; auto|exact Hje].
      * intros [r c] Hrc Hrc'. apply in_map_iff in Hrc. destruct Hrc as [[[r' c'] v] [Heq Hrc]].
        cbn [fst] in Heq. injection Heq as -> ->.
        apply in_map_iff in Hrc'. destruct Hrc' as [x [Heq _]]. injection Heq as <- _.
        destruct (Hin _ _ _ Hrc). lia.
    + intros r c v H. apply in_app_iff in H. destruct H as [H|H].
      * destruct (Hin r c v H). split; [lia|assumption].
      * apply in_map_iff in H. destruct H as [x [Heq Hx]]. injection Heq as <- <- _.
        split; [lia|]. apply HP. apply in_map. exact Hx.
    + exists e'. split; [exact E'|]. split; [exact H1|].
      intros r c v H. destruct (H2 r c v H). split; [lia|assumption].
Qed.

Lemma offdiag_of_elements (Nx Ny : nat) (kx ky : Z) (func : nat -> lookup_error + jdict)
    (rel : nat -> nat -> Prop) :
  (forall i, (i < length (reduced_basis Nx Ny kx ky))%nat ->
   exists orig je, ind_to_dec (norm_gt_tol Nx Ny kx ky) Nx Ny i = Some orig /\
     func i = inr je /\ NoDup (map fst je) /\
     forall j, In j (map fst je) -> (j < length (reduced_basis Nx Ny kx ky))%nat /\
       exists bc, ind_to_dec (norm_gt_tol Nx Ny kx ky) Nx Ny j = Some bc /\
         rel (popcount (lead bc)) (popcount (lead orig))) ->
  exists entries, offdiag_components Nx Ny kx ky func = inr entries /\
    NoDup (map fst entries) /\
    forall r c v, In (r, c, v) entries ->
      (r < length (reduced_basis Nx Ny kx ky) /\ c < length (reduced_basis Nx Ny kx ky))%nat /\
      exists br bc, ind_to_dec (norm_gt_tol Nx Ny kx ky) Nx Ny r = Some br /\
        ind_to_dec (norm_gt_tol Nx Ny kx ky) Nx Ny c = Some bc /\
        rel (popcount (lead bc)) (popcount (lead br)).
Proof.
  intros Hf. unfold offdiag_components.
  destruct (offdiag_fold func (fun r c => (c < length (reduced_basis Nx Ny kx ky))%nat /\
      exists br bc, ind_to_dec (norm_gt_tol Nx Ny kx ky) Nx Ny r = Some br /\
        ind_to_dec (norm_gt_tol Nx Ny kx ky) Nx Ny c = Some bc /\
        rel (popcount (lead bc)) (popcount (lead br)))
      (length (reduced_basis Nx Ny kx ky)) 0 []) as [e [E [Hnd Hin]]].
  - intros i Hi. destruct (Hf i ltac:(lia)) as [orig [je [Ho [Hje [Hnd Hk]]]]].
    exists je. split; [exact Hje|]. split; [exact Hnd|].
    intros j Hj. destruct (Hk j Hj) as [Hjn [bc [Hc Hr]]]. split; [exact Hjn|].
    exists orig, bc. auto.
  - constructor.
  - intros r c v [].
  - exists e. split; [exact E|]. split; [exact Hnd|].
    intros r c v H. destruct (Hin r c v H) as [Hr [Hc Hx]]. auto.
Qed.

Lemma dict_lookup_some_in (k : Z) (vs : list (nat * nat)) (d : posdict) :
  dict_lookup k d = Some vs -> In (k, vs) d.
Proof.
  induction d as [|[k' vs'] d IH]; simpl; [discriminate|].
  destruct (Z.eqb_spec k k') as [->|_]; [intros H; injection H as ->; left; reflexivity|].
  intros H. right. exact (IH H).
Qed.


Lemma ind_to_dec_out (Nx Ny : nat) (kx ky : Z) (i : nat) :
  (length (reduced_basis Nx Ny kx ky) <= i)%nat ->
  ind_to_dec (norm_gt_tol Nx Ny kx ky) Nx Ny i = None.
Proof. intros Hi. unfold ind_to_dec. apply nth_error_None. exact Hi. Qed.

Lemma diag_fold (func : nat -> option Q) (m : nat) (data : list Q) :
  (forall i, (length data <= i < length data + m)%nat -> func i <> None) ->
  exists data',
    fold_left (fun acc i =>
      match acc with
      | None => None
      | Some data => match func i with
                     | None => None
                     | Some x => Some (data ++ [x])
                     end
      end) (seq (length data) m) (Some data) = Some data' /\
    length data' = (length data + m)%nat /\
    (forall i, (i < length data)%nat -> nth_error data' i = nth_error data i) /\
    (forall i, (length data <= i < length data + m)%nat -> nth_error data' i = func i).
Proof.
  revert data. induction m as [|m IH]; intros data Hf; simpl.
  - exists data. split; [reflexivity|]. split; [lia|]. split; [reflexivity|]. intros i Hi. lia.
  - destruct (func (length data)) as [x|] eqn:E; [|exfalso; apply (Hf (length data)); [lia|exact E]].
    assert (Hl : length (data ++ [x]) = S (length data)) by (rewrite length_app; simpl; lia).
    destruct (IH (data ++ [x])) as [d' [E' [H1 [H2 H3]]]].
    + intros i Hi. apply Hf. lia.
    + rewrite Hl in E'. exists d'. split; [exact E'|]. split; [lia|]. split.
      * intros i Hi. rewrite H2 by lia. apply nth_error_app1. exact Hi.
      * intros i Hi. destruct (Nat.eq_dec i (length data)) as [->|Hne].
        -- rewrite H2 by lia. rewrite nth_error_app2, Nat.sub_diag by lia. simpl. congruence.
        -- apply H3. lia.
Qed.

Lemma H_z_elements_bound (keep : BlochFunc -> bool) (Nx Ny : nat) (bonds : list (nat * nat))
    (i : nat) (h : Q) :
  H_z_elements keep Nx Ny bonds i = Some h ->
  (- inject_Z (Z.of_nat (length bonds)) * (1 # 4) <= h <=
   inject_Z (Z.of_nat (length bonds)) * (1 # 4))%Q.
Proof.
  unfold H_z_elements, interacting_sites.
  destruct (ind_to_dec keep Nx Ny i) as [st|]; [|discriminate].
  cbv beta iota. intros H. injection H as <-.
  pose proof (same_dir_count (lead st) bonds 0) as Hc.
  unfold interacting_sites in Hc. cbn [fst snd] in Hc.
  set (F := fold_left _ _ 0%Z).
  assert (HF : F = 0 + Z.of_nat (length (filter (fun b : nat * nat =>
        Bool.eqb (Z.testbit (lead st) (Z.of_nat (fst b)))
                 (Z.testbit (lead st) (Z.of_nat (snd b)))) bonds)))
    by (rewrite <- Hc; reflexivity).
  rewrite HF, length_map.
  destruct (filter_negb_length (fun b : nat * nat =>
        Bool.eqb (Z.testbit (lead st) (Z.of_nat (fst b)))
                 (Z.testbit (lead st) (Z.of_nat (snd b)))) bonds) as [_ Hle].
  set (p := length (filter _ bonds)) in *.
  unfold Qle, Qmult, Qopp, inject_Z. cbn [Qnum Qden]. split; lia.
Qed.

(** ** Extra properties of the code *)



(** X2: for a product state [dec] of the [Nx * Ny] lattice, [translate_y]
    gives again a product state of the lattice, and its spin at row [r],
    column [c] is the spin of [dec] at row [(r + 1) mod Ny], column [c]:
    the rows move down by one, periodically. *)
Theorem translate_y_moves_rows (dec : Z) (Nx Ny r c : nat) :
  in_range Nx Ny dec -> (r < Ny)%nat -> (c < Nx)%nat ->
  in_range Nx Ny (translate_y dec Nx Ny) /\
  Z.testbit (translate_y dec Nx Ny) (Z.of_nat (r * Nx + c))
  = Z.testbit dec (Z.of_nat ((r + 1) mod Ny * Nx + c)).
Proof.
  intros Hd Hr Hc. destruct (translate_y_spec dec Nx Ny ltac:(lia) Hd) as [Hrange Hbits].
  split; [exact Hrange|]. rewrite Hbits by lia.
  destruct (Z.ltb_spec (Z.of_nat (r * Nx + c)) (Z.of_nat (Nx * Ny))) as [_|H]; [|exfalso; nia].
  cbn [andb]. f_equal.
  destruct (Nat.eq_dec (r + 1) Ny) as [E|E].
  - rewrite E, Nat.Div0.mod_same. simpl.
    replace (Z.of_nat (r * Nx + c) + Z.of_nat Nx) with (Z.of_nat c + 1 * Z.of_nat (Nx * Ny)) by nia.
    rewrite Z.mod_add, Z.mod_small; lia.
  - rewrite Nat.mod_small by lia. rewrite Z.mod_small by nia. lia.
Qed.

Lemma translate_y_moves_rows_witness :
  in_range 3 2 (translate_y 6 3 2) /\
  Z.testbit (translate_y 6 3 2) (Z.of_nat (1 * 3 + 2)) = Z.testbit 6 (Z.of_nat ((1 + 1) mod 2 * 3 + 2)).
Proof. apply (translate_y_moves_rows 6 3 2 1 2); [unfold in_range; simpl; lia|lia|lia]. Defined.

(** X3: on the product states of a lattice with [Nx, Ny >= 1] and at most
    62 sites, where the [int64] arrays of [_translate_x_aux] do not
    overflow, [translate_x] and [translate_y] commute. *)
Theorem translations_commute (dec : Z) (Nx Ny : nat) :
  (1 <= Nx)%nat -> (1 <= Ny)%nat -> (Nx * Ny <= 62)%nat -> in_range Nx Ny dec ->
  translate_x (translate_y dec Nx Ny) Nx Ny = translate_y (translate_x dec Nx Ny) Nx Ny.
Proof.
  intros HNx HNy HN Hd. rewrite !translate_x_int64_exact by assumption.
  apply translate_xy_comm; assumption.
Qed.

Lemma translations_commute_witness :
  translate_x (translate_y 11 3 2) 3 2 = translate_y (translate_x 11 3 2) 3 2.
Proof. apply (translations_commute 11 3 2); [lia|lia|lia|unfold in_range; simpl; lia]. Defined.

(** X4: every state [x] reached by the sweep of [find_T_invariant_set]
    from [dec] sweeps the same set of states as [dec] itself. *)
Theorem orbit_members_same (Nx Ny : nat) (dec x : Z) :
  (1 <= Nx)%nat -> (1 <= Ny)%nat -> in_range Nx Ny dec ->
  In x (orbit_members Nx Ny dec) ->
  forall y, In y (orbit_members Nx Ny x) <-> In y (orbit_members Nx Ny dec).
Proof.
  intros HNx HNy Hd Hx y.
  pose proof (in_orbit_members Nx Ny HNx HNy dec x) as Hx'. apply Hx' in Hx.
  destruct Hx as [n [m [Hn [Hm ->]]]].
  rewrite !(in_orbit_members Nx Ny HNx HNy). split.
  - intros [a [b [Ha [Hb ->]]]].
    rewrite (orbit_elem_add Nx Ny HNx HNy dec a b n m Hd).
    rewrite (orbit_elem_mod Nx Ny HNy dec) by exact Hd.
    exists ((a + n) mod Ny)%nat, ((b + m) mod Nx)%nat.
    split; [apply Nat.mod_upper_bound; lia|]. split; [apply Nat.mod_upper_bound; lia|reflexivity].
  - intros [a [b [Ha [Hb ->]]]].
    assert (Hinv := orbit_elem_inv Nx Ny HNx HNy dec (n, m) Hd
                      (proj2 (in_visited Nx Ny HNx HNy n m) (conj Hn Hm))).
    cbn [fst snd] in Hinv.
    assert (Hr : in_range Nx Ny (orbit_elem Nx Ny dec n m)) by (apply orbit_elem_range; assumption).
    assert (E : orbit_elem Nx Ny dec a b
                = orbit_elem Nx Ny (orbit_elem Nx Ny (orbit_elem Nx Ny dec n m) (Ny - n) (Nx - m)) a b)
      by (rewrite Hinv; reflexivity).
    rewrite E, (orbit_elem_add Nx Ny HNx HNy _ a b (Ny - n) (Nx - m) Hr).
    rewrite (orbit_elem_mod Nx Ny HNy _) by exact Hr.
    exists ((a + (Ny - n)) mod Ny)%nat, ((b + (Nx - m)) mod Nx)%nat.
    split; [apply Nat.mod_upper_bound; lia|]. split; [apply Nat.mod_upper_bound; lia|reflexivity].
Qed.

Lemma orbit_members_same_witness :
  In 4 (orbit_members 3 1 2) <-> In 4 (orbit_members 3 1 1).
Proof.
  refine (orbit_members_same 3 1 1 2 _ _ _ _ 4); [lia|lia|unfold in_range; simpl; lia|].
  vm_compute. tauto.
Defined.

(** X5: for a product state [dec] of the lattice, [find_T_invariant_set]
    returns an orbit led by [dec] whose keys are exactly the states of the
    sweep from [dec], and a sieve equal to the old one except that every
    state of the sweep is cleared. *)
Theorem find_T_invariant_set_effect (Nx Ny : nat) (dec : Z) (sieve : sieve_t) :
  (1 <= Ny)%nat -> in_range Nx Ny dec ->
  lead (fst (find_T_invariant_set Nx Ny dec sieve)) = dec /\
  (forall x, has_key x (decs (fst (find_T_invariant_set Nx Ny dec sieve))) = true <->
     In x (orbit_members Nx Ny dec)) /\
  (forall y, snd (find_T_invariant_set Nx Ny dec sieve) y
     = sieve y && negb (existsb (Z.eqb y) (orbit_members Nx Ny dec))).
Proof.
  intros HNy Hd. split; [|split].
  - rewrite (find_T_invariant_set_spec Nx Ny HNy dec sieve Hd). reflexivity.
  - intros x. apply find_T_invariant_set_keys; assumption.
  - intros y. rewrite (find_T_invariant_set_spec Nx Ny HNy dec sieve Hd).
    cbn [snd]. apply sieve_clear_all_spec.
Qed.

Lemma find_T_invariant_set_effect_witness :
  lead (fst (find_T_invariant_set 2 1 1 (fun _ => true))) = 1 /\
  (forall x, has_key x (decs (fst (find_T_invariant_set 2 1 1 (fun _ => true)))) = true <->
     In x (orbit_members 2 1 1)) /\
  (forall y, snd (find_T_invariant_set 2 1 1 (fun _ => true)) y
     = true && negb (existsb (Z.eqb y) (orbit_members 2 1 1))).
Proof. apply (find_T_invariant_set_effect 2 1 1 (fun _ => true)); [lia|unfold in_range; simpl; lia]. Defined.

(** X6: in the orbit built by [find_T_invariant_set] from a product state
    [dec], the positions stored under a key [x] are exactly the positions
    [(n, m)] of the sweep ([n < Ny], [m < Nx]) at which the sweep reaches
    [x]; every key has the same number of positions, and the number of keys
    times that number is [Nx * Ny]. *)
Theorem find_T_invariant_set_positions (Nx Ny : nat) (dec : Z) (sieve : sieve_t)
    (x : Z) (locs : list (nat * nat)) :
  (1 <= Nx)%nat -> (1 <= Ny)%nat -> in_range Nx Ny dec ->
  dict_lookup x (decs (fst (find_T_invariant_set Nx Ny dec sieve))) = Some locs ->
  (forall n m, In (n, m) locs <-> (n < Ny /\ m < Nx)%nat /\ orbit_elem Nx Ny dec n m = x) /\
  (length (decs (fst (find_T_invariant_set Nx Ny dec sieve))) * length locs = Nx * Ny)%nat.
Proof.
  intros HNx HNy Hd Hl.
  rewrite (find_T_invariant_set_spec Nx Ny HNy dec sieve Hd) in Hl |- *. cbn [fst decs] in Hl |- *.
  apply dict_lookup_some_in in Hl.
  destruct (orbit_entry Nx Ny dec x locs Hl) as [p0 [Hp0 [Hx ->]]]. split.
  - intros n m. rewrite filter_In, (in_visited Nx Ny HNx HNy), Z.eqb_eq. cbn [fst snd]. tauto.
  - subst x. rewrite (fiber_length Nx Ny HNx HNy dec p0 Hd Hp0).
    apply (orbit_stabilizer Nx Ny HNx HNy dec Hd).
Qed.

Lemma find_T_invariant_set_positions_witness :
  (forall n m, In (n, m) [(0%nat, 1%nat)] <-> (n < 1 /\ m < 2)%nat /\ orbit_elem 2 1 1 n m = 2) /\
  (length (decs (fst (find_T_invariant_set 2 1 1 (fun _ => true)))) * length [(0%nat, 1%nat)]
   = 2 * 1)%nat.
Proof.
  apply (find_T_invariant_set_positions 2 1 1 (fun _ => true) 2 [(0%nat, 1%nat)]);
    [lia|lia|unfold in_range; simpl; lia|vm_compute; reflexivity].
Defined.

(** X7: [_find_leading_state] raises [KeyError] exactly for the integers
    that are not product states of the lattice; for a product state it
    raises [NotFoundError] or returns an orbit that contains the state, is
    the orbit at some index [j] of [ind_to_dec], and whose lead [dec_to_ind]
    maps to that same [j], so the lookup [dec_to_ind[cntd_state.lead]] of
    the element builders never fails. *)
Theorem find_leading_state_errors (Nx Ny : nat) (kx ky dec : Z) :
  (1 <= Nx)%nat -> (1 <= Ny)%nat ->
  (find_leading_state Nx Ny kx ky dec = inl KeyError <-> ~ in_range Nx Ny dec) /\
  (in_range Nx Ny dec ->
   find_leading_state Nx Ny kx ky dec = inl NotFoundError \/
   exists cntd_state phase j,
     find_leading_state Nx Ny kx ky dec = inr (cntd_state, phase) /\
     has_key dec (decs cntd_state) = true /\
     ind_to_dec (norm_gt_tol Nx Ny kx ky) Nx Ny j = Some cntd_state /\
     py_getitem Z.eqb (lead cntd_state) (dec_to_ind Nx Ny kx ky) = Some j).
Proof.
  intros HNx HNy. split; [split|].
  - intros HK Hr. destruct (fls_in_range Nx Ny HNx HNy kx ky dec Hr)
      as [E|[bf [ph [j [E _]]]]]; rewrite HK in E; discriminate.
  - apply fls_out_of_range; assumption.
  - intros Hr. destruct (fls_in_range Nx Ny HNx HNy kx ky dec Hr)
      as [E|[bf [ph [j [E [Hj [Hk Hi]]]]]]]; [left; exact E|right].
    exists bf, ph, j. auto.
Qed.

Lemma find_leading_state_errors_witness :
  (find_leading_state 2 1 0 0 5 = inl KeyError <-> ~ in_range 2 1 5) /\
  (in_range 2 1 5 ->
   find_leading_state 2 1 0 0 5 = inl NotFoundError \/
   exists cntd_state phase j,
     find_leading_state 2 1 0 0 5 = inr (cntd_state, phase) /\
     has_key 5 (decs cntd_state) = true /\
     ind_to_dec (norm_gt_tol 2 1 0 0) 2 1 j = Some cntd_state /\
     py_getitem Z.eqb (lead cntd_state) (dec_to_ind 2 1 0 0) = Some j).
Proof. apply (find_leading_state_errors 2 1 0 0 5); lia. Defined.

(** X8: for every orbit of [zero_momentum_states] and every momentum
    sector, the norm test [norm > 1e-8] separates a norm of exactly [0]
    (test false) from a norm of at least [1] (test true): no norm lies in
    between. *)
Theorem norm_threshold_gap (Nx Ny : nat) (kx ky : Z) (bf : BlochFunc) :
  (1 <= Nx)%nat -> (1 <= Ny)%nat -> In bf (zero_momentum_states Nx Ny) ->
  (norm_gt_tol Nx Ny kx ky bf = false /\ norm_coeff bf Nx Ny kx ky = 0%R) \/
  (norm_gt_tol Nx Ny kx ky bf = true /\ (1 <= norm_coeff bf Nx Ny kx ky)%R).
Proof.
  intros HNx HNy Hbf. destruct (norm_gt_tol Nx Ny kx ky bf) eqn:E.
  - right. split; [reflexivity|]. apply (zms_norm_ge1 Nx Ny HNx HNy); assumption.
  - left. split; [reflexivity|]. apply (zms_norm_zero Nx Ny HNx HNy); assumption.
Qed.

Lemma norm_threshold_gap_witness :
  let bf := mkBlochFunc 1 [(1, [(0%nat, 0%nat)]); (2, [(0%nat, 1%nat)])] in
  (norm_gt_tol 2 1 1 0 bf = false /\ norm_coeff bf 2 1 1 0 = 0%R) \/
  (norm_gt_tol 2 1 1 0 bf = true /\ (1 <= norm_coeff bf 2 1 1 0)%R).
Proof.
  apply (norm_threshold_gap 2 1 1 0); [lia|lia|].
  apply (nth_error_In _ 1). vm_compute. reflexivity.
Defined.

(** X9: the two maps of [_gen_ind_dec_conv_dicts] are inverse: [dec_to_ind]
    maps [d] to [j] exactly when [ind_to_dec] has at index [j] the orbit
    led by [d]. *)
Theorem index_maps_inverse (Nx Ny : nat) (kx ky : Z) :
  (1 <= Nx)%nat -> (1 <= Ny)%nat ->
  forall d j, py_getitem Z.eqb d (dec_to_ind Nx Ny kx ky) = Some j <->
    exists bf, ind_to_dec (norm_gt_tol Nx Ny kx ky) Nx Ny j = Some bf /\ lead bf = d.
Proof. intros HNx HNy d j. apply (dec_to_ind_spec Nx Ny HNx HNy kx ky). Qed.

Lemma index_maps_inverse_witness :
  py_getitem Z.eqb 1 (dec_to_ind 2 2 1 0) = Some 0%nat <->
    exists bf, ind_to_dec (norm_gt_tol 2 2 1 0) 2 2 0 = Some bf /\ lead bf = 1.
Proof. exact (index_maps_inverse 2 2 1 0 ltac:(lia) ltac:(lia) 1 0). Defined.

(** X10: for two sites [a], [b] of an [N]-site state [dec] and their masks
    [2 ** a], [2 ** b], [_exchange_spin_flips] reports [updown] exactly when
    [a] is up and [b] is down, [downup] in the opposite case; the flipped
    state [dec - s1 + s2] of [updown] (and [dec + s1 - s2] of [downup]) is
    again an [N]-site state with the same number of up spins, in which only
    the spins at [a] and [b] are exchanged. *)
Theorem exchange_spin_flips_move (N : nat) (dec : Z) (a b : nat) :
  0 <= dec < 2 ^ Z.of_nat N -> (a < N)%nat -> (b < N)%nat ->
  exchange_spin_flips dec (2 ^ Z.of_nat a) (2 ^ Z.of_nat b)
  = (Z.testbit dec (Z.of_nat a) && negb (Z.testbit dec (Z.of_nat b)),
     negb (Z.testbit dec (Z.of_nat a)) && Z.testbit dec (Z.of_nat b)) /\
  (fst (exchange_spin_flips dec (2 ^ Z.of_nat a) (2 ^ Z.of_nat b)) = true ->
   0 <= dec - 2 ^ Z.of_nat a + 2 ^ Z.of_nat b < 2 ^ Z.of_nat N /\
   popcount (dec - 2 ^ Z.of_nat a + 2 ^ Z.of_nat b) = popcount dec /\
   forall i, 0 <= i -> Z.testbit (dec - 2 ^ Z.of_nat a + 2 ^ Z.of_nat b) i =
     if i =? Z.of_nat a then false else if i =? Z.of_nat b then true else Z.testbit dec i) /\
  (snd (exchange_spin_flips dec (2 ^ Z.of_nat a) (2 ^ Z.of_nat b)) = true ->
   0 <= dec + 2 ^ Z.of_nat a - 2 ^ Z.of_nat b < 2 ^ Z.of_nat N /\
   popcount (dec + 2 ^ Z.of_nat a - 2 ^ Z.of_nat b) = popcount dec /\
   forall i, 0 <= i -> Z.testbit (dec + 2 ^ Z.of_nat a - 2 ^ Z.of_nat b) i =
     if i =? Z.of_nat b then false else if i =? Z.of_nat a then true else Z.testbit dec i).
Proof.
  intros Hd Ha Hb.
  assert (E : exchange_spin_flips dec (2 ^ Z.of_nat a) (2 ^ Z.of_nat b)
    = (Z.testbit dec (Z.of_nat a) && negb (Z.testbit dec (Z.of_nat b)),
       negb (Z.testbit dec (Z.of_nat a)) && Z.testbit dec (Z.of_nat b)))
    by (unfold exchange_spin_flips; rewrite !lor_mask_eqb; reflexivity).
  split; [exact E|]. rewrite E. cbn [fst snd]. split.
  - intros H. apply andb_prop in H. destruct H as [Hta Htb]. apply negb_true_iff in Htb.
    exact (flip_move N dec a b Hd Ha Hb Hta Htb).
  - intros H. apply andb_prop in H. destruct H as [Hta Htb]. apply negb_true_iff in Hta.
    replace (dec + 2 ^ Z.of_nat a - 2 ^ Z.of_nat b)
      with (dec - 2 ^ Z.of_nat b + 2 ^ Z.of_nat a) by ring.
    exact (flip_move N dec b a Hd Hb Ha Htb Hta).
Qed.

Lemma exchange_spin_flips_move_witness :
  exchange_spin_flips 1 (2 ^ Z.of_nat 0) (2 ^ Z.of_nat 1)
  = (Z.testbit 1 (Z.of_nat 0) && negb (Z.testbit 1 (Z.of_nat 1)),
     negb (Z.testbit 1 (Z.of_nat 0)) && Z.testbit 1 (Z.of_nat 1)) /\
  (fst (exchange_spin_flips 1 (2 ^ Z.of_nat 0) (2 ^ Z.of_nat 1)) = true ->
   0 <= 1 - 2 ^ Z.of_nat 0 + 2 ^ Z.of_nat 1 < 2 ^ Z.of_nat 2 /\
   popcount (1 - 2 ^ Z.of_nat 0 + 2 ^ Z.of_nat 1) = popcount 1 /\
   forall i, 0 <= i -> Z.testbit (1 - 2 ^ Z.of_nat 0 + 2 ^ Z.of_nat 1) i =
     if i =? Z.of_nat 0 then false else if i =? Z.of_nat 1 then true else Z.testbit 1 i) /\
  (snd (exchange_spin_flips 1 (2 ^ Z.of_nat 0) (2 ^ Z.of_nat 1)) = true ->
   0 <= 1 + 2 ^ Z.of_nat 0 - 2 ^ Z.of_nat 1 < 2 ^ Z.of_nat 2 /\
   popcount (1 + 2 ^ Z.of_nat 0 - 2 ^ Z.of_nat 1) = popcount 1 /\
   forall i, 0 <= i -> Z.testbit (1 + 2 ^ Z.of_nat 0 - 2 ^ Z.of_nat 1) i =
     if i =? Z.of_nat 1 then false else if i =? Z.of_nat 0 then true else Z.testbit 1 i).
Proof. apply (exchange_spin_flips_move 2 1 0 1); [simpl; lia|lia|lia]. Defined.

(** X11: for two distinct sites [a], [b] of an [N]-site state [dec],
    [_repeated_spins] reports [upup] exactly when both spins are up and
    [downdown] exactly when both are down; lowering both ([dec - s1 - s2])
    or raising both ([dec + s1 + s2]) then gives again an [N]-site state
    with two up spins fewer or more. *)
Theorem repeated_spins_pair (N : nat) (dec : Z) (a b : nat) :
  0 <= dec < 2 ^ Z.of_nat N -> (a < N)%nat -> (b < N)%nat -> a <> b ->
  repeated_spins dec (2 ^ Z.of_nat a) (2 ^ Z.of_nat b)
  = (Z.testbit dec (Z.of_nat a) && Z.testbit dec (Z.of_nat b),
     negb (Z.testbit dec (Z.of_nat a)) && negb (Z.testbit dec (Z.of_nat b))) /\
  (fst (repeated_spins dec (2 ^ Z.of_nat a) (2 ^ Z.of_nat b)) = true ->
   0 <= dec - 2 ^ Z.of_nat a - 2 ^ Z.of_nat b < 2 ^ Z.of_nat N /\
   (popcount (dec - 2 ^ Z.of_nat a - 2 ^ Z.of_nat b) + 2 = popcount dec)%nat) /\
  (snd (repeated_spins dec (2 ^ Z.of_nat a) (2 ^ Z.of_nat b)) = true ->
   0 <= dec + 2 ^ Z.of_nat a + 2 ^ Z.of_nat b < 2 ^ Z.of_nat N /\
   popcount (dec + 2 ^ Z.of_nat a + 2 ^ Z.of_nat b) = (popcount dec + 2)%nat).
Proof.
  intros Hd Ha Hb Hab.
  assert (E : repeated_spins dec (2 ^ Z.of_nat a) (2 ^ Z.of_nat b)
    = (Z.testbit dec (Z.of_nat a) && Z.testbit dec (Z.of_nat b),
       negb (Z.testbit dec (Z.of_nat a)) && negb (Z.testbit dec (Z.of_nat b))))
    by (unfold repeated_spins; rewrite !lor_mask_eqb; reflexivity).
  split; [exact E|]. rewrite E. cbn [fst snd]. split.
  - intros H. apply andb_prop in H. destruct H as [Hta Htb].
    destruct (flip_both_down N dec a b Hd Ha Hb Hab Hta Htb) as [Hr Hp]. split; [exact Hr|lia].
  - intros H. apply andb_prop in H. destruct H as [Hta Htb].
    apply negb_true_iff in Hta, Htb.
    destruct (flip_both_up N dec a b Hd Ha Hb Hab Hta Htb) as [Hr Hp]. split; [exact Hr|lia].
Qed.

Lemma repeated_spins_pair_witness :
  repeated_spins 3 (2 ^ Z.of_nat 0) (2 ^ Z.of_nat 1)
  = (Z.testbit 3 (Z.of_nat 0) && Z.testbit 3 (Z.of_nat 1),
     negb (Z.testbit 3 (Z.of_nat 0)) && negb (Z.testbit 3 (Z.of_nat 1))) /\
  (fst (repeated_spins 3 (2 ^ Z.of_nat 0) (2 ^ Z.of_nat 1)) = true ->
   0 <= 3 - 2 ^ Z.of_nat 0 - 2 ^ Z.of_nat 1 < 2 ^ Z.of_nat 2 /\
   (popcount (3 - 2 ^ Z.of_nat 0 - 2 ^ Z.of_nat 1) + 2 = popcount 3)%nat) /\
  (snd (repeated_spins 3 (2 ^ Z.of_nat 0) (2 ^ Z.of_nat 1)) = true ->
   0 <= 3 + 2 ^ Z.of_nat 0 + 2 ^ Z.of_nat 1 < 2 ^ Z.of_nat 2 /\
   popcount (3 + 2 ^ Z.of_nat 0 + 2 ^ Z.of_nat 1) = (popcount 3 + 2)%nat).
Proof. apply (repeated_spins_pair 2 3 0 1); [simpl; lia|lia|lia|lia]. Defined.

(** X12: [H_pm_elements] raises [KeyError] for an index [i] past the end of
    the reduced basis; for an index of the basis (and bonds between sites of
    the lattice) it raises nothing and returns a dict whose keys are
    distinct indices of the basis, each the index of an orbit with as many
    up spins as the orbit at [i]: the exchange term conserves the
    magnetization. *)
Theorem H_pm_elements_block (Nx Ny : nat) (kx ky : Z) (bonds : list (nat * nat)) :
  (1 <= Nx)%nat -> (1 <= Ny)%nat ->
  Forall (fun b => fst b < Nx * Ny /\ snd b < Nx * Ny)%nat bonds ->
  forall i,
  ((length (reduced_basis Nx Ny kx ky) <= i)%nat ->
   H_pm_elements Nx Ny kx ky bonds i = inl KeyError) /\
  ((i < length (reduced_basis Nx Ny kx ky))%nat ->
   exists orig_state j_element,
    ind_to_dec (norm_gt_tol Nx Ny kx ky) Nx Ny i = Some orig_state /\
    H_pm_elements Nx Ny kx ky bonds i = inr j_element /\
    NoDup (map fst j_element) /\
    forall j, In j (map fst j_element) ->
      (j < length (reduced_basis Nx Ny kx ky))%nat /\
      exists cntd_state, ind_to_dec (norm_gt_tol Nx Ny kx ky) Nx Ny j = Some cntd_state /\
        popcount (lead cntd_state) = popcount (lead orig_state)).
Proof.
  intros HNx HNy Hb i. split.
  - intros Hi. unfold H_pm_elements. rewrite ind_to_dec_out by exact Hi. reflexivity.
  - apply H_pm_elements_ok; assumption.
Qed.

Lemma H_pm_elements_block_witness :
  ((length (reduced_basis 2 1 0 0) <= 0)%nat ->
   H_pm_elements 2 1 0 0 [(0, 1)%nat] 0 = inl KeyError) /\
  ((0 < length (reduced_basis 2 1 0 0))%nat ->
   exists orig_state j_element,
    ind_to_dec (norm_gt_tol 2 1 0 0) 2 1 0 = Some orig_state /\
    H_pm_elements 2 1 0 0 [(0, 1)%nat] 0 = inr j_element /\
    NoDup (map fst j_element) /\
    forall j, In j (map fst j_element) ->
      (j < length (reduced_basis 2 1 0 0))%nat /\
      exists cntd_state, ind_to_dec (norm_gt_tol 2 1 0 0) 2 1 j = Some cntd_state /\
        popcount (lead cntd_state) = popcount (lead orig_state)).
Proof.
  refine (H_pm_elements_block 2 1 0 0 [(0, 1)%nat] _ _ _ 0); [lia|lia|].
  repeat constructor; simpl; lia.
Defined.

(** X13: [H_ppmm_elements] raises [KeyError] for an index past the end of
    the reduced basis; for an index of the basis and bonds between two
    distinct sites of the lattice it raises nothing and returns a dict whose
    keys are distinct indices of the basis, each the index of an orbit with
    two up spins fewer or two more than the orbit at [i]. *)
Theorem H_ppmm_elements_block (gamma : Z -> Z -> cplx) (Nx Ny : nat) (kx ky : Z)
    (bonds : list (nat * nat)) :
  (1 <= Nx)%nat -> (1 <= Ny)%nat ->
  Forall (fun b => fst b < Nx * Ny /\ snd b < Nx * Ny /\ fst b <> snd b)%nat bonds ->
  forall i,
  ((length (reduced_basis Nx Ny kx ky) <= i)%nat ->
   H_ppmm_elements gamma Nx Ny kx ky bonds i = inl KeyError) /\
  ((i < length (reduced_basis Nx Ny kx ky))%nat ->
   exists orig_state j_element,
    ind_to_dec (norm_gt_tol Nx Ny kx ky) Nx Ny i = Some orig_state /\
    H_ppmm_elements gamma Nx Ny kx ky bonds i = inr j_element /\
    NoDup (map fst j_element) /\
    forall j, In j (map fst j_element) ->
      (j < length (reduced_basis Nx Ny kx ky))%nat /\
      exists cntd_state, ind_to_dec (norm_gt_tol Nx Ny kx ky) Nx Ny j = Some cntd_state /\
        (popcount (lead cntd_state) + 2 = popcount (lead orig_state) \/
         popcount (lead cntd_state) = popcount (lead orig_state) + 2)%nat).
Proof.
  intros HNx HNy Hb i. split.
  - intros Hi. unfold H_ppmm_elements. rewrite ind_to_dec_out by exact Hi. reflexivity.
  - apply H_ppmm_elements_ok; assumption.
Qed.

Lemma H_ppmm_elements_block_witness :
  ((length (reduced_basis 2 1 0 0) <= 0)%nat ->
   H_ppmm_elements (fun _ _ => cone) 2 1 0 0 [(0, 1)%nat] 0 = inl KeyError) /\
  ((0 < length (reduced_basis 2 1 0 0))%nat ->
   exists orig_state j_element,
    ind_to_dec (norm_gt_tol 2 1 0 0) 2 1 0 = Some orig_state /\
    H_ppmm_elements (fun _ _ => cone) 2 1 0 0 [(0, 1)%nat] 0 = inr j_element /\
    NoDup (map fst j_element) /\
    forall j, In j (map fst j_element) ->
      (j < length (reduced_basis 2 1 0 0))%nat /\
      exists cntd_state, ind_to_dec (norm_gt_tol 2 1 0 0) 2 1 j = Some cntd_state /\
        (popcount (lead cntd_state) + 2 = popcount (lead orig_state) \/
         popcount (lead cntd_state) = popcount (lead orig_state) + 2)%nat).
Proof.
  refine (H_ppmm_elements_block (fun _ _ => cone) 2 1 0 0 [(0, 1)%nat] _ _ _ 0); [lia|lia|].
  repeat constructor; simpl; lia.
Defined.

(** X14: [H_pmz_elements] raises [KeyError] for an index past the end of
    the reduced basis; for an index of the basis (and bonds between sites of
    the lattice) it raises nothing and returns a dict whose keys are
    distinct indices of the basis, each the index of an orbit with one up
    spin fewer or one more than the orbit at [i]. *)
Theorem H_pmz_elements_block (gamma : Z -> Z -> cplx) (Nx Ny : nat) (kx ky : Z)
    (bonds : list (nat * nat)) :
  (1 <= Nx)%nat -> (1 <= Ny)%nat ->
  Forall (fun b => fst b < Nx * Ny /\ snd b < Nx * Ny)%nat bonds ->
  forall i,
  ((length (reduced_basis Nx Ny kx ky) <= i)%nat ->
   H_pmz_elements gamma Nx Ny kx ky bonds i = inl KeyError) /\
  ((i < length (reduced_basis Nx Ny kx ky))%nat ->
   exists orig_state j_element,
    ind_to_dec (norm_gt_tol Nx Ny kx ky) Nx Ny i = Some orig_state /\
    H_pmz_elements gamma Nx Ny kx ky bonds i = inr j_element /\
    NoDup (map fst j_element) /\
    forall j, In j (map fst j_element) ->
      (j < length (reduced_basis Nx Ny kx ky))%nat /\
      exists cntd_state, ind_to_dec (norm_gt_tol Nx Ny kx ky) Nx Ny j = Some cntd_state /\
        (popcount (lead cntd_state) + 1 = popcount (lead orig_state) \/
         popcount (lead cntd_state) = popcount (lead orig_state) + 1)%nat).
Proof.
  intros HNx HNy Hb i. split.
  - intros Hi. unfold H_pmz_elements. rewrite ind_to_dec_out by exact Hi. reflexivity.
  - apply H_pmz_elements_ok; assumption.
Qed.

Lemma H_pmz_elements_block_witness :
  ((length (reduced_basis 2 1 0 0) <= 0)%nat ->
   H_pmz_elements (fun _ _ => cone) 2 1 0 0 [(0, 1)%nat] 0 = inl KeyError) /\
  ((0 < length (reduced_basis 2 1 0 0))%nat ->
   exists orig_state j_element,
    ind_to_dec (norm_gt_tol 2 1 0 0) 2 1 0 = Some orig_state /\
    H_pmz_elements (fun _ _ => cone) 2 1 0 0 [(0, 1)%nat] 0 = inr j_element /\
    NoDup (map fst j_element) /\
    forall j, In j (map fst j_element) ->
      (j < length (reduced_basis 2 1 0 0))%nat /\
      exists cntd_state, ind_to_dec (norm_gt_tol 2 1 0 0) 2 1 j = Some cntd_state /\
        (popcount (lead cntd_state) + 1 = popcount (lead orig_state) \/
         popcount (lead cntd_state) = popcount (lead orig_state) + 1)%nat).
Proof.
  refine (H_pmz_elements_block (fun _ _ => cone) 2 1 0 0 [(0, 1)%nat] _ _ _ 0); [lia|lia|].
  repeat constructor; simpl; lia.
Defined.

(** X15: with bonds between two distinct sites of the lattice,
    [_offdiag_components] raises nothing for [H_pm_elements],
    [H_ppmm_elements] and [H_pmz_elements]; each returns entries
    [(row, col, data)] with no repeated [(row, col)] pair and both indices
    below the matrix size [n], joining orbits whose numbers of up spins are
    equal (exchange term), differ by two ([ppmm] term) or differ by one
    ([pmz] term). *)
Theorem offdiag_components_entries (gamma : Z -> Z -> cplx) (Nx Ny : nat) (kx ky : Z)
    (bonds : list (nat * nat)) :
  (1 <= Nx)%nat -> (1 <= Ny)%nat ->
  Forall (fun b => fst b < Nx * Ny /\ snd b < Nx * Ny /\ fst b <> snd b)%nat bonds ->
  (exists entries, offdiag_components Nx Ny kx ky (H_pm_elements Nx Ny kx ky bonds) = inr entries /\
    NoDup (map fst entries) /\
    forall r c v, In (r, c, v) entries ->
      (r < length (reduced_basis Nx Ny kx ky) /\ c < length (reduced_basis Nx Ny kx ky))%nat /\
      exists br bc, ind_to_dec (norm_gt_tol Nx Ny kx ky) Nx Ny r = Some br /\
        ind_to_dec (norm_gt_tol Nx Ny kx ky) Nx Ny c = Some bc /\
        popcount (lead bc) = popcount (lead br)) /\
  (exists entries,
    offdiag_components Nx Ny kx ky (H_ppmm_elements gamma Nx Ny kx ky bonds) = inr entries /\
    NoDup (map fst entries) /\
    forall r c v, In (r, c, v) entries ->
      (r < length (reduced_basis Nx Ny kx ky) /\ c < length (reduced_basis Nx Ny kx ky))%nat /\
      exists br bc, ind_to_dec (norm_gt_tol Nx Ny kx ky) Nx Ny r = Some br /\
        ind_to_dec (norm_gt_tol Nx Ny kx ky) Nx Ny c = Some bc /\
        (popcount (lead bc) + 2 = popcount (lead br) \/
         popcount (lead bc) = popcount (lead br) + 2)%nat) /\
  (exists entries,
    offdiag_components Nx Ny kx ky (H_pmz_elements gamma Nx Ny kx ky bonds) = inr entries /\
    NoDup (map fst entries) /\
    forall r c v, In (r, c, v) entries ->
      (r < length (reduced_basis Nx Ny kx ky) /\ c < length (reduced_basis Nx Ny kx ky))%nat /\
      exists br bc, ind_to_dec (norm_gt_tol Nx Ny kx ky) Nx Ny r = Some br /\
        ind_to_dec (norm_gt_tol Nx Ny kx ky) Nx Ny c = Some bc /\
        (popcount (lead bc) + 1 = popcount (lead br) \/
         popcount (lead bc) = popcount (lead br) + 1)%nat).
Proof.
  intros HNx HNy Hb.
  assert (Hb' : Forall (fun b => fst b < Nx * Ny /\ snd b < Nx * Ny)%nat bonds).
  { eapply Forall_impl; [|exact Hb]. cbv beta. tauto. }
  split; [|split].
  - apply (offdiag_of_elements Nx Ny kx ky _ (fun a b => a = b)).
    intros i Hi. apply H_pm_elements_ok; assumption.
  - apply (offdiag_of_elements Nx Ny kx ky _ (fun a b => a + 2 = b \/ a = b + 2)%nat).
    intros i Hi. apply H_ppmm_elements_ok; assumption.
  - apply (offdiag_of_elements Nx Ny kx ky _ (fun a b => a + 1 = b \/ a = b + 1)%nat).
    intros i Hi. apply H_pmz_elements_ok; assumption.
Qed.

Lemma offdiag_components_entries_witness :
  (exists entries, offdiag_components 2 1 0 0 (H_pm_elements 2 1 0 0 [(0, 1)%nat]) = inr entries /\
    NoDup (map fst entries) /\
    forall r c v, In (r, c, v) entries ->
      (r < length (reduced_basis 2 1 0 0) /\ c < length (reduced_basis 2 1 0 0))%nat /\
      exists br bc, ind_to_dec (norm_gt_tol 2 1 0 0) 2 1 r = Some br /\
        ind_to_dec (norm_gt_tol 2 1 0 0) 2 1 c = Some bc /\
        popcount (lead bc) = popcount (lead br)) /\
  (exists entries,
    offdiag_components 2 1 0 0 (H_ppmm_elements (fun _ _ => cone) 2 1 0 0 [(0, 1)%nat]) = inr entries /\
    NoDup (map fst entries) /\
    forall r c v, In (r, c, v) entries ->
      (r < length (reduced_basis 2 1 0 0) /\ c < length (reduced_basis 2 1 0 0))%nat /\
      exists br bc, ind_to_dec (norm_gt_tol 2 1 0 0) 2 1 r = Some br /\
        ind_to_dec (norm_gt_tol 2 1 0 0) 2 1 c = Some bc /\
        (popcount (lead bc) + 2 = popcount (lead br) \/
         popcount (lead bc) = popcount (lead br) + 2)%nat) /\
  (exists entries,
    offdiag_components 2 1 0 0 (H_pmz_elements (fun _ _ => cone) 2 1 0 0 [(0, 1)%nat]) = inr entries /\
    NoDup (map fst entries) /\
    forall r c v, In (r, c, v) entries ->
      (r < length (reduced_basis 2 1 0 0) /\ c < length (reduced_basis 2 1 0 0))%nat /\
      exists br bc, ind_to_dec (norm_gt_tol 2 1 0 0) 2 1 r = Some br /\
        ind_to_dec (norm_gt_tol 2 1 0 0) 2 1 c = Some bc /\
        (popcount (lead bc) + 1 = popcount (lead br) \/
         popcount (lead bc) = popcount (lead br) + 1)%nat).
Proof.
  apply (offdiag_components_entries (fun _ _ => cone) 2 1 0 0 [(0, 1)%nat]); [lia|lia|].
  repeat constructor; simpl; lia.
Defined.

(** X16: [_diag_components] with [H_z_elements] raises nothing: it returns
    one entry per orbit of the reduced basis, the entry at index [i] being
    the value of [H_z_elements] at [i], and every entry lies between
    [-0.25 * len(bonds)] and [0.25 * len(bonds)]. *)
Theorem H_z_diagonal (Nx Ny : nat) (kx ky : Z) (bonds : list (nat * nat)) :
  exists data,
    diag_components Nx Ny kx ky (H_z_elements (norm_gt_tol Nx Ny kx ky) Nx Ny bonds) = Some data /\
    length data = length (reduced_basis Nx Ny kx ky) /\
    (forall i, (i < length data)%nat ->
       nth_error data i = H_z_elements (norm_gt_tol Nx Ny kx ky) Nx Ny bonds i) /\
    Forall (fun x => - inject_Z (Z.of_nat (length bonds)) * (1 # 4) <= x <=
                     inject_Z (Z.of_nat (length bonds)) * (1 # 4))%Q data.
Proof.
  unfold diag_components. cbv zeta.
  destruct (diag_fold (H_z_elements (norm_gt_tol Nx Ny kx ky) Nx Ny bonds)
              (length (reduced_basis Nx Ny kx ky)) []) as [data [E [Hl [_ Hn]]]].
  - intros i Hi. cbn [length] in Hi. unfold H_z_elements, ind_to_dec.
    destruct (nth_error _ i) eqn:En; [discriminate|].
    apply nth_error_None in En. unfold reduced_basis in Hi. lia.
  - cbn [length] in E, Hl, Hn. exists data. split; [exact E|]. split; [exact Hl|]. split.
    + intros i Hi. apply Hn. lia.
    + apply Forall_forall. intros x Hx. apply In_nth_error in Hx. destruct Hx as [i Hi].
      apply (H_z_elements_bound (norm_gt_tol Nx Ny kx ky) Nx Ny bonds i).
      rewrite <- Hn; [exact Hi|]. split; [lia|].
      rewrite <- Hl. apply nth_error_Some. congruence.
Qed.

(** X17: [hamiltonian_consv_k], given the matrices [mat] for its requests,
    returns what [hamiltonian_dp] returns for the same matrices and
    couplings (the same sum, or the same [ZeroDivisionError]); it requests
    the four nearest-neighbour matrices, then the range-2 matrices only when
    [J2] is nonzero, then the range-3 matrices only when [J3] is nonzero and
    the range-2 term did not raise. *)
Theorem consv_k_matches_dp (M : Type) (madd : M -> M -> M) (mscale : Q -> M -> M)
    (mat : component -> M) (J_pm J_z J_ppmm J_pmz J2 J3 : Q) (log : list component) :
  hamiltonian_consv_k M madd mscale (list component) (log_build mat) (fun l => l)
    J_pm J_z J_ppmm J_pmz J2 J3 log
  = (log ++ [Cz 1; Cpm 1; Cppmm; Cpmz]
         ++ (if negb (Qeq_bool J2 0) then [Cz 2; Cpm 2] else [])
         ++ (if negb (Qeq_bool J3 0) && (Qeq_bool J2 0 || negb (Qeq_bool J_pm 0))
             then [Cz 3; Cpm 3] else []),
     hamiltonian_dp M madd mscale (mat (Cpm 1)) (mat (Cz 1)) (mat Cppmm) (mat Cpmz)
       (mat (Cpm 2)) (mat (Cz 2)) (mat (Cz 3)) (mat (Cpm 3)) J_pm J_z J_ppmm J_pmz J2 J3).
Proof.
  unfold hamiltonian_consv_k, hamiltonian_dp, asm_bind, request, asm_ret, asm_lift, asm_clear,
    py_div, log_build.
  destruct (Qeq_bool J2 0), (Qeq_bool J3 0), (Qeq_bool J_pm 0); cbn [negb andb orb];
    rewrite <- ?app_assoc; reflexivity.
Qed.

(** X19: every entry of [_phase_arr] has modulus [1], and the array is a
    character of the translation group: the entry at the sum of two sweep
    positions, taken modulo [(Ny, Nx)], is the product of their entries. *)
Theorem phase_arr_character (Nx Ny : nat) (kx ky : Z) :
  (1 <= Nx)%nat -> (1 <= Ny)%nat ->
  (forall n m, cabs2 (phase_arr Nx Ny kx ky n m) = 1%R) /\
  (forall n m n' m',
     phase_arr Nx Ny kx ky ((n + n') mod Ny) ((m + m') mod Nx)
     = cmul (phase_arr Nx Ny kx ky n m) (phase_arr Nx Ny kx ky n' m')).
Proof.
  intros HNx HNy. split.
  - intros n m. apply cabs2_phase_arr.
  - intros n m n' m'. apply (phase_arr_pos_add Nx Ny HNx HNy kx ky (n, m) (n', m')).
Qed.

Lemma phase_arr_character_witness :
  (forall n m, cabs2 (phase_arr 3 2 1 1 n m) = 1%R) /\
  (forall n m n' m',
     phase_arr 3 2 1 1 ((n + n') mod 2) ((m + m') mod 3)
     = cmul (phase_arr 3 2 1 1 n m) (phase_arr 3 2 1 1 n' m')).
Proof. apply (phase_arr_character 3 2 1 1); lia. Defined.

(** X20: in the reduced basis of a sector every orbit has a norm of at
    least [1], so [_coeff] of two of its orbits never divides by zero and
    gives a positive factor. *)
Theorem coeff_positive (Nx Ny : nat) (kx ky : Z) :
  (1 <= Nx)%nat -> (1 <= Ny)%nat ->
  Forall (fun bf => (1 <= norm_coeff bf Nx Ny kx ky)%R) (reduced_basis Nx Ny kx ky) /\
  Forall (fun orig_state => Forall (fun cntd_state =>
      (0 < coeff Nx Ny kx ky orig_state cntd_state)%R) (reduced_basis Nx Ny kx ky))
    (reduced_basis Nx Ny kx ky).
Proof.
  intros HNx HNy.
  assert (Hge : forall bf, In bf (reduced_basis Nx Ny kx ky) ->
                  (1 <= norm_coeff bf Nx Ny kx ky)%R).
  { intros bf Hk. unfold reduced_basis, nonzero_states in Hk.
    apply filter_In in Hk. destruct Hk as [Hbf Hg].
    apply (zms_norm_ge1 Nx Ny HNx HNy); assumption. }
  split; [apply Forall_forall; exact Hge|].
  apply Forall_forall. intros orig Ho. apply Forall_forall. intros cntd Hc.
  pose proof (Hge orig Ho) as H1. pose proof (Hge cntd Hc) as H2.
  unfold coeff. apply Rdiv_lt_0_compat; lra.
Qed.

Lemma coeff_positive_witness :
  Forall (fun bf => (1 <= norm_coeff bf 2 2 1 0)%R) (reduced_basis 2 2 1 0) /\
  Forall (fun orig_state => Forall (fun cntd_state =>
      (0 < coeff 2 2 1 0 orig_state cntd_state)%R) (reduced_basis 2 2 1 0))
    (reduced_basis 2 2 1 0).
Proof. apply (coeff_positive 2 2 1 0); lia. Defined.
